(** * node.std: masking codec, quota-bounded temp storage, download service

    A shallow embedding of the binary staging layer of node.std:
    - the buffer module (src/unnamed/part_003): chunkToBuffer, _mask,
      _unmask, mask, unmask;
    - fs/core (src/unnamed/part_007): ensureDir, rimraf and their Sync twins;
    - fs/binary.ts: writeBinary, writeBinarySync, writeBinaryStream;
    - fs/temp.ts: TemporaryDirectory;
    - DownloadService (the second file of src/math/vector.ts) with the
      promise helpers that follow it.

    JavaScript numbers are modelled by [Z] (the quantities are byte counts
    and indices, far below 2^53), a [Buffer] by the list of its bytes, a
    thrown value by [Error], and every call into Node ([fs], [http], [os],
    the clock, the console) by an event of a small free monad: a program is
    a tree of calls, "performs no I/O" is the statement that a program is a
    [Ret], and a property that holds "whatever the file system answers" is
    quantified over the handlers that interpret the calls.  An operation is
    run from its call to the moment it settles; operations do not overlap
    (the storage is single-writer by contract). *)

From Stdlib Require Import ZArith Lia Bool.
From stdpp Require Import base list strings gmap.

Local Open Scope Z_scope.

(** ** Bytes and buffers *)

Abbreviation Buffer := (list Z).

Definition is_byte (x : Z) : Prop := 0 <= x < 256.

Definition is_buffer (b : Buffer) : Prop := Forall is_byte b.

Definition is_byteb (x : Z) : bool := (0 <=? x) && (x <? 256).

Definition is_bufferb (b : Buffer) : bool := forallb is_byteb b.

(** [Buffer.alloc(n)]: n zero bytes. *)
Definition alloc (n : nat) : Buffer := replicate n 0.

(** Reading [b[i]] as an operand of [^]: an index outside the buffer reads
    [undefined], which [^] coerces to 0. *)
Definition byte_at (b : Buffer) (i : Z) : Z :=
  if i <? 0 then 0 else default 0 (b !! Z.to_nat i).

(** The conversion applied when a number is stored into a Uint8Array. *)
Definition ToUint8 (v : Z) : Z := v mod 256.

(** [b[i] = v] on a Uint8Array: a store outside the buffer is ignored (typed
    arrays never grow). *)
Definition store (b : Buffer) (i : Z) (v : Z) : Buffer :=
  if i <? 0 then b else <[Z.to_nat i := ToUint8 v]> b.

Module Codec.

(** The key index of byte [i]: [pad ? Math.floor(i % mask.length) : i & 3].
    For an empty key the JavaScript index is NaN and the read is [undefined];
    [byte_at] gives the same 0 at every index of the empty list. *)
Definition key_index (key : Buffer) (pad : bool) (i : Z) : Z :=
  if pad then i mod Z.of_nat (length key) else Z.land i 3.

(** The body of [for (let i = 0; i < length; i++)] in [_mask], with [n]
    iterations left and loop counter [i]. *)
Fixpoint _mask_loop (n : nat) (i : Z) (source key output : Buffer)
    (offset : Z) (pad : bool) : Buffer :=
  match n with
  | O => output
  | S n' =>
      _mask_loop n' (i + 1) source key
        (store output (offset + i)
           (Z.lxor (byte_at source i) (byte_at key (key_index key pad i))))
        offset pad
  end.

(** [_mask(source, mask, output, offset, length, pad)]; the result is the
    content of [output] after the call.  [source], [mask] and [output] are
    three separate buffers, as at every call site ([output] is a fresh
    [Buffer.alloc]). *)
Definition _mask (source key output : Buffer) (offset length : Z)
    (pad : bool) : Buffer :=
  _mask_loop (Z.to_nat length) 0 source key output offset pad.

Fixpoint _unmask_loop (n : nat) (i : Z) (buffer key : Buffer)
    (pad : bool) : Buffer :=
  match n with
  | O => buffer
  | S n' =>
      _unmask_loop n' (i + 1)
        (store buffer i
           (Z.lxor (byte_at buffer i) (byte_at key (key_index key pad i))))
        key pad
  end.

(** [_unmask(buffer, mask, pad)], in place; the result is the content of
    [buffer] after the call. *)
Definition _unmask (buffer key : Buffer) (pad : bool) : Buffer :=
  _unmask_loop (length buffer) 0 buffer key pad.

(** The optional [bufferutil] package.  It is not part of the repository:
    all the code knows of it is that [require] may throw and that the two
    entry points receive exactly the arguments below (no [pad]) and may
    throw.  [None] is a throw. *)
Record Backend := {
  bu_mask : Buffer -> Buffer -> Buffer -> Z -> Z -> option Buffer;
  bu_unmask : Buffer -> Buffer -> option Buffer
}.

Record Env := {
  NO_BUFFER_UTILS : bool;           (* process.env.NO_BUFFER_UTILS === '1' *)
  bufferutil : option Backend       (* require('bufferutil'), None: throws *)
}.

Record MaskOptions := {
  avoidBufferUtils : option bool;
  pad : option bool
}.

(** JavaScript truthiness of an optional boolean. *)
Definition truthy (o : option bool) : bool := default false o.

(** [mask(source, mask, output, offset, length, options)]. *)
Definition mask (env : Env) (source key output : Buffer) (offset length : Z)
    (options : MaskOptions) : Buffer :=
  let avoid := match avoidBufferUtils options with
               | Some b => b
               | None => true
               end in
  let p := truthy (pad options) in
  if NO_BUFFER_UTILS env || avoid then _mask source key output offset length p
  else if length <? 48 then _mask source key output offset length p
  else match bufferutil env with
       | None => _mask source key output offset length p
       | Some bu =>
           match bu_mask bu source key output offset length with
           | Some out => out
           | None => _mask source key output offset length p
           end
       end.

(** [unmask(buffer, mask, options)]. *)
Definition unmask (env : Env) (buffer key : Buffer)
    (options : MaskOptions) : Buffer :=
  let avoid := match avoidBufferUtils options with
               | Some b => b
               | None => true
               end in
  let p := truthy (pad options) in
  if NO_BUFFER_UTILS env || avoid then _unmask buffer key p
  else if Z.of_nat (length buffer) <? 32 then _unmask buffer key p
  else match bufferutil env with
       | None => _unmask buffer key p
       | Some bu =>
           match bu_unmask bu buffer key with
           | Some out => out
           | None => _unmask buffer key p
           end
       end.

(** The masking the published [bufferutil] performs: a four-byte frame key,
    index [i & 3].  Used only to run the accelerated path on an example. *)
Definition frame_backend : Backend := {|
  bu_mask := fun source key output offset length =>
    Some (_mask source key output offset length false);
  bu_unmask := fun buffer key => Some (_unmask buffer key false)
|}.

End Codec.

(** ** Thrown values *)

(** The code names handed to [new Exception(message, code)]; the numeric
    [errorCode] the errors module derives from a name is not modelled. *)
Inductive ErrorCode :=
| ERR_UNKNOWN_ERROR
| ERR_INVALID_ARGUMENT
| ERR_INVALID_TYPE
| ERR_TOKEN_CANCELED
| ERR_TIMEOUT
| ERR_BUFFER_OVERFLOW
| ERR_RESOURCE_NOT_FOUND
| ERR_PATH_IS_A_FILE
| ERR_UNSUPPORTED_OPERATION
| ERR_HTTP_FAILURE.

#[global] Instance ErrorCode_eq_dec : EqDecision ErrorCode.
Proof. solve_decision. Defined.

Inductive Error :=
| Exception (code : ErrorCode)   (* new Exception(message, code) *)
| SystemError (code : string)    (* an error of Node with a [code]: ENOENT, ... *)
| TypeError                      (* a property read on null or undefined *)
| AssertionError.                (* thrown by the asserts module *)

Inductive Result (A : Type) : Type :=
| Ok (a : A)
| Throw (e : Error).
Arguments Ok {A} a.
Arguments Throw {A} e.

(** Modelled from the spec: [isKnownError] of the errors module is not under
    src/; it is taken to test that the thrown value is an [Exception] built
    with the given code name. *)
Definition isKnownError (err : Error) (code : ErrorCode) : bool :=
  match err with
  | Exception c => bool_decide (c = code)
  | _ => false
  end.

(** [err.code === c] on a caught value; an [Exception] has no [code]. *)
Definition has_code (err : Error) (c : string) : bool :=
  match err with
  | SystemError c' => bool_decide (c' = c)
  | _ => false
  end.

(** ** Byte-like values *)

(** The union [K] of types.ts, by what [chunkToBuffer] does with a value. *)
Inductive K :=
| KBuffer (b : Buffer)                (* Buffer: returned as it is *)
| KString (s : string)                (* Buffer.from(string): its UTF-8 bytes *)
| KArrayBuffer (b : Buffer)           (* ArrayBuffer, SharedArrayBuffer *)
| KTypedArray (elements : list Z)     (* Uint8Array ... Float64Array:
                                         Buffer.from copies the elements *)
| KView (b : Buffer) (byteOffset byteLength : nat)
                                      (* DataView and other views *)
| KOther.                             (* any other value *)

Definition string_bytes (s : string) : Buffer :=
  (fun a => Z.of_N (Ascii.N_of_ascii a)) <$> String.list_ascii_of_string s.

Definition chunkToBuffer (chunk : K) : Result Buffer :=
  match chunk with
  | KBuffer b => Ok b
  | KString s => Ok (string_bytes s)
  | KArrayBuffer b => Ok b
  | KTypedArray elements => Ok (ToUint8 <$> elements)
  | KView b byteOffset byteLength => Ok (take byteLength (drop byteOffset b))
  | KOther => Throw (Exception ERR_INVALID_TYPE)
  end.

(** [if(mask)]: of the values of [K] only the empty string is falsy. *)
Definition K_truthy (k : K) : bool :=
  match k with
  | KString s => negb (bool_decide (s = EmptyString))
  | _ => true
  end.

Definition byteLength (b : Buffer) : Z := Z.of_nat (length b).

(** ** Cancellation *)

(** Modelled from the spec: the cancellation module is not under src/ (only
    its tests are).  A token is read through [isCancellationRequested]; a
    source owns one token; a listener registered on a token that is already
    cancelled runs at once. *)
Module cancellation.

Record CancellationToken := { isCancellationRequested : bool }.

Record CancellationTokenSource := { token : CancellationToken }.

(** [new CancellationTokenSource()]. *)
Definition new_source : CancellationTokenSource :=
  {| token := {| isCancellationRequested := false |} |}.

(** [new CancellationTokenSource(parent)]: cancelled with its parent. *)
Definition child_source (parent : option CancellationToken) : CancellationTokenSource :=
  match parent with
  | Some p => {| token := p |}
  | None => new_source
  end.

(** [source.cancel()]. *)
Definition cancel (s : CancellationTokenSource) : CancellationTokenSource :=
  {| token := {| isCancellationRequested := true |} |}.

(** [token && token.isCancellationRequested]. *)
Definition cancelled (t : option CancellationToken) : bool :=
  match t with
  | Some t => isCancellationRequested t
  | None => false
  end.

End cancellation.
Export cancellation (CancellationToken, CancellationTokenSource).

(** ** Calls into Node *)

(** A path is the list of its segments and [path.join] appends
    (normalisation of [..] is not modelled). *)
Abbreviation Path := (list string).

Definition path_join (a b : Path) : Path := a ++ b.

Record Stats := {
  size : N;
  isDirectory : bool;
  isSymbolicLink : bool
}.

(** What a read stream or a response body delivers: its ['data'] chunks,
    then ['end'] ([None]) or ['error']. *)
Record Delivery := {
  chunks : list Buffer;
  failure : option Error
}.

Record Response := {
  statusCode : option Z;
  content_length : option Z;
  body : Delivery
}.

(** The calls the code makes into [fs], [http], [os], the clock and the
    console, with the type of what each returns.  A promise-returning call
    and its [Sync] twin are the same event.  A call given an abort signal
    fails with code ABORT_ERR when its token fires during the call. *)
Inductive fsE : Type -> Type :=
| Stat (p : Path) : fsE (Result Stats)
| Lstat (p : Path) : fsE (Result Stats)
| Readdir (p : Path) : fsE (Result (list string))
| Mkdir (p : Path) : fsE (Result unit)       (* recursive: true *)
| Rmdir (p : Path) : fsE (Result unit)
| Unlink (p : Path) : fsE (Result unit)
| WriteFile (p : Path) (data : Buffer) : fsE (Result unit)
| AppendFile (p : Path) (data : Buffer) : fsE (Result unit)
| Rename (p q : Path) : fsE (Result unit)
| CopyFile (p q : Path) : fsE (Result unit)
| ExistsSync (p : Path) : fsE bool
| CreateWriteStream (p : Path) : fsE unit
| StreamWrite (p : Path) (data : Buffer) : fsE bool   (* stream.write *)
| StreamDrain (p : Path) : fsE (Result unit)  (* 'drain', or 'error' *)
| StreamEnd (p : Path) : fsE unit
| StreamFinish (p : Path) : fsE (Result unit) (* 'finish', or 'error' *)
| ReadStream (p : Path) : fsE Delivery        (* fs.createReadStream *)
| HttpGet (url : string) : fsE (Result Response)
| OsTmpdir : fsE Path
| Uuid : fsE string
| Timestamp : fsE Z
| Deadline (ms : Z) : fsE bool     (* the timer of a race fires first *)
| DispatchProgress (loaded total : Z) : fsE unit
| ConsoleLog : fsE unit.

(** A program: a tree of calls, each continued on what the call returns. *)
Inductive prog (A : Type) : Type :=
| Ret (a : A)
| Call {X : Type} (e : fsE X) (k : X -> prog A).
Arguments Ret {A} a.
Arguments Call {A X} e k.

Fixpoint bind {A B : Type} (m : prog A) (f : A -> prog B) : prog B :=
  match m with
  | Ret a => f a
  | Call e k => Call e (fun x => bind (k x) f)
  end.

#[global] Instance prog_ret : MRet prog := @Ret.
#[global] Instance prog_bind : MBind prog := fun A B f m => bind m f.

Definition call {X : Type} (e : fsE X) : prog X := Call e Ret.

(** What the environment answers: a handler gives every call its result in
    a world [W]. *)
Definition handler (W : Type) : Type := forall X : Type, fsE X -> W -> X * W.

Fixpoint interp {W A : Type} (h : handler W) (m : prog A) (w : W) : A * W :=
  match m with
  | Ret a => (a, w)
  | Call e k => let '(x, w') := h _ e w in interp h (k x) w'
  end.

(** ** fs/core (src/unnamed/part_007) *)

Module core.

Definition ensureDir (dirname : Path) : prog (Result unit) :=
  r ← call (Stat dirname);
  match r with
  | Ok st =>
      if isDirectory st then Ret (Ok tt)
      else Ret (Throw (Exception ERR_PATH_IS_A_FILE))
  | Throw err =>
      if has_code err "ENOENT" then call (Mkdir dirname)
      else Ret (Throw err)
  end.

Definition ensureDirSync (dirname : Path) : prog (Result unit) :=
  r ← call (Stat dirname);
  match r with
  | Ok st =>
      if isDirectory st then Ret (Ok tt)
      else Ret (Throw (Exception ERR_PATH_IS_A_FILE))
  | Throw err =>
      if has_code err "ENOENT" then call (Mkdir dirname)
      else Ret (Throw err)
  end.

(** [catch (err) { if(err.code !== 'ENOENT') throw err; }] *)
Definition tolerate_ENOENT (r : Result unit) : Result unit :=
  match r with
  | Ok _ => Ok tt
  | Throw err => if has_code err "ENOENT" then Ok tt else Throw err
  end.

(** [await Promise.all(contents.map(f))]: every child is started; the
    result is the first rejection, if any. *)
Fixpoint promise_all (f : string -> prog (Result unit)) (contents : list string)
    : prog (Result unit) :=
  match contents with
  | [] => Ret (Ok tt)
  | item :: rest =>
      r ← f item;
      r' ← promise_all f rest;
      Ret (match r with Ok _ => r' | Throw e => Throw e end)
  end.

(** [for(const item of contents) f(item)]: stops at the first throw. *)
Fixpoint for_each (f : string -> prog (Result unit)) (contents : list string)
    : prog (Result unit) :=
  match contents with
  | [] => Ret (Ok tt)
  | item :: rest =>
      r ← f item;
      match r with
      | Ok _ => for_each f rest
      | Throw e => Ret (Throw e)
      end
  end.

(** The body shared by [rimraf] and [rimrafSync]; [children] is
    [promise_all] or [for_each].  [depth] bounds the nesting of directories:
    a path has at most PATH_MAX characters, beyond which [lstat] itself
    fails with ENAMETOOLONG. *)
Fixpoint rimraf_body
    (children : (string -> prog (Result unit)) -> list string -> prog (Result unit))
    (depth : nat) (pathname : Path) (recursive : option bool)
    : prog (Result unit) :=
  match depth with
  | O => Ret (Throw (SystemError "ENAMETOOLONG"))
  | S depth' =>
      r ← (s ← call (Lstat pathname);
           match s with
           | Throw err => Ret (Throw err)
           | Ok stat =>
               if isSymbolicLink stat then call (Unlink pathname)
               else if isDirectory stat then
                 let recursiveMode := default true recursive in
                 c ← call (Readdir pathname);
                 match c with
                 | Throw err => Ret (Throw err)
                 | Ok contents =>
                     if negb recursiveMode && (0 <? length contents)%nat
                     then Ret (Throw (Exception ERR_UNSUPPORTED_OPERATION))
                     else
                       d ← children
                             (fun item => rimraf_body children depth'
                                            (path_join pathname [item]) recursive)
                             contents;
                       match d with
                       | Throw err => Ret (Throw err)
                       | Ok _ => call (Rmdir pathname)
                       end
                 end
               else call (Unlink pathname)
           end);
      Ret (tolerate_ENOENT r)
  end.

Definition PATH_DEPTH : nat := 2048.

Definition rimraf (pathname : Path) (recursive : option bool) : prog (Result unit) :=
  rimraf_body promise_all PATH_DEPTH pathname recursive.

Definition rimrafSync (pathname : Path) (recursive : option bool) : prog (Result unit) :=
  rimraf_body for_each PATH_DEPTH pathname recursive.

End core.

(** ** fs/binary.ts *)

Module fsbin.
Section WithEnv.
Variable env : Codec.Env.

(** The block
    [if(mask) { const output = Buffer.alloc(buffer.length);
                maskBuffer(buffer, chunkToBuffer(mask), output, 0,
                  buffer.length, { avoidBufferUtils: true, pad: true });
                buffer = output; }]
    of the three write functions. *)
Definition masked (buffer : Buffer) (mask : option K) : Result Buffer :=
  match mask with
  | Some m =>
      if K_truthy m then
        match chunkToBuffer m with
        | Ok key =>
            Ok (Codec.mask env buffer key (alloc (length buffer)) 0
                  (byteLength buffer)
                  {| Codec.avoidBufferUtils := Some true; Codec.pad := Some true |})
        | Throw e => Throw e
        end
      else Ok buffer
  | None => Ok buffer
  end.

(** How a promise whose token listener calls
    [reject(new Exception(.., 'ERR_TOKEN_CANCELED'))] settles on the result
    [r] of its signal-aware call: the token fired first when the call was
    aborted. *)
Definition settle {A : Type} (token : option CancellationToken) (r : Result A)
    : Result A :=
  match token, r with
  | Some _, Throw err =>
      if has_code err "ABORT_ERR" then Throw (Exception ERR_TOKEN_CANCELED)
      else Throw err
  | _, _ => r
  end.

Definition writeBinary (filepath : Path) (contents : K) (mask : option K)
    (token : option CancellationToken) : prog (Result unit) :=
  if cancellation.cancelled token then Ret (Throw (Exception ERR_TOKEN_CANCELED))
  else
    match chunkToBuffer contents with
    | Throw e => Ret (Throw e)
    | Ok buffer =>
        match masked buffer mask with
        | Throw e => Ret (Throw e)
        | Ok buffer =>
            r ← call (WriteFile filepath buffer);
            Ret (settle token r)
        end
    end.

Definition writeBinarySync (filepath : Path) (contents : K) (mask : option K)
    : prog (Result unit) :=
  match chunkToBuffer contents with
  | Throw e => Ret (Throw e)
  | Ok buffer =>
      match masked buffer mask with
      | Throw e => Ret (Throw e)
      | Ok buffer => call (WriteFile filepath buffer)
      end
  end.

(** [for await (const chunk of content) { ... }] of [writeBinaryStream], with
    [writtenBytes] so far; a throw inside the loop is caught and rejects the
    promise, and the stream is then not ended. *)
Fixpoint write_chunks (filepath : Path) (content : list K) (mask : option K)
    (writtenBytes : Z) : prog (Result Z) :=
  match content with
  | [] => Ret (Ok writtenBytes)
  | chunk :: rest =>
      match chunkToBuffer chunk with
      | Throw e => Ret (Throw e)
      | Ok buffer =>
          match masked buffer mask with
          | Throw e => Ret (Throw e)
          | Ok buffer =>
              ok ← call (StreamWrite filepath buffer);
              if ok : bool then
                write_chunks filepath rest mask (writtenBytes + byteLength buffer)
              else
                d ← call (StreamDrain filepath);
                match d with
                | Throw e => Ret (Throw e)
                | Ok _ =>
                    write_chunks filepath rest mask
                      (writtenBytes + byteLength buffer)
                end
          end
      end
  end.

(** [writeBinaryStream(filepath, content, mask, token)]; [content] is the
    finite sequence of chunks the iterable yields.  There is no check of the
    token before the stream is opened: on a token that is already cancelled
    the listener rejects at registration and the body still runs. *)
Definition writeBinaryStream (filepath : Path) (content : list K)
    (mask : option K) (token : option CancellationToken) : prog (Result Z) :=
  _ ← call (CreateWriteStream filepath);
  r ← write_chunks filepath content mask 0;
  r ← match r with
      | Throw e => Ret (Throw e)
      | Ok writtenBytes =>
          _ ← call (StreamEnd filepath);
          f ← call (StreamFinish filepath);
          Ret (match f with
               | Ok _ => Ok writtenBytes
               | Throw e => Throw e
               end)
      end;
  Ret (if cancellation.cancelled token then Throw (Exception ERR_TOKEN_CANCELED)
       else settle token r).

End WithEnv.
End fsbin.

(** ** fs/temp.ts *)

Module TemporaryDirectory.

Record TempState := {
  pathname : Path;
  maxSize : Z;
  sizeof : Z;
  disposed : bool
}.

(** An instance: [#state] and [#source] ([None] is [null]). *)
Record t := {
  state : TempState;
  source : option CancellationTokenSource
}.

Record TempOptions := { opt_maxSize : option Z }.

Definition set_sizeof (v : Z) (this : t) : t :=
  {| state := {| pathname := pathname (state this);
                 maxSize := maxSize (state this);
                 sizeof := v;
                 disposed := disposed (state this) |};
     source := source this |}.

Definition set_disposed (v : bool) (this : t) : t :=
  {| state := {| pathname := pathname (state this);
                 maxSize := maxSize (state this);
                 sizeof := sizeof (state this);
                 disposed := v |};
     source := source this |}.

Definition set_source (s : option CancellationTokenSource) (this : t) : t :=
  {| state := state this; source := s |}.

(** [new TemporaryDirectory(pathname, sizeof, _msize)]:
    [maxSize: _msize || 4 * 1024 * 1024 * 1024]. *)
Definition new (pathname : Path) (sizeof : Z) (_msize : option Z) : t :=
  {| state := {| pathname := pathname;
                 maxSize := match _msize with
                            | Some m => if m =? 0 then 4 * 1024 * 1024 * 1024 else m
                            | None => 4 * 1024 * 1024 * 1024
                            end;
                 sizeof := sizeof;
                 disposed := false |};
     source := Some cancellation.new_source |}.

(** [tempdir()]. *)
Definition tempdir : prog (Result Path) :=
  tmp ← call OsTmpdir;
  let pathname := path_join tmp ["_"%string] in
  r ← core.ensureDirSync pathname;
  Ret (match r with Ok _ => Ok pathname | Throw e => Throw e end).

(** The first argument of [create]: a path or the options. *)
Inductive PathOrOptions :=
| APath (p : Path)
| AOptions (o : TempOptions).

(** [TemporaryDirectory.create(pathnameOrOptions?, options?)]; [maxSize] is
    read from the second argument only. *)
Definition create (pathnameOrOptions : option PathOrOptions)
    (options : option TempOptions) : prog (Result t) :=
  p ← match pathnameOrOptions with
      | Some (APath p) => Ret (Ok p)
      | _ =>
          d ← tempdir;
          match d with
          | Throw e => Ret (Throw e)
          | Ok d => u ← call Uuid; Ret (Ok (path_join d [u]))
          end
      end;
  match p with
  | Throw e => Ret (Throw e)
  | Ok pathname =>
      r ← core.ensureDir pathname;
      match r with
      | Throw e => Ret (Throw e)
      | Ok _ =>
          s ← call (Stat pathname);
          match s with
          | Throw e => Ret (Throw e)
          | Ok stat =>
              Ret (Ok (new pathname (Z.of_N (size stat))
                         (match options with
                          | Some o => opt_maxSize o
                          | None => None
                          end)))
          end
      end
  end.


(** A method returns or throws, and leaves the instance in a state. *)
Definition method : Type := prog (Result unit * t).

(** The default [token = this.#source.token] of a parameter the caller
    left out; on a null [#source] the read throws. *)
Definition default_token (this : t) (token : option CancellationToken)
    : Result CancellationToken :=
  match token with
  | Some tok => Ok tok
  | None =>
      match source this with
      | Some s => Ok (cancellation.token s)
      | None => Throw TypeError
      end
  end.

Section WithEnv.
Variable env : Codec.Env.

Definition write (this : t) (filename : Path) (contents : K) : method :=
  match chunkToBuffer contents with
  | Throw e => Ret (Throw e, this)
  | Ok buffer =>
      if sizeof (state this) + byteLength buffer >? maxSize (state this)
      then Ret (Throw (Exception ERR_BUFFER_OVERFLOW), this)
      else
        r ← call (WriteFile (path_join (pathname (state this)) filename) buffer);
        match r with
        | Throw e => Ret (Throw e, this)
        | Ok _ =>
            Ret (Ok tt, set_sizeof (sizeof (state this) + byteLength buffer) this)
        end
  end.

Definition writeSync (this : t) (filename : Path) (contents : K) : method :=
  match chunkToBuffer contents with
  | Throw e => Ret (Throw e, this)
  | Ok buffer =>
      if sizeof (state this) + byteLength buffer >? maxSize (state this)
      then Ret (Throw (Exception ERR_BUFFER_OVERFLOW), this)
      else
        r ← call (WriteFile (path_join (pathname (state this)) filename) buffer);
        match r with
        | Throw e => Ret (Throw e, this)
        | Ok _ =>
            Ret (Ok tt, set_sizeof (sizeof (state this) + byteLength buffer) this)
        end
  end.

Definition append (this : t) (filename : Path) (contents : K) : method :=
  match chunkToBuffer contents with
  | Throw e => Ret (Throw e, this)
  | Ok buffer =>
      if sizeof (state this) + byteLength buffer >? maxSize (state this)
      then Ret (Throw (Exception ERR_BUFFER_OVERFLOW), this)
      else
        r ← call (AppendFile (path_join (pathname (state this)) filename) buffer);
        match r with
        | Throw e => Ret (Throw e, this)
        | Ok _ =>
            Ret (Ok tt, set_sizeof (sizeof (state this) + byteLength buffer) this)
        end
  end.

Definition appendSync (this : t) (filename : Path) (contents : K) : method :=
  match chunkToBuffer contents with
  | Throw e => Ret (Throw e, this)
  | Ok buffer =>
      if sizeof (state this) + byteLength buffer >? maxSize (state this)
      then Ret (Throw (Exception ERR_BUFFER_OVERFLOW), this)
      else
        r ← call (AppendFile (path_join (pathname (state this)) filename) buffer);
        match r with
        | Throw e => Ret (Throw e, this)
        | Ok _ =>
            Ret (Ok tt, set_sizeof (sizeof (state this) + byteLength buffer) this)
        end
  end.

(** The [catch] block of [writeBinary] and [writeBinaryStream]:
    on a cancellation with [options?.removeOnError] the file is unlinked
    (a missing file is tolerated), then [err] is thrown again. *)
Definition remove_on_error (this : t) (filename : Path) (removeOnError : bool)
    (err : Error) : method :=
  if isKnownError err ERR_TOKEN_CANCELED && removeOnError then
    u ← call (Unlink (path_join (pathname (state this)) filename));
    match u with
    | Throw fsErr =>
        if negb (has_code fsErr "ENOENT") then Ret (Throw fsErr, this)
        else Ret (Throw err, this)
    | Ok _ => Ret (Throw err, this)
    end
  else Ret (Throw err, this).

Definition writeBinary (this : t) (filename : Path) (contents : K)
    (mask : option K) (token : option CancellationToken)
    (removeOnError : bool) : method :=
  match default_token this token with
  | Throw e => Ret (Throw e, this)
  | Ok token =>
      r ← match chunkToBuffer contents with
          | Throw e => Ret (Throw e, this)
          | Ok buffer =>
              if sizeof (state this) + byteLength buffer >? maxSize (state this)
              then Ret (Throw (Exception ERR_BUFFER_OVERFLOW), this)
              else
                w ← fsbin.writeBinary env
                      (path_join (pathname (state this)) filename)
                      contents mask (Some token);
                match w with
                | Throw e => Ret (Throw e, this)
                | Ok _ =>
                    match chunkToBuffer contents with
                    | Throw e => Ret (Throw e, this)
                    | Ok b =>
                        Ret (Ok tt, set_sizeof (sizeof (state this) + byteLength b) this)
                    end
                end
          end;
      match r with
      | (Throw err, this) => remove_on_error this filename removeOnError err
      | (Ok _, this) => Ret (Ok tt, this)
      end
  end.

Definition writeBinarySync (this : t) (filename : Path) (contents : K)
    (mask : option K) : method :=
  match chunkToBuffer contents with
  | Throw e => Ret (Throw e, this)
  | Ok buffer =>
      if sizeof (state this) + byteLength buffer >? maxSize (state this)
      then Ret (Throw (Exception ERR_BUFFER_OVERFLOW), this)
      else
        w ← fsbin.writeBinarySync env
              (path_join (pathname (state this)) filename) contents mask;
        match w with
        | Throw e => Ret (Throw e, this)
        | Ok _ =>
            match chunkToBuffer contents with
            | Throw e => Ret (Throw e, this)
            | Ok b =>
                Ret (Ok tt, set_sizeof (sizeof (state this) + byteLength b) this)
            end
        end
  end.

Definition writeBinaryStream (this : t) (filename : Path) (content : list K)
    (mask : option K) (token : option CancellationToken)
    (removeOnError : bool) : method :=
  match default_token this token with
  | Throw e => Ret (Throw e, this)
  | Ok token =>
      let filepath := path_join (pathname (state this)) filename in
      r ← (w ← fsbin.writeBinaryStream env filepath content mask (Some token);
           match w with
           | Throw e => Ret (Throw e, this)
           | Ok writtenBytes =>
               if sizeof (state this) + writtenBytes >? maxSize (state this)
               then
                 d ← core.rimraf filepath None;
                 match d with
                 | Throw e => Ret (Throw e, this)
                 | Ok _ => Ret (Throw (Exception ERR_BUFFER_OVERFLOW), this)
                 end
               else
                 Ret (Ok tt, set_sizeof (sizeof (state this) + writtenBytes) this)
           end);
      match r with
      | (Throw err, this) => remove_on_error this filename removeOnError err
      | (Ok _, this) => Ret (Ok tt, this)
      end
  end.

(** [catch (err) { if(err.code === 'ENOENT') throw new Exception(..,
    'ERR_RESOURCE_NOT_FOUND'); throw err; }] *)
Definition not_found (err : Error) : Error :=
  if has_code err "ENOENT" then Exception ERR_RESOURCE_NOT_FOUND else err.

Definition remove (this : t) (filename : Path) : method :=
  let filepath := path_join (pathname (state this)) filename in
  s ← call (Stat filepath);
  match s with
  | Throw err => Ret (Throw (not_found err), this)
  | Ok stat =>
      d ← core.rimraf filepath (Some true);
      match d with
      | Throw err => Ret (Throw (not_found err), this)
      | Ok _ =>
          Ret (Ok tt, set_sizeof (sizeof (state this) - Z.of_N (size stat)) this)
      end
  end.

Definition removeSync (this : t) (filename : Path) : method :=
  let filepath := path_join (pathname (state this)) filename in
  s ← call (Stat filepath);
  match s with
  | Throw err => Ret (Throw (not_found err), this)
  | Ok stat =>
      d ← core.rimrafSync filepath (Some true);
      match d with
      | Throw err => Ret (Throw (not_found err), this)
      | Ok _ =>
          Ret (Ok tt, set_sizeof (sizeof (state this) - Z.of_N (size stat)) this)
      end
  end.

Definition clear (this : t) : method :=
  d ← core.rimraf (pathname (state this)) (Some true);
  match d with
  | Throw e => Ret (Throw e, this)
  | Ok _ =>
      r ← core.ensureDir (pathname (state this));
      match r with
      | Throw e => Ret (Throw e, this)
      | Ok _ => Ret (Ok tt, set_sizeof 0 this)
      end
  end.

Definition clearSync (this : t) : method :=
  d ← core.rimrafSync (pathname (state this)) (Some true);
  match d with
  | Throw e => Ret (Throw e, this)
  | Ok _ =>
      r ← core.ensureDirSync (pathname (state this));
      match r with
      | Throw e => Ret (Throw e, this)
      | Ok _ => Ret (Ok tt, set_sizeof 0 this)
      end
  end.

Definition rename (this : t) (oldName newName : Path) : method :=
  let oldPath := path_join (pathname (state this)) oldName in
  let newPath := path_join (pathname (state this)) newName in
  r ← call (Rename oldPath newPath);
  Ret (r, this).

Definition renameSync (this : t) (oldName newName : Path) : method :=
  let oldPath := path_join (pathname (state this)) oldName in
  let newPath := path_join (pathname (state this)) newName in
  r ← call (Rename oldPath newPath);
  Ret (r, this).

Definition copy (this : t) (source destination : Path) : method :=
  let srcPath := path_join (pathname (state this)) source in
  let destPath := path_join (pathname (state this)) destination in
  r ← call (CopyFile srcPath destPath);
  Ret (r, this).

Definition copySync (this : t) (source destination : Path) : method :=
  let srcPath := path_join (pathname (state this)) source in
  let destPath := path_join (pathname (state this)) destination in
  r ← call (CopyFile srcPath destPath);
  Ret (r, this).

Definition createSubdirectory (this : t) (name : Path) : method :=
  let dirPath := path_join (pathname (state this)) name in
  r ← core.ensureDir dirPath;
  Ret (r, this).

Definition createSubdirectorySync (this : t) (name : Path) : method :=
  let dirPath := path_join (pathname (state this)) name in
  r ← core.ensureDirSync dirPath;
  Ret (r, this).

(** [dispose()].  [this.#source.cancel()] runs the listener the constructor
    registered, which installs a new source; the next statement sets
    [#source] to null. *)
Definition dispose (this : t) : method :=
  if disposed (state this) then Ret (Ok tt, this)
  else
    match source this with
    | None => Ret (Throw TypeError, this)
    | Some _ =>
        let this := set_source (Some cancellation.new_source) this in
        let this := set_source None this in
        d ← core.rimrafSync (pathname (state this)) (Some true);
        match d with
        | Throw e => Ret (Throw e, this)
        | Ok _ => Ret (Ok tt, set_disposed true (set_sizeof 0 this))
        end
    end.

End WithEnv.
End TemporaryDirectory.

(** ** An in-memory file system

    One environment the programs can run in: a tree of directories and
    files, without symbolic links, permissions or faults.  It answers every
    call the way a POSIX file system does on such a tree, and is used to run
    the code on concrete inputs. *)

Module memfs.

Inductive Node :=
| File (data : Buffer)
| Dir.

Record World := {
  nodes : gmap Path Node;
  dir_size : N;            (* the size [stat] reports for a directory *)
  highWaterMark : N;       (* [stream.write] answers false from that many bytes *)
  clock : Z
}.

Definition with_nodes (m : gmap Path Node) (w : World) : World :=
  {| nodes := m; dir_size := dir_size w;
     highWaterMark := highWaterMark w; clock := clock w |}.

Definition ENOENT {A : Type} : Result A := Throw (SystemError "ENOENT").

Definition parent (p : Path) : Path := removelast p.

Definition stat_of (w : World) (p : Path) : Result Stats :=
  match nodes w !! p with
  | Some (File data) =>
      Ok {| size := N.of_nat (length data); isDirectory := false;
            isSymbolicLink := false |}
  | Some Dir =>
      Ok {| size := dir_size w; isDirectory := true; isSymbolicLink := false |}
  | None => ENOENT
  end.

(** The names of the entries of directory [p]. *)
Definition children (m : gmap Path Node) (p : Path) : list string :=
  omap (fun '(k, _) =>
          match last k with
          | Some name => if decide (parent k = p) then Some name else None
          | None => None
          end) (map_to_list m).

(** [mkdir -p]: every prefix of the path becomes a directory. *)
Fixpoint mkdirp (done rest : Path) (m : gmap Path Node)
    : Result (gmap Path Node) :=
  match m !! done with
  | Some (File _) => Throw (SystemError "ENOTDIR")
  | _ =>
      let m' := <[done := Dir]> m in
      match rest with
      | [] => Ok m'
      | s :: rest' => mkdirp (done ++ [s]) rest' m'
      end
  end.

(** Where a file may be created or replaced. *)
Definition writable (m : gmap Path Node) (p : Path) : Result unit :=
  match m !! p with
  | Some Dir => Throw (SystemError "EISDIR")
  | _ =>
      match m !! parent p with
      | Some Dir => Ok tt
      | Some (File _) => Throw (SystemError "ENOTDIR")
      | None => ENOENT
      end
  end.

Definition file_data (m : gmap Path Node) (p : Path) : Buffer :=
  match m !! p with
  | Some (File data) => data
  | _ => []
  end.

Definition put (w : World) (p : Path) (data : Buffer) : Result unit * World :=
  match writable (nodes w) p with
  | Ok _ => (Ok tt, with_nodes (<[p := File data]> (nodes w)) w)
  | Throw e => (Throw e, w)
  end.

Definition run : handler World :=
  fun X e =>
    match e in fsE X return World -> X * World with
    | Stat p => fun w => (stat_of w p, w)
    | Lstat p => fun w => (stat_of w p, w)
    | Readdir p => fun w =>
        match nodes w !! p with
        | Some Dir => (Ok (children (nodes w) p), w)
        | Some (File _) => (Throw (SystemError "ENOTDIR"), w)
        | None => (ENOENT, w)
        end
    | Mkdir p => fun w =>
        match mkdirp [] p (nodes w) with
        | Ok m => (Ok tt, with_nodes m w)
        | Throw e => (Throw e, w)
        end
    | Rmdir p => fun w =>
        match nodes w !! p with
        | Some Dir =>
            match children (nodes w) p with
            | [] => (Ok tt, with_nodes (delete p (nodes w)) w)
            | _ :: _ => (Throw (SystemError "ENOTEMPTY"), w)
            end
        | Some (File _) => (Throw (SystemError "ENOTDIR"), w)
        | None => (ENOENT, w)
        end
    | Unlink p => fun w =>
        match nodes w !! p with
        | Some (File _) => (Ok tt, with_nodes (delete p (nodes w)) w)
        | Some Dir => (Throw (SystemError "EISDIR"), w)
        | None => (ENOENT, w)
        end
    | WriteFile p data => fun w => put w p data
    | AppendFile p data => fun w => put w p (file_data (nodes w) p ++ data)
    | Rename p q => fun w =>
        match nodes w !! p with
        | Some (File data) =>
            match writable (nodes w) q with
            | Ok _ => (Ok tt, with_nodes (<[q := File data]> (delete p (nodes w))) w)
            | Throw e => (Throw e, w)
            end
        | Some Dir => (Throw (SystemError "ENOTSUP"), w)
        | None => (ENOENT, w)
        end
    | CopyFile p q => fun w =>
        match nodes w !! p with
        | Some (File data) => put w q data
        | Some Dir => (Throw (SystemError "EISDIR"), w)
        | None => (ENOENT, w)
        end
    | ExistsSync p => fun w => (bool_decide (is_Some (nodes w !! p)), w)
    | CreateWriteStream p => fun w => (tt, snd (put w p []))
    | StreamWrite p data => fun w =>
        ((N.of_nat (length data) <? highWaterMark w)%N,
         match nodes w !! p with
         | Some (File old) => with_nodes (<[p := File (old ++ data)]> (nodes w)) w
         | _ => w
         end)
    | StreamDrain p => fun w =>
        (match nodes w !! p with Some (File _) => Ok tt | _ => ENOENT end, w)
    | StreamEnd p => fun w => (tt, w)
    | StreamFinish p => fun w =>
        (match nodes w !! p with Some (File _) => Ok tt | _ => ENOENT end, w)
    | ReadStream p => fun w =>
        (match nodes w !! p with
         | Some (File data) => {| chunks := [data]; failure := None |}
         | Some Dir => {| chunks := []; failure := Some (SystemError "EISDIR") |}
         | None => {| chunks := []; failure := Some (SystemError "ENOENT") |}
         end, w)
    | HttpGet url => fun w => (Throw (SystemError "ECONNREFUSED"), w)
    | OsTmpdir => fun w => (["tmp"%string], w)
    | Uuid => fun w => ("00000000-0000-4000-8000-000000000000"%string, w)
    | Timestamp => fun w =>
        (clock w,
         {| nodes := nodes w; dir_size := dir_size w;
            highWaterMark := highWaterMark w; clock := clock w + 1 |})
    | Deadline _ => fun w => (false, w)
    | DispatchProgress _ _ => fun w => (tt, w)
    | ConsoleLog => fun w => (tt, w)
    end.

(** A disk holding only the root directory; directories report [d] bytes. *)
Definition empty_disk (d : N) : World :=
  {| nodes := {[ [] := Dir ]}; dir_size := d; highWaterMark := 16384; clock := 0 |}.

End memfs.

(** ** DownloadService *)

Module DownloadService.

Record DownloadOptions := {
  destination : option string;       (* string | URI, as [toString()] gives it *)
  token : option CancellationToken;
  timeout : option Z
}.

(** The second argument of the constructor. *)
Inductive DestinationOrOptions :=
| AString (s : string)               (* typeof === 'string' *)
| AURI (s : string)                  (* instanceof URI; [s] is its [toString()] *)
| AOptions (o : DownloadOptions).

Record Metadata := {
  source : string;
  m_destination : string;
  options : DownloadOptions;
  startAt : option Z;
  finishedAt : option Z;
  bufferLength : Z;
  totalLength : Z;
  readedSize : Z
}.

(** An instance: [#source] and [#metadata]. *)
Record t := {
  cts : CancellationTokenSource;
  metadata : Metadata
}.

(** Truthiness of an optional string: [undefined] and [''] are falsy. *)
Definition truthy_string (s : option string) : option string :=
  match s with
  | Some EmptyString => None
  | other => other
  end.

(** Truthiness of an optional number. *)
Definition truthy_number (n : option Z) : option Z :=
  match n with
  | Some 0 => None
  | other => other
  end.

Definition no_options : DownloadOptions :=
  {| destination := None; token := None; timeout := None |}.

(** [new DownloadService(resource, destinationOrOptions, options?)].
    Modelled from the spec: the uri module is not under src/; the locator is
    kept as the string [URI.parse(resource).toString(true)] stands for. *)
Definition new (resource : string) (destinationOrOptions : DestinationOrOptions)
    (options : option DownloadOptions) : Result t :=
  let destination :=
    match destinationOrOptions with
    | AString s | AURI s => Ok (Some s)
    | AOptions _ =>
        (* options?.destination.toString() *)
        match options with
        | Some o =>
            match destination o with
            | Some d => Ok (Some d)
            | None => Throw TypeError
            end
        | None => Ok None
        end
    end in
  match destination with
  | Throw e => Throw e
  | Ok destination =>
      match truthy_string destination with
      | None => Throw (Exception ERR_INVALID_ARGUMENT)
      | Some destination =>
          let o := match destinationOrOptions with
                   | AString _ | AURI _ => options
                   | AOptions o => Some o
                   end in
          if cancellation.cancelled (o ≫= token)
          then Throw (Exception ERR_TOKEN_CANCELED)
          else
            Ok {| cts := cancellation.child_source (o ≫= token);
                  metadata := {| source := resource;
                                 m_destination := destination;
                                 options := default no_options o;
                                 startAt := None;
                                 finishedAt := None;
                                 bufferLength := 0;
                                 totalLength := 0;
                                 readedSize := 0 |} |}
      end
  end.

Definition with_cts (s : CancellationTokenSource) (this : t) : t :=
  {| cts := s; metadata := metadata this |}.

Definition with_transfer (start finish : option Z) (buffer total readed : Z)
    (this : t) : t :=
  {| cts := cts this;
     metadata := {| source := source (metadata this);
                    m_destination := m_destination (metadata this);
                    options := options (metadata this);
                    startAt := start;
                    finishedAt := finish;
                    bufferLength := buffer;
                    totalLength := total;
                    readedSize := readed |} |}.

(** [s.startsWith(prefix)]. *)
Definition startsWith (prefix s : string) : bool := String.prefix prefix s.

(** [s.replace(/^file:\/\//, '')]. *)
Definition strip_file_scheme (s : string) : string :=
  if String.prefix "file://" s then String.substring 7 (String.length s - 7) s
  else s.

(** The segments of a path given as a string. *)
Fixpoint split_path_aux (s : string) (segment : string) : Path :=
  match s with
  | EmptyString =>
      match segment with EmptyString => [] | _ => [String.rev segment] end
  | String c rest =>
      if Ascii.eqb c (Ascii.ascii_of_nat 47) then
        match segment with
        | EmptyString => split_path_aux rest EmptyString
        | _ => String.rev segment :: split_path_aux rest EmptyString
        end
      else split_path_aux rest (String c segment)
  end.

Definition split_path (s : string) : Path := split_path_aux s EmptyString.

(** The block [if(overrides?.token) { ... }]. *)
Definition install_token (this : t) (overrides : option DownloadOptions)
    : Result t :=
  match overrides ≫= token with
  | Some tok =>
      if cancellation.isCancellationRequested tok
      then Throw (Exception ERR_TOKEN_CANCELED)
      else Ok (with_cts (cancellation.child_source (Some tok)) this)
  | None => Ok this
  end.

(** [overrides?.destination?.toString() || this.#metadata.destination]. *)
Definition destPath_of (this : t) (overrides : option DownloadOptions)
    : option string :=
  match truthy_string (overrides ≫= destination) with
  | Some d => Some d
  | None => truthy_string (Some (m_destination (metadata this)))
  end.

(** [hasTimeout], and [overrides?.timeout || this.#metadata.options.timeout]. *)
Definition hasTimeout (this : t) (overrides : option DownloadOptions) : bool :=
  match timeout (options (metadata this)) with
  | Some n => 2 <? n
  | None => false
  end ||
  match overrides ≫= timeout with
  | Some n => 2 <? n
  | None => false
  end.

Definition time_of (this : t) (overrides : option DownloadOptions) : option Z :=
  match truthy_number (overrides ≫= timeout) with
  | Some n => Some n
  | None => truthy_number (timeout (options (metadata this)))
  end.

(** The listener [_exec] registers on [this.#source.token], run at
    registration when the token is already cancelled: the destination file
    is unlinked if it exists.  The result is what the listener throws. *)
Definition cancel_listener (destPath : Path) : prog (Result unit) :=
  e ← call (ExistsSync destPath);
  if e : bool then
    u ← call (Unlink destPath);
    Ret (core.tolerate_ENOENT u)
  else Ret (Ok tt).

(** The ['data'] listener on every chunk of a delivery, writing to the
    destination; [guarded] is the try/catch of the file transfer (without
    it a failed wait for ['drain'] rejects nothing).  Returns the bytes read
    and the length of the last chunk. *)
Fixpoint pump (destPath : Path) (guarded : bool) (chunks : list Buffer)
    (total readed last : Z) : prog (Result (Z * Z)) :=
  match chunks with
  | [] => Ret (Ok (readed, last))
  | buffer :: rest =>
      ok ← call (StreamWrite destPath buffer);
      d ← (if ok : bool then Ret (Ok tt) else call (StreamDrain destPath));
      match d with
      | Throw e =>
          if guarded then Ret (Throw e)
          else pump destPath guarded rest total readed last
      | Ok _ =>
          let readed := readed + byteLength buffer in
          _ ← call (DispatchProgress readed total);
          pump destPath guarded rest total readed (byteLength buffer)
      end
  end.

(** The [_exec] of [#downloadFromFile]; events arrive in the order
    stat, data*, end or error.  A token cancelled before the transfer
    starts has already rejected the promise when the body runs. *)
Definition exec_file (this : t) (destPath : Path) : prog (Result Buffer * t) :=
  let pre := cancellation.isCancellationRequested (cancellation.token (cts this)) in
  let settle (r : Result Buffer) : Result Buffer :=
    if pre then Throw (Exception ERR_TOKEN_CANCELED) else r in
  c ← (if pre then cancel_listener destPath else Ret (Ok tt));
  match c with
  | Throw e => Ret (Throw e, this)
  | Ok _ =>
      ts ← call Timestamp;
      let this := with_transfer (Some ts) (finishedAt (metadata this))
                    (bufferLength (metadata this)) (totalLength (metadata this))
                    (readedSize (metadata this)) this in
      let path := split_path (strip_file_scheme (source (metadata this))) in
      s ← call (Stat path);
      match s with
      | Throw e => Ret (settle (Throw e), this)
      | Ok stat =>
          d ← call (ReadStream path);
          _ ← call (CreateWriteStream destPath);
          let total := Z.of_N (size stat) in
          _ ← call (DispatchProgress 0 total);
          r ← pump destPath true (chunks d) total 0 (bufferLength (metadata this));
          match r with
          | Throw e =>
              Ret (settle (Throw e),
                   with_transfer (Some ts) (finishedAt (metadata this))
                     (bufferLength (metadata this)) total 0 this)
          | Ok (readed, last) =>
              match failure d with
              | Some e =>
                  Ret (settle (Throw e),
                       with_transfer (Some ts) (finishedAt (metadata this))
                         last total readed this)
              | None =>
                  _ ← call (StreamEnd destPath);
                  te ← call Timestamp;
                  Ret (settle (Ok (concat (chunks d))),
                       with_transfer (Some ts) (Some te) last total readed this)
              end
          end
      end
  end.

(** The [_exec] of [download] on a network locator. *)
Definition exec_network (this : t) (destPath : Path) : prog (Result Buffer * t) :=
  let pre := cancellation.isCancellationRequested (cancellation.token (cts this)) in
  let settle (r : Result Buffer) : Result Buffer :=
    if pre then Throw (Exception ERR_TOKEN_CANCELED) else r in
  c ← (if pre then cancel_listener destPath else Ret (Ok tt));
  match c with
  | Throw e => Ret (Throw e, this)
  | Ok _ =>
      ts ← call Timestamp;
      let this := with_transfer (Some ts) (finishedAt (metadata this))
                    (bufferLength (metadata this)) (totalLength (metadata this))
                    (readedSize (metadata this)) this in
      r ← call (HttpGet (source (metadata this)));
      match r with
      | Throw e => Ret (settle (Throw e), this)
      | Ok response =>
          (* ((response.statusCode || 500) / 100 | 0) !== 2 *)
          if negb (Z.quot (default 500 (truthy_number (statusCode response))) 100 =? 2)
          then Ret (settle (Throw (Exception ERR_HTTP_FAILURE)), this)
          else
            let total := default 0 (content_length response) in
            _ ← call (CreateWriteStream destPath);
            p ← pump destPath false (chunks (body response)) total
                  (readedSize (metadata this)) (bufferLength (metadata this));
            match p with
            | Throw e => Ret (settle (Throw e), this)
            | Ok (readed, last) =>
                let this := with_transfer (Some ts) (finishedAt (metadata this))
                              last total readed this in
                match failure (body response) with
                | Some e => Ret (settle (Throw e), this)
                | None =>
                    _ ← call (StreamEnd destPath);
                    Ret (settle (Ok (concat (chunks (body response)))), this)
                end
            end
      end
  end.

(** The tail shared by [download] and [#downloadFromFile]: the transfer,
    raced against a deadline when a timeout above 2 is configured. *)
Definition with_timeout (this : t) (overrides : option DownloadOptions)
    (exec : prog (Result Buffer * t)) : prog (Result Buffer * t) :=
  if hasTimeout this overrides then
    match time_of this overrides with
    | None => Ret (Throw AssertionError, this)
    | Some time =>
        (* assertUnsignedInteger(time) *)
        if time <? 0 then Ret (Throw AssertionError, this)
        else
          '(r, this) ← exec;
          late ← call (Deadline time);
          Ret (if late : bool then Throw (Exception ERR_TIMEOUT) else r, this)
    end
  else exec.

Definition downloadFromFile (this : t) (overrides : option DownloadOptions)
    : prog (Result Buffer * t) :=
  if negb (startsWith "file:" (source (metadata this)))
  then Ret (Throw (Exception ERR_UNSUPPORTED_OPERATION), this)
  else
    match install_token this overrides with
    | Throw e => Ret (Throw e, this)
    | Ok this =>
        match destPath_of this overrides with
        | None => Ret (Throw (Exception ERR_INVALID_ARGUMENT), this)
        | Some destPath =>
            with_timeout this overrides (exec_file this (split_path destPath))
        end
    end.

Definition download (this : t) (overrides : option DownloadOptions)
    : prog (Result Buffer * t) :=
  if startsWith "file:" (source (metadata this))
  then downloadFromFile this overrides
  else
    _ ← call ConsoleLog;     (* console.log(this.#metadata) *)
    match install_token this overrides with
    | Throw e => Ret (Throw e, this)
    | Ok this =>
        match destPath_of this overrides with
        | None => Ret (Throw (Exception ERR_INVALID_ARGUMENT), this)
        | Some destPath =>
            with_timeout this overrides (exec_network this (split_path destPath))
        end
    end.

(** [cancel()] and [dispose()]. *)
Definition cancel (this : t) : t := with_cts (cancellation.cancel (cts this)) this.

Definition dispose (this : t) : t := with_cts (cancellation.cancel (cts this)) this.

End DownloadService.

(** ** The operations of a TemporaryDirectory, as data *)

Module ops.
Import TemporaryDirectory.

(** The six buffered writes. *)
Inductive BufferedWrite :=
| Write
| WriteSync
| Append
| AppendSync
| WriteBinary (mask : option K) (token : option CancellationToken)
    (removeOnError : bool)
| WriteBinarySync (mask : option K).

(** The mutating operations. *)
Inductive Mutation :=
| OpBuffered (op : BufferedWrite) (filename : Path) (contents : K)
| OpWriteBinaryStream (filename : Path) (content : list K) (mask : option K)
    (token : option CancellationToken) (removeOnError : bool)
| OpRemove (filename : Path)
| OpRemoveSync (filename : Path)
| OpClear
| OpClearSync
| OpRename (oldName newName : Path)
| OpRenameSync (oldName newName : Path)
| OpCopy (source destination : Path)
| OpCopySync (source destination : Path)
| OpCreateSubdirectory (name : Path)
| OpCreateSubdirectorySync (name : Path)
| OpDispose.

Section WithEnv.
Variable env : Codec.Env.

Definition buffered (op : BufferedWrite) (this : t) (filename : Path)
    (contents : K) : method :=
  match op with
  | Write => write this filename contents
  | WriteSync => writeSync this filename contents
  | Append => append this filename contents
  | AppendSync => appendSync this filename contents
  | WriteBinary mask token removeOnError =>
      writeBinary env this filename contents mask token removeOnError
  | WriteBinarySync mask => writeBinarySync env this filename contents mask
  end.

Definition invoke (m : Mutation) (this : t) : method :=
  match m with
  | OpBuffered op filename contents => buffered op this filename contents
  | OpWriteBinaryStream filename content mask token removeOnError =>
      writeBinaryStream env this filename content mask token removeOnError
  | OpRemove filename => remove this filename
  | OpRemoveSync filename => removeSync this filename
  | OpClear => clear this
  | OpClearSync => clearSync this
  | OpRename oldName newName => rename this oldName newName
  | OpRenameSync oldName newName => renameSync this oldName newName
  | OpCopy source destination => copy this source destination
  | OpCopySync source destination => copySync this source destination
  | OpCreateSubdirectory name => createSubdirectory this name
  | OpCreateSubdirectorySync name => createSubdirectorySync this name
  | OpDispose => dispose this
  end.

(** A sequence of operations, each started when the one before has settled
    (returned or thrown). *)
Fixpoint settle_all {W : Type} (h : handler W) (ms : list Mutation) (this : t)
    (w : W) : t * W :=
  match ms with
  | [] => (this, w)
  | m :: rest =>
      let '((_, this'), w') := interp h (invoke m this) w in
      settle_all h rest this' w'
  end.

(** The call into [fs] that carries the bytes of a buffered write, and the
    bytes it carries. *)
Definition file_write (op : BufferedWrite) (p : Path) (data : Buffer)
    : fsE (Result unit) :=
  match op with
  | Append | AppendSync => AppendFile p data
  | _ => WriteFile p data
  end.

Definition written_data (op : BufferedWrite) (buffer : Buffer) : Result Buffer :=
  match op with
  | WriteBinary mask _ _ | WriteBinarySync mask => fsbin.masked env buffer mask
  | _ => Ok buffer
  end.

End WithEnv.

(** The token of the call can be read: it was passed, or [#source] is not
    null. *)
Definition token_available (this : t) (op : BufferedWrite) : Prop :=
  match op with
  | WriteBinary _ None _ => source this <> None
  | _ => True
  end.

(** The token of the call has not been cancelled. *)
Definition token_live (this : t) (op : BufferedWrite) : Prop :=
  match op with
  | WriteBinary _ token _ =>
      match default_token this token with
      | Ok tok => cancellation.isCancellationRequested tok = false
      | Throw _ => False
      end
  | _ => True
  end.

(** The operations of the ledger claim: the promise-returning [write],
    [append], [writeBinary] and [remove]. *)
Definition ledger_op (m : Mutation) : bool :=
  match m with
  | OpBuffered Write _ _ | OpBuffered Append _ _
  | OpBuffered (WriteBinary _ _ _) _ _ | OpRemove _ => true
  | _ => false
  end.

(** Every [remove] (or [removeSync]) of the run finds an entry no larger
    than the ledger at that time. *)
Fixpoint covered {W : Type} (env : Codec.Env) (h : handler W)
    (ms : list Mutation) (this : t) (w : W) : Prop :=
  match ms with
  | [] => True
  | m :: rest =>
      match m with
      | OpRemove filename | OpRemoveSync filename =>
          match fst (h _ (Stat (path_join (pathname (state this)) filename)) w) with
          | Ok stat => Z.of_N (size stat) <= sizeof (state this)
          | Throw _ => True
          end
      | _ => True
      end /\
      let '((_, this'), w') := interp h (invoke env m this) w in
      covered env h rest this' w'
  end.

(** What one operation does to the instance, whatever the environment
    answers. *)
Inductive outcome (m : Mutation) (this this' : t) : Prop :=
| unchanged : this' = this -> outcome m this this'
| charged (n : Z) :
    0 <= n -> sizeof (state this) + n <= maxSize (state this) ->
    this' = set_sizeof (sizeof (state this) + n) this -> outcome m this this'
| released (filename : Path) (freed : N) :
    m = OpRemove filename \/ m = OpRemoveSync filename ->
    this' = set_sizeof (sizeof (state this) - Z.of_N freed) this ->
    outcome m this this'
| cleared : this' = set_sizeof 0 this -> outcome m this this'
| source_dropped :
    m = OpDispose -> disposed (state this) = false ->
    this' = set_source None this -> outcome m this this'
| disposed_of :
    m = OpDispose -> disposed (state this) = false ->
    this' = set_disposed true (set_sizeof 0 (set_source None this)) ->
    outcome m this this'.

End ops.

(** The buffers handed to [stream.write] during a run, in order. *)
Definition logging {W : Type} (h : handler W) : handler (W * list Buffer) :=
  fun X e '(w, log) =>
    let '(x, w') := h X e w in
    (x, (w', match e with
             | StreamWrite _ data => log ++ [data]
             | _ => log
             end)).

(** ** Concrete inputs *)

Module example.

(** No accelerated backend installed, no environment flag. *)
Definition env : Codec.Env :=
  {| Codec.NO_BUFFER_UTILS := false; Codec.bufferutil := None |}.

Definition cancelled_token : CancellationToken :=
  {| cancellation.isCancellationRequested := true |}.

Definition store : Path := ["tmp"; "store"]%string.

(** A disk with the directory /tmp/store, directories reporting [d] bytes. *)
Definition disk (d : N) : memfs.World :=
  memfs.with_nodes
    (<[store := memfs.Dir]> (<[["tmp"%string] := memfs.Dir]> {[ [] := memfs.Dir ]}))
    (memfs.empty_disk d).

(** The same with a file of seven bytes already in the directory. *)
Definition used_disk (d : N) : memfs.World :=
  memfs.with_nodes
    (<[store ++ ["old"%string] := memfs.File [1; 2; 3; 4; 5; 6; 7]]>
       (memfs.nodes (disk d)))
    (disk d).

(** [TemporaryDirectory.create('/tmp/store', { maxSize })] on a disk, and the
    instance it returns. *)
Definition created (w : memfs.World) (maxSize : Z)
    : Result TemporaryDirectory.t * memfs.World :=
  interp memfs.run
    (TemporaryDirectory.create (Some (TemporaryDirectory.APath store))
       (Some {| TemporaryDirectory.opt_maxSize := Some maxSize |}))
    w.

(** An instance over /tmp/store with a ledger of [sizeof]. *)
Definition instance (sizeof maxSize : Z) : TemporaryDirectory.t :=
  TemporaryDirectory.new store sizeof (Some maxSize).

End example.

(** ** The calls of a run *)

(** The calls made during a run, in order, each with its arguments. *)
Definition traced {W : Type} (h : handler W)
    : handler (W * list {X : Type & fsE X}) :=
  fun X e '(w, calls) =>
    let '(x, w') := h X e w in
    (x, (w', calls ++ [existT X e])).

(** One entry of such a record. *)
Definition called {X : Type} (e : fsE X) : {X : Type & fsE X} := existT X e.

(** A call that ends a write stream or waits for its end. *)
Definition ends_stream (c : {X : Type & fsE X}) : bool :=
  match projT2 c with
  | StreamEnd _ | StreamFinish _ => true
  | _ => false
  end.

(** A call that removes an entry. *)
Definition removes_entry (c : {X : Type & fsE X}) : bool :=
  match projT2 c with
  | Unlink _ | Rmdir _ => true
  | _ => false
  end.

(** Every call a program can make, whatever the calls before it answered,
    satisfies [P]. *)
Fixpoint all_calls {A : Type} (P : {X : Type & fsE X} -> Prop) (m : prog A) : Prop :=
  match m with
  | Ret _ => True
  | Call e k => P (called e) /\ forall x, all_calls P (k x)
  end.

(** A call of [lstat], [readdir], [unlink] or [rmdir] on [root] or on [root]
    extended by names. *)
Definition below (root : Path) (c : {X : Type & fsE X}) : Prop :=
  match projT2 c with
  | Lstat p | Readdir p | Unlink p | Rmdir p => root `prefix_of` p
  | _ => False
  end.

(** A call that changes nothing on the disk. *)
Definition reads_only (c : {X : Type & fsE X}) : bool :=
  match projT2 c with
  | Stat _ | Lstat _ | Readdir _ | ExistsSync _ => true
  | _ => false
  end.

(** The calls of a transfer from a local file, of a transfer over the
    network, and the timer of a race. *)
Definition file_transfer_call (c : {X : Type & fsE X}) : bool :=
  match projT2 c with
  | ExistsSync _ | Unlink _ | Timestamp | Stat _ | ReadStream _
  | CreateWriteStream _ | DispatchProgress _ _ | StreamWrite _ _
  | StreamDrain _ | StreamEnd _ => true
  | _ => false
  end.

Definition network_transfer_call (c : {X : Type & fsE X}) : bool :=
  match projT2 c with
  | ExistsSync _ | Unlink _ | Timestamp | HttpGet _ | ConsoleLog
  | CreateWriteStream _ | DispatchProgress _ _ | StreamWrite _ _
  | StreamDrain _ | StreamEnd _ => true
  | _ => false
  end.

Definition is_network (c : {X : Type & fsE X}) : bool :=
  match projT2 c with
  | HttpGet _ => true
  | _ => false
  end.

Definition is_local_read (c : {X : Type & fsE X}) : bool :=
  match projT2 c with
  | Stat _ | ReadStream _ => true
  | _ => false
  end.

Definition deadline_of (c : {X : Type & fsE X}) : option Z :=
  match projT2 c with
  | Deadline ms => Some ms
  | _ => None
  end.

(** ** fs/core: hasFolders *)

Module folders.

(** The loop [for(const entry of dc)] of [hasFolders]. *)
Fixpoint scan (pathname : Path) (dc : list string) : prog (Result bool) :=
  match dc with
  | [] => Ret (Ok false)
  | entry :: rest =>
      s ← call (Lstat (path_join pathname [entry]));
      match s with
      | Throw err => Ret (Throw err)
      | Ok entryStat =>
          if isDirectory entryStat then Ret (Ok true) else scan pathname rest
      end
  end.

(** [catch (err) { if(err.code !== 'ENOENT') throw err; } return false;] *)
Definition missing_is_false (r : Result bool) : Result bool :=
  match r with
  | Ok b => Ok b
  | Throw err => if has_code err "ENOENT" then Ok false else Throw err
  end.

Definition hasFolders (pathname : Path) : prog (Result bool) :=
  r ← (c ← call (Readdir pathname);
       match c with
       | Throw err => Ret (Throw err)
       | Ok dc => scan pathname dc
       end);
  Ret (missing_is_false r).

Definition hasFoldersSync (pathname : Path) : prog (Result bool) :=
  r ← (c ← call (Readdir pathname);
       match c with
       | Throw err => Ret (Throw err)
       | Ok dc => scan pathname dc
       end);
  Ret (missing_is_false r).

(** What [lstat] says of an entry of [pathname] on the disk [w]. *)
Definition is_folder {W : Type} (h : handler W) (pathname : Path) (w : W)
    (entry : string) : bool :=
  match fst (h _ (Lstat (path_join pathname [entry])) w) with
  | Ok entryStat => isDirectory entryStat
  | Throw _ => false
  end.

(** A directory listing that names an entry already gone: [readdir] answers
    [names], [lstat] answers by [entry]. *)
Definition listing (names : list string) (entry : Path -> Result Stats)
    : handler unit :=
  fun X e =>
    match e in fsE X return unit -> X * unit with
    | Readdir _ => fun w => (Ok names, w)
    | Lstat p => fun w => (entry p, w)
    | e => fun w => (fst (memfs.run _ e (memfs.empty_disk 0)), w)
    end.

(** [lstat] of a directory where the entry d/a has just been removed and
    every other entry is a directory. *)
Definition a_is_gone (p : Path) : Result Stats :=
  if decide (p = ["d"; "a"]%string) then Throw (SystemError "ENOENT")
  else Ok {| size := 0; isDirectory := true; isSymbolicLink := false |}.

End folders.

(** ** fs/binary.ts: reading *)

Module fsread.

(** The index arithmetic of [buffer.subarray(start, end)]: a negative index
    counts from the end, and both are clamped to the buffer. *)
Definition clamp_index (len i : Z) : Z :=
  if i <? 0 then Z.max (len + i) 0 else Z.min i len.

Definition subarray (b : Buffer) (start : Z) (end_ : option Z) : Buffer :=
  let len := byteLength b in
  let first := clamp_index len start in
  let last := match end_ with
              | Some e => clamp_index len e
              | None => len
              end in
  take (Z.to_nat (Z.max (last - first) 0)) (drop (Z.to_nat first) b).

Section WithEnv.
Variable env : Codec.Env.

(** [if(mask) unmaskBuffer(buffer, chunkToBuffer(mask),
      { avoidBufferUtils: true, pad: true })], in place. *)
Definition unmasked (buffer : Buffer) (mask : option K) : Result Buffer :=
  match mask with
  | Some m =>
      if K_truthy m then
        match chunkToBuffer m with
        | Ok key =>
            Ok (Codec.unmask env buffer key
                  {| Codec.avoidBufferUtils := Some true; Codec.pad := Some true |})
        | Throw e => Throw e
        end
      else Ok buffer
  | None => Ok buffer
  end.

(** The three returns of [readBinarySync]. *)
Definition sliceSync (buffer : Buffer) (offset length : option Z) : Buffer :=
  match offset, length with
  | None, None => buffer
  | Some o, None => subarray buffer o None          (* buffer.subarray(offset) *)
  | _, Some l => subarray buffer (default 0 offset) (Some (default 0 offset + l))
  end.

(** [readBinarySync(filepath, mask, offset, length)]; [readFileSync] is the
    call into [fs]. *)
Definition readBinarySync (readFileSync : Path -> Result Buffer)
    (filepath : Path) (mask : option K) (offset length : option Z)
    : Result Buffer :=
  match readFileSync filepath with
  | Throw e => Throw e
  | Ok buffer =>
      match unmasked buffer mask with
      | Throw e => Throw e
      | Ok buffer => Ok (sliceSync buffer offset length)
      end
  end.

(** [readBinary(filepath, mask, offset, length, token)]; [readFile] is the
    call into [fs.promises], given the abort signal of the token. *)
Definition readBinary (readFile : Path -> Result Buffer)
    (filepath : Path) (mask : option K) (offset length : option Z)
    (token : option CancellationToken) : Result Buffer :=
  if cancellation.cancelled token then Throw (Exception ERR_TOKEN_CANCELED)
  else
    match fsbin.settle token (readFile filepath) with
    | Throw e => Throw e
    | Ok buffer =>
        match unmasked buffer mask with
        | Throw e => Throw e
        | Ok buffer =>
            Ok (match offset, length with
                | None, None => buffer
                | _, None => subarray buffer (default 0 offset) None
                | _, Some l =>
                    subarray buffer (default 0 offset) (Some (default 0 offset + l))
                end)
        end
    end.

End WithEnv.
End fsread.

(** ** fs/binary.ts: createBinaryReadStream *)

Module fsstream.

Section WithFs.
(** [fs.createReadStream(path, { signal, start, end })]: the call into
    [fs], by the path and the two positions. *)
Variable createReadStream : Path -> Z -> option Z -> Delivery.


End WithFs.



End fsstream.

(** ** fs/temp.ts: the admission helpers *)

Module admission.
Import TemporaryDirectory.

(** [canWriteBuffer(content)]. *)
Definition canWriteBuffer (this : t) (content : K) : Result bool :=
  match chunkToBuffer content with
  | Throw e => Throw e
  | Ok buffer =>
      Ok (sizeof (state this) + byteLength buffer <=? maxSize (state this))
  end.

(** [truncateWithMaxSize(content, throwOnOverflow = false)]. *)
Definition truncateWithMaxSize (this : t) (content : K)
    (throwOnOverflow : bool) : Result Buffer :=
  match chunkToBuffer content with
  | Throw e => Throw e
  | Ok buffer =>
      if sizeof (state this) + byteLength buffer <=? maxSize (state this)
      then Ok buffer
      else if throwOnOverflow then Throw (Exception ERR_BUFFER_OVERFLOW)
      else Ok (fsread.subarray buffer 0
                 (Some (maxSize (state this) - sizeof (state this))))
  end.

End admission.

(** A disk on which [lstat] is refused: every other call is answered as
    on the in-memory file system. *)
Definition locked : handler memfs.World :=
  fun X e =>
    match e in fsE X return memfs.World -> X * memfs.World with
    | Lstat _ => fun w => (Throw (SystemError "EACCES"), w)
    | e => memfs.run _ e
    end.

(** An instance for /tmp/store/old with the destination /tmp/store/copy and
    the timeout [ms]. *)
Definition downloader (ms : option Z) : DownloadService.t :=
  {| DownloadService.cts := cancellation.new_source;
     DownloadService.metadata :=
       {| DownloadService.source := "file:///tmp/store/old";
          DownloadService.m_destination := "/tmp/store/copy";
          DownloadService.options :=
            {| DownloadService.destination := None;
               DownloadService.token := None;
               DownloadService.timeout := ms |};
          DownloadService.startAt := None;
          DownloadService.finishedAt := None;
          DownloadService.bufferLength := 0;
          DownloadService.totalLength := 0;
          DownloadService.readedSize := 0 |} |}.

(** ** The errors module (src/unnamed/part_001) *)

Module errors.

(** What [ERROR_CODE[key]] holds: the enum maps each name to its number and,
    being a numeric enum, each number (as a key) back to its name.
    Properties inherited from [Object.prototype] are not modelled. *)
Inductive EnumEntry :=
| Number (n : Z)
| Name (s : string).

Definition ERROR_CODE (key : string) : option EnumEntry :=
  if String.eqb key "ERR_UNKNOWN_ERROR" then Some (Number 2)
  else if String.eqb key "ERR_UNWRAP_NONE" then Some (Number 3)
  else if String.eqb key "ERR_INVALID_ARGUMENT" then Some (Number 4)
  else if String.eqb key "ERR_OUT_OF_BOUNDS" then Some (Number 5)
  else if String.eqb key "ERR_INVALID_TYPE" then Some (Number 6)
  else if String.eqb key "ERR_TOKEN_CANCELED" then Some (Number 7)
  else if String.eqb key "ERR_TIMEOUT" then Some (Number 8)
  else if String.eqb key "2" then Some (Name "ERR_UNKNOWN_ERROR")
  else if String.eqb key "3" then Some (Name "ERR_UNWRAP_NONE")
  else if String.eqb key "4" then Some (Name "ERR_INVALID_ARGUMENT")
  else if String.eqb key "5" then Some (Name "ERR_OUT_OF_BOUNDS")
  else if String.eqb key "6" then Some (Name "ERR_INVALID_TYPE")
  else if String.eqb key "7" then Some (Name "ERR_TOKEN_CANCELED")
  else if String.eqb key "8" then Some (Name "ERR_TIMEOUT")
  else None.

(** The numbers among [Object.values(ERROR_CODE)]. *)
Definition enum_numbers : list Z := [2; 3; 4; 5; 6; 7; 8].

Fixpoint maximum (l : list Z) (m : Z) : Z :=
  match l with
  | [] => m
  | x :: rest => maximum rest (Z.max m x)
  end.

Section WithStrings.
(** [s.toUpperCase().trim()]. *)
Variable normalize : string -> string.

(** The loop of [ErrorCode.extend] over [codes], on the module-level table
    [extendedCodes]. *)
Fixpoint extend_loop (codes : list string) (maxValue validCount : Z)
    (extendedCodes : gmap string Z) : gmap string Z :=
  match codes with
  | [] => extendedCodes
  | code :: rest =>
      let currentCode := normalize code in
      (* !!ERROR_CODE[currentCode] || !!extendedCodes[currentCode] *)
      if bool_decide (is_Some (ERROR_CODE currentCode)) ||
         match extendedCodes !! currentCode with
         | Some n => negb (n =? 0)
         | None => false
         end
      then extend_loop rest maxValue validCount extendedCodes
      else
        let absCode := maxValue + validCount + 1 in
        extend_loop rest maxValue (validCount + 1)
          (<[currentCode := absCode]> extendedCodes)
  end.

(** [ErrorCode.extend(codes)]: the table afterwards. *)
Definition extend (codes : list string) (extendedCodes : gmap string Z)
    : gmap string Z :=
  let maxValue :=
    maximum (enum_numbers ++ (snd <$> map_to_list extendedCodes)) 2 in
  extend_loop codes maxValue 0 extendedCodes.

End WithStrings.

(** A table whose codes lie above the built-in ones and name one entry
    each. *)
Definition well_formed (extendedCodes : gmap string Z) : Prop :=
  (forall k n, extendedCodes !! k = Some n -> 8 < n) /\
  (forall k1 k2 n, extendedCodes !! k1 = Some n -> extendedCodes !! k2 = Some n ->
                   k1 = k2).

(** [ErrorCode.for(code).getCode()]: the first of the enum entry, the
    extended code and ERR_UNKNOWN_ERROR that is there, made a number, then
    [-Math.abs]. *)
Definition code_for (extendedCodes : gmap string Z) (code : string) : Z :=
  let ncode :=
    match ERROR_CODE code with
    | Some (Number n) => n
    | Some (Name _) => 2
    | None =>
        match extendedCodes !! code with
        | Some n => if n =? 0 then 2 else n
        | None => 2
        end
    end in
  - Z.abs ncode.

(** The [errorCode] of [new Exception(message, code)] for a code given by
    name. *)
Definition errorCode (extendedCodes : gmap string Z) (code : string) : Z :=
  code_for extendedCodes code.

End errors.

(** ** engines/core/signal.ts: WeakSignal *)

Module WeakSignal.

Inductive SIGNAL := CONTINUE | STOP_PROPAGATION.

#[global] Instance SIGNAL_eq_dec : EqDecision SIGNAL.
Proof. solve_decision. Defined.

(** A listener function, by its identity ([===]). *)
Abbreviation Callback := nat.

(** [#listeners] (a Set of objects made afresh by every [addListener], so it
    is a list in insertion order), [#modifyCount] and [#strict]. *)
Record t := {
  listeners : list Callback;
  modifyCount : Z;
  strict : bool
}.

Definition new (_strict : option bool) : t :=
  {| listeners := []; modifyCount := 0; strict := default false _strict |}.

Definition addListener (callback : Callback) (this : t) : Z * t :=
  (modifyCount this + 1,
   {| listeners := listeners this ++ [callback];
      modifyCount := modifyCount this + 1;
      strict := strict this |}).

(** [arr.findIndex(item => item.callback === listener)]. *)
Fixpoint findIndex (listener : Callback) (arr : list Callback) : option nat :=
  match arr with
  | [] => None
  | callback :: rest =>
      if decide (callback = listener) then Some 0%nat
      else S <$> findIndex listener rest
  end.

Definition removeListener (listener : Callback) (this : t) : Result unit * t :=
  match findIndex listener (listeners this) with
  | None => (Throw (Exception ERR_RESOURCE_NOT_FOUND), this)
  | Some index =>
      (Ok tt,
       {| listeners := delete index (listeners this);
          modifyCount := modifyCount this + 1;
          strict := strict this |})
  end.

Definition clear (this : t) : t :=
  {| listeners := []; modifyCount := modifyCount this + 1; strict := strict this |}.

(** What a listener does when it is called: operations on the signal it is
    registered on, then its return value ([None]: it returns nothing).  A
    dispatch from inside a listener is not modelled. *)
Inductive Op :=
| DoAdd (callback : Callback)
| DoRemove (listener : Callback)
| DoClear.

Record Behaviour := {
  ops : list Op;
  returns : option SIGNAL
}.

Fixpoint run_ops (l : list Op) (this : t) : Result unit * t :=
  match l with
  | [] => (Ok tt, this)
  | DoAdd callback :: rest => run_ops rest (snd (addListener callback this))
  | DoRemove listener :: rest =>
      match removeListener listener this with
      | (Ok _, this) => run_ops rest this
      | (Throw e, this) => (Throw e, this)
      end
  | DoClear :: rest => run_ops rest (clear this)
  end.

Section Dispatch.
Variable behave : Callback -> Behaviour.

(** The loop of [dispatch] over the copy [listeners] taken at its start;
    [called] collects the listeners called so far. *)
Fixpoint dispatch_loop (snapshot : list Callback) (count0 : Z) (this : t)
    (called : list Callback) : Result (option SIGNAL) * t * list Callback :=
  match snapshot with
  | [] => (Ok (if strict this then None else Some CONTINUE), this, called)
  | callback :: rest =>
      let called := called ++ [callback] in
      match run_ops (ops (behave callback)) this with
      | (Throw e, this) => (Throw e, this, called)
      | (Ok _, this) =>
          if decide (returns (behave callback) = Some STOP_PROPAGATION)
          then (Ok (Some STOP_PROPAGATION), this, called)
          else if decide (count0 = modifyCount this)
               then dispatch_loop rest count0 this called
               else (Ok (Some STOP_PROPAGATION), this, called)
      end
  end.

Definition dispatch (this : t) : Result (option SIGNAL) * t * list Callback :=
  dispatch_loop (listeners this) (modifyCount this) this [].

(** A listener that leaves the signal alone and does not stop the
    propagation. *)
Definition quiet (callback : Callback) : Prop :=
  ops (behave callback) = [] /\ returns (behave callback) <> Some STOP_PROPAGATION.

End Dispatch.

(** Listener 1 returns nothing, listener 2 registers listener 3 and returns
    CONTINUE, listener 3 returns nothing. *)
Definition chatty (callback : Callback) : Behaviour :=
  match callback with
  | 2%nat => {| ops := [DoAdd 3%nat]; returns := Some CONTINUE |}
  | _ => {| ops := []; returns := None |}
  end.

End WeakSignal.

(** ** Object utilities (src/unnamed/part_003) *)

Module object.
Section WithValues.
Context {V : Type}.


(** [exclude(obj, ...keys)] on a plain object. *)
Definition exclude (obj : gmap string V) (keys : list string) : gmap string V :=
  foldl (fun o key => if decide (is_Some (o !! key)) then delete key o else o)
    obj keys.

End WithValues.


End object.

(* ===================================================================== *)
(** * Theorems *)
(* ===================================================================== *)

(** ** Bytes *)

Lemma is_byteb_spec x : is_byteb x = true <-> is_byte x.
Proof. unfold is_byteb, is_byte. rewrite andb_true_iff, Z.leb_le, Z.ltb_lt. tauto. Qed.

Lemma is_bufferb_spec b : is_bufferb b = true <-> is_buffer b.
Proof.
  unfold is_bufferb, is_buffer. rewrite forallb_forall, Forall_forall.
  split; intros H x Hx; apply is_byteb_spec, H; [by apply list_elem_of_In | by apply list_elem_of_In].
Qed.

Lemma ToUint8_byte x : is_byte x -> ToUint8 x = x.
Proof. intros H. unfold ToUint8. apply Z.mod_small. exact H. Qed.

Lemma lxor_byte a b : is_byte a -> is_byte b -> is_byte (Z.lxor a b).
Proof.
  intros [Ha0 Ha] [Hb0 Hb]. unfold is_byte.
  assert (H0 : 0 <= Z.lxor a b) by (apply Z.lxor_nonneg; lia).
  split; [exact H0 |].
  destruct (Z.eq_dec (Z.lxor a b) 0) as [-> | Hne]; [lia |].
  change 256 with (2 ^ 8). apply Z.log2_lt_pow2; [lia |].
  eapply Z.le_lt_trans; [apply Z.log2_lxor; lia |].
  apply Z.max_lub_lt.
  - destruct (Z.eq_dec a 0) as [-> | ?]; [simpl; lia |]. apply Z.log2_lt_pow2; lia.
  - destruct (Z.eq_dec b 0) as [-> | ?]; [simpl; lia |]. apply Z.log2_lt_pow2; lia.
Qed.

Lemma byte_at_byte b i : is_buffer b -> is_byte (byte_at b i).
Proof.
  intros Hb. unfold byte_at. destruct (i <? 0); [unfold is_byte; lia |].
  destruct (b !! Z.to_nat i) as [x |] eqn:E; simpl; [| unfold is_byte; lia].
  eapply Forall_lookup_1; eauto.
Qed.

Lemma byte_at_lookup (b : Buffer) (p : nat) x : b !! p = Some x -> byte_at b (Z.of_nat p) = x.
Proof.
  intros H. unfold byte_at. destruct (Z.of_nat p <? 0) eqn:E; [apply Z.ltb_lt in E; lia |].
  by rewrite Nat2Z.id, H.
Qed.

Lemma store_lookup (b : Buffer) i v (p : nat) :
  store b i v !! p =
  if decide (i = Z.of_nat p) then (fun _ => ToUint8 v) <$> b !! p else b !! p.
Proof.
  unfold store. destruct (i <? 0) eqn:E.
  - apply Z.ltb_lt in E. case_decide; [lia | done].
  - apply Z.ltb_ge in E. case_decide as Hd.
    + subst i. rewrite Nat2Z.id.
      destruct (b !! p) as [x |] eqn:Hp; simpl.
      * apply list_lookup_insert_eq. by eapply lookup_lt_Some.
      * apply lookup_ge_None. rewrite length_insert. by apply lookup_ge_None.
    + apply list_lookup_insert_ne. intros Heq. apply Hd. lia.
Qed.

Lemma store_length (b : Buffer) i v : length (store b i v) = length b.
Proof. unfold store. destruct (i <? 0); [done | apply length_insert]. Qed.

Module CodecFacts.
Import Codec.

Lemma _mask_loop_length n i source key output offset pad :
  length (_mask_loop n i source key output offset pad) = length output.
Proof.
  revert i output. induction n as [| n IH]; intros i output; simpl; [done |].
  by rewrite IH, store_length.
Qed.

(** Every position of the output after the loop: positions of the window
    hold the XOR, all others keep their byte. *)
Lemma _mask_loop_lookup n i source key output offset pad (p : nat) :
  _mask_loop n i source key output offset pad !! p =
  if decide (offset + i <= Z.of_nat p < offset + i + Z.of_nat n)
  then (fun _ => ToUint8 (Z.lxor (byte_at source (Z.of_nat p - offset))
                            (byte_at key (key_index key pad (Z.of_nat p - offset)))))
       <$> output !! p
  else output !! p.
Proof.
  revert i output. induction n as [| n IH]; intros i output; simpl _mask_loop.
  - case_decide; [lia | done].
  - rewrite IH, store_lookup.
    repeat case_decide; try lia; try done.
    + subst. replace (Z.of_nat p - offset) with i by lia.
      by destruct (output !! p).
  Qed.

Lemma _unmask_loop_length n i buffer key pad :
  length (_unmask_loop n i buffer key pad) = length buffer.
Proof.
  revert i buffer. induction n as [| n IH]; intros i buffer; simpl; [done |].
  by rewrite IH, store_length.
Qed.

Lemma _unmask_loop_lookup n i buffer key pad (p : nat) :
  0 <= i ->
  _unmask_loop n i buffer key pad !! p =
  if decide (i <= Z.of_nat p < i + Z.of_nat n)
  then (fun x => ToUint8 (Z.lxor x (byte_at key (key_index key pad (Z.of_nat p)))))
       <$> buffer !! p
  else buffer !! p.
Proof.
  revert i buffer. induction n as [| n IH]; intros i buffer Hi; simpl _unmask_loop.
  - case_decide; [lia | done].
  - rewrite IH by lia. rewrite store_lookup.
    repeat case_decide; try lia; try done.
    subst i. destruct (buffer !! p) as [x |] eqn:E; simpl; [| done].
    by rewrite (byte_at_lookup _ _ _ E).
Qed.

End CodecFacts.

Section CodecClaims.
Import Codec CodecFacts.

Lemma mask_default_is_reference env source key output offset length pd :
  mask env source key output offset length
    {| avoidBufferUtils := None; pad := pd |} =
  _mask source key output offset length (truthy pd).
Proof. unfold mask. simpl. by rewrite orb_true_r. Qed.

Lemma unmask_default_is_reference env buffer key pd :
  unmask env buffer key {| avoidBufferUtils := None; pad := pd |} =
  _unmask buffer key (truthy pd).
Proof. unfold unmask. simpl. by rewrite orb_true_r. Qed.

Lemma _mask_lookup source key output offset length pad (p : nat) :
  _mask source key output offset length pad !! p =
  if decide (offset <= Z.of_nat p < offset + length)
  then (fun _ => ToUint8 (Z.lxor (byte_at source (Z.of_nat p - offset))
                            (byte_at key (key_index key pad (Z.of_nat p - offset)))))
       <$> output !! p
  else output !! p.
Proof.
  unfold _mask. rewrite _mask_loop_lookup.
  repeat case_decide; try done; lia.
Qed.

Lemma _unmask_lookup buffer key pad (p : nat) :
  _unmask buffer key pad !! p =
  (fun x => ToUint8 (Z.lxor x (byte_at key (key_index key pad (Z.of_nat p)))))
  <$> buffer !! p.
Proof.
  unfold _unmask. rewrite _unmask_loop_lookup by lia.
  case_decide as H; [done |].
  rewrite (proj2 (lookup_ge_None buffer p)); [done | lia].
Qed.

Lemma lxor_cancel_byte x k : is_byte x -> is_byte k -> ToUint8 (Z.lxor (ToUint8 (Z.lxor x k)) k) = x.
Proof.
  intros Hx Hk. rewrite (ToUint8_byte (Z.lxor x k)) by by apply lxor_byte.
  rewrite Z.lxor_assoc, Z.lxor_nilpotent, Z.lxor_0_r. by apply ToUint8_byte.
Qed.

(** C4.  [mask(source, key, output, offset, length, {pad})] on byte buffers:
    for each [i] in [[0, length)] whose target [offset + i] is a position of
    [output], that position holds [source[i] XOR key[pad ? i mod key.length :
    i AND 3]] afterwards; every position outside the window
    [[offset, offset + length)] keeps its byte, and [output] keeps its
    length. *)
Theorem mask_sets_window_and_nothing_else
    env (source key output : Buffer) (offset length : Z) (pd : bool) :
  is_buffer source -> is_buffer key ->
  let out' := mask env source key output offset length
                {| avoidBufferUtils := None; pad := Some pd |} in
  (forall i : Z, 0 <= i < length ->
     0 <= offset + i < Z.of_nat (List.length output) ->
     out' !! Z.to_nat (offset + i) =
     Some (Z.lxor (byte_at source i)
             (byte_at key (if pd then i mod Z.of_nat (List.length key)
                           else Z.land i 3)))) /\
  (forall p : nat, ~ (offset <= Z.of_nat p < offset + length) ->
     out' !! p = output !! p) /\
  List.length out' = List.length output.
Proof.
  intros Hs Hk out'. subst out'. rewrite mask_default_is_reference. simpl truthy.
  split; [| split].
  - intros i Hi Hp. rewrite _mask_lookup.
    rewrite Z2Nat.id by lia. rewrite decide_True by lia.
    replace (offset + i - offset) with i by lia.
    destruct (lookup_lt_is_Some_2 output (Z.to_nat (offset + i))) as [x Hx]; [lia |].
    rewrite Hx. simpl. f_equal.
    unfold key_index. apply ToUint8_byte, lxor_byte; by apply byte_at_byte.
  - intros p Hp. rewrite _mask_lookup. by rewrite decide_False.
  - unfold _mask. apply _mask_loop_length.
Qed.

(** The scenario of the specification: key [9; 9] in padded mode. *)
Lemma mask_sets_window_witness :
  Codec.mask {| NO_BUFFER_UTILS := false; bufferutil := None |}
    [1; 2; 3; 4; 5] [9; 9] (alloc 5) 0 5
    {| avoidBufferUtils := None; pad := Some true |} !! Z.to_nat (0 + 4)
  = Some (Z.lxor (byte_at [1; 2; 3; 4; 5] 4) (byte_at [9; 9] (4 mod Z.of_nat (List.length [9; 9])))).
Proof.
  refine (proj1 (mask_sets_window_and_nothing_else _ [1; 2; 3; 4; 5] [9; 9] (alloc 5) 0 5 true _ _) 4 _ _).
  - apply is_bufferb_spec. reflexivity.
  - apply is_bufferb_spec. reflexivity.
  - lia.
  - simpl. lia.
Defined.

(** C5.  Masking a byte buffer with a key in padded mode into a fresh buffer
    and unmasking the result with the same key in padded mode gives the
    buffer back, whatever the length of the key (four bytes, fewer, or
    more). *)
Theorem mask_unmask_roundtrip env (b k : Buffer) :
  is_buffer b -> is_buffer k ->
  let opts := {| avoidBufferUtils := None; pad := Some true |} in
  unmask env
    (mask env b k (alloc (List.length b)) 0 (Z.of_nat (List.length b)) opts)
    k opts = b.
Proof.
  intros Hb Hk opts. subst opts.
  rewrite mask_default_is_reference, unmask_default_is_reference. simpl truthy.
  apply list_eq. intros p.
  rewrite _unmask_lookup, _mask_lookup.
  replace (Z.of_nat p - 0) with (Z.of_nat p) by lia.
  destruct (b !! p) as [x |] eqn:E.
  - pose proof (lookup_lt_Some _ _ _ E) as Hlt.
    rewrite decide_True by lia.
    unfold alloc. rewrite lookup_replicate_2 by done. simpl.
    rewrite (byte_at_lookup _ _ _ E). f_equal.
    apply lxor_cancel_byte; [exact (Forall_lookup_1 _ _ _ _ Hb E) | by apply byte_at_byte].
  - pose proof (proj1 (lookup_ge_None _ _) E) as Hge.
    rewrite decide_False by lia.
    unfold alloc. rewrite (proj2 (lookup_ge_None _ _)); [done |].
    by rewrite length_replicate.
Qed.

Lemma mask_unmask_roundtrip_witness :
  let env := {| NO_BUFFER_UTILS := false; bufferutil := Some frame_backend |} in
  let opts := {| avoidBufferUtils := None; pad := Some true |} in
  unmask env (mask env [104; 101; 108; 108; 111; 33] [1; 2; 3; 4; 5]
                (alloc 6) 0 6 opts) [1; 2; 3; 4; 5] opts
  = [104; 101; 108; 108; 111; 33].
Proof.
  apply (mask_unmask_roundtrip _ [104; 101; 108; 108; 111; 33] [1; 2; 3; 4; 5]).
  - apply is_bufferb_spec. reflexivity.
  - apply is_bufferb_spec. reflexivity.
Defined.


(** The fallbacks of [mask]: the environment flag, a [require] that throws
    and a backend call that throws all end in the reference loop. *)
Lemma mask_falls_back_to_reference env source key output offset length options :
  NO_BUFFER_UTILS env = true \/ bufferutil env = None \/
  (exists bu, bufferutil env = Some bu /\
              bu_mask bu source key output offset length = None) ->
  mask env source key output offset length options =
  _mask source key output offset length (truthy (pad options)).
Proof.
  intros H. unfold mask.
  destruct (NO_BUFFER_UTILS env) eqn:Hn; [done |]. simpl.
  destruct (match avoidBufferUtils options with Some b => b | None => true end); [done |].
  destruct (length <? 48); [done |].
  destruct H as [H | [H | (bu & Hbu & H)]]; [done | by rewrite H |].
  by rewrite Hbu, H.
Qed.

Lemma unmask_falls_back_to_reference env buffer key options :
  NO_BUFFER_UTILS env = true \/ bufferutil env = None \/
  (exists bu, bufferutil env = Some bu /\ bu_unmask bu buffer key = None) ->
  unmask env buffer key options = _unmask buffer key (truthy (pad options)).
Proof.
  intros H. unfold unmask.
  destruct (NO_BUFFER_UTILS env) eqn:Hn; [done |]. simpl.
  destruct (match avoidBufferUtils options with Some b => b | None => true end); [done |].
  destruct (Z.of_nat (List.length buffer) <? 32); [done |].
  destruct H as [H | [H | (bu & Hbu & H)]]; [done | by rewrite H |].
  by rewrite Hbu, H.
Qed.

(** The accelerated call receives no [pad]: whenever the backend runs on
    these 48 bytes, [mask] returns its bytes in both pad modes, and the two
    reference loops differ, so one of the modes disagrees with its reference
    loop whatever the backend computes. *)
Lemma accelerated_mask_cannot_match_both_modes (bu : Backend) :
  let env := {| NO_BUFFER_UTILS := false; bufferutil := Some bu |} in
  let source := alloc 48 in
  let key := [1; 2; 3; 4; 5] in
  let acc p := mask env source key (alloc 48) 0 48
                 {| avoidBufferUtils := Some false; pad := Some p |} in
  bu_mask bu source key (alloc 48) 0 48 = None \/
  acc true <> _mask source key (alloc 48) 0 48 true \/
  acc false <> _mask source key (alloc 48) 0 48 false.
Proof.
  intros env source key acc.
  destruct (bu_mask bu source key (alloc 48) 0 48) as [out |] eqn:E; [right | by left].
  assert (Ht : acc true = out).
  { unfold acc, mask. cbn [avoidBufferUtils NO_BUFFER_UTILS bufferutil env orb].
    change (48 <? 48) with false. cbv iota. by rewrite E. }
  assert (Hf : acc false = out).
  { unfold acc, mask. cbn [avoidBufferUtils NO_BUFFER_UTILS bufferutil env orb].
    change (48 <? 48) with false. cbv iota. by rewrite E. }
  rewrite Ht, Hf.
  destruct (decide (out = _mask source key (alloc 48) 0 48 true)) as [-> | Hne]; [right | by left].
  vm_compute. discriminate.
Qed.

(** C6.  With the accelerated backend opted in ([avoidBufferUtils: false]),
    installed and working, [mask] of 48 zero bytes with the five-byte key
    [1; 2; 3; 4; 5] in padded mode returns the four-byte frame masking:
    byte 4 is [1] (key index [4 AND 3]) where the reference loop of the
    same call writes [5] (key index [4 mod 5]). *)
Theorem accelerated_mask_differs_from_reference :
  let env := {| NO_BUFFER_UTILS := false; bufferutil := Some frame_backend |} in
  let opts := {| avoidBufferUtils := Some false; pad := Some true |} in
  mask env (alloc 48) [1; 2; 3; 4; 5] (alloc 48) 0 48 opts !! 4%nat = Some 1 /\
  _mask (alloc 48) [1; 2; 3; 4; 5] (alloc 48) 0 48 true !! 4%nat = Some 5 /\
  mask {| NO_BUFFER_UTILS := false; bufferutil := None |}
    (alloc 48) [1; 2; 3; 4; 5] (alloc 48) 0 48 opts !! 4%nat = Some 5.
Proof. vm_compute. done. Qed.

(** The same on [unmask], whose threshold is 32 bytes: between 32 and 47
    bytes [mask] takes the reference loop and [unmask] the backend, and the
    round trip of a padded five-byte key is lost. *)
Lemma accelerated_roundtrip_lost :
  let env := {| NO_BUFFER_UTILS := false; bufferutil := Some frame_backend |} in
  let opts := {| avoidBufferUtils := Some false; pad := Some true |} in
  unmask env (mask env (alloc 32) [1; 2; 3; 4; 5] (alloc 32) 0 32 opts)
    [1; 2; 3; 4; 5] opts <> alloc 32.
Proof. vm_compute. discriminate. Qed.

End CodecClaims.

(** ** Programs *)

Lemma interp_bind {W A B : Type} (h : handler W) (m : prog A) (f : A -> prog B) (w : W) :
  interp h (bind m f) w = let '(a, w') := interp h m w in interp h (f a) w'.
Proof.
  revert w. induction m as [a | X e k IH]; intros w; simpl; [done |].
  destruct (h X e w) as [x w']. apply IH.
Qed.

Lemma interp_mbind {W A B : Type} (h : handler W) (m : prog A) (f : A -> prog B) (w : W) :
  interp h (m ≫= f) w = let '(a, w') := interp h m w in interp h (f a) w'.
Proof. apply interp_bind. Qed.

Lemma interp_call {W X : Type} (h : handler W) (e : fsE X) (w : W) :
  interp h (call e) w = h X e w.
Proof. unfold call. simpl. by destruct (h X e w). Qed.

(** Running a program: split the binds, then name what a call answers. *)
Ltac run :=
  repeat first [rewrite interp_mbind | rewrite interp_call | progress cbn [interp]].

Ltac answer :=
  match goal with
  | h : handler _ |- context [?h' _ ?e ?w] =>
      constr_eq h h';
      let x := fresh "x" in let w' := fresh "w" in
      destruct (h _ e w) as [x w']; cbn beta iota; run
  end.

Section TemporaryDirectoryClaims.
Import TemporaryDirectory ops.
Variable env : Codec.Env.

Lemma remove_on_error_state {W} (h : handler W) this filename roe err w :
  exists e, fst (interp h (remove_on_error this filename roe err) w) = (Throw e, this).
Proof.
  unfold remove_on_error.
  destruct (isKnownError err ERR_TOKEN_CANCELED && roe); [| by eexists].
  run. answer. destruct x as [[] | fsErr]; simpl; [by eexists |].
  destruct (negb (has_code fsErr "ENOENT")); by eexists.
Qed.

(** C1.  A buffered write ([write], [writeSync], [append], [appendSync],
    [writeBinary], [writeBinarySync]) whose content coerces to [n] bytes, on
    an instance whose token can be read.  If [sizeof + n > maxSize] the
    operation is the program that makes no call and throws BufferOverflow
    with the instance unchanged.  If [sizeof + n <= maxSize]: when the
    environment answers the file write of the operation with success, the
    operation succeeds and [sizeof] is [n] more; and however the operation
    settles, [sizeof] is [n] more after a success and unchanged after a
    failure. *)
Theorem buffered_write_admission (op : BufferedWrite) (this : t)
    (filename : Path) (contents : K) (buffer : Buffer)
    {W : Type} (h : handler W) (w : W) :
  chunkToBuffer contents = Ok buffer ->
  token_available this op ->
  let n := byteLength buffer in
  let filepath := path_join (pathname (state this)) filename in
  let m := buffered env op this filename contents in
  (sizeof (state this) + n > maxSize (state this) ->
     m = Ret (Throw (Exception ERR_BUFFER_OVERFLOW), this)) /\
  (sizeof (state this) + n <= maxSize (state this) ->
     (forall data,
        written_data env op buffer = Ok data ->
        token_live this op ->
        fst (h _ (file_write op filepath data) w) = Ok tt ->
        interp h m w =
          ((Ok tt, set_sizeof (sizeof (state this) + n) this),
           snd (h _ (file_write op filepath data) w))) /\
     (forall r this' w',
        interp h m w = ((r, this'), w') ->
        this' = match r with
                | Ok _ => set_sizeof (sizeof (state this) + n) this
                | Throw _ => this
                end)).
Proof.
  intros Hc Hav n filepath m. subst n m filepath. split.
  - intros Hover. apply Z.gt_lt, Z.gtb_lt in Hover.
    destruct op as [ | | | | mask token removeOnError | mask]; simpl;
      unfold write, writeSync, append, appendSync, writeBinary, writeBinarySync;
      rewrite ?Hc; try (by rewrite Hover).
    simpl in Hav. unfold default_token.
    destruct token as [tok |]; [| destruct (source this) as [s |]; [| done]];
      simpl; by rewrite ?Hc, Hover.
  - intros Hfit.
    assert (Hle : (sizeof (state this) + byteLength buffer >? maxSize (state this)) = false).
    { apply not_true_is_false. intros H%Z.gtb_lt. lia. }
    split.
    + intros data Hd Hlive. 
      destruct op as [ | | | | mask token removeOnError | mask]; simpl in *;
        unfold write, writeSync, append, appendSync, writeBinary, writeBinarySync;
        rewrite ?Hc, ?Hle.
      1-4: injection Hd as <-; run; answer; simpl; by intros ->.
      * destruct (default_token this token) as [tok |]; [| done].
        unfold fsbin.writeBinary. cbn [cancellation.cancelled].
        rewrite Hlive, Hc, Hd. run. answer. simpl. by intros ->.
      * unfold fsbin.writeBinarySync. rewrite Hc, Hd. run. answer. simpl. by intros ->.
    + intros r this' w'.
      destruct op as [ | | | | mask token removeOnError | mask]; simpl;
        unfold write, writeSync, append, appendSync, writeBinary, writeBinarySync;
        rewrite ?Hc, ?Hle.
      1-4: run; answer; destruct x as [[] | e]; simpl; intros ?; by simplify_eq.
      * destruct (default_token this token) as [tok | e].
        2: { simpl. intros ?; by simplify_eq. }
        run. destruct (interp h (fsbin.writeBinary _ _ _ _ _) w) as [[[] | e] w1]; simpl.
        -- intros ?; by simplify_eq.
        -- intros Hr.
           destruct (remove_on_error_state h this filename removeOnError e w1) as [e' He'].
           rewrite Hr in He'. simpl in He'. by simplify_eq.
      * run. destruct (interp h (fsbin.writeBinarySync _ _ _ _) w) as [[[] | e] w1]; simpl;
          intros ?; by simplify_eq.
Qed.

(** *** The byte count of a stream *)

Lemma masked_length (b b' : Buffer) (mask : option K) :
  fsbin.masked env b mask = Ok b' -> length b' = length b.
Proof.
  unfold fsbin.masked. destruct mask as [m |]; [| intros ?; by simplify_eq].
  destruct (K_truthy m); [| intros ?; by simplify_eq].
  destruct (chunkToBuffer m) as [key |]; intros ?; simplify_eq.
  unfold Codec.mask. simpl. rewrite orb_true_r. unfold Codec._mask.
  rewrite CodecFacts._mask_loop_length. unfold alloc. apply length_replicate.
Qed.

Lemma write_chunks_total {W : Type} (h : handler W) p content buffers mask acc w n w' :
  Forall2 (fun chunk b => chunkToBuffer chunk = Ok b) content buffers ->
  interp h (fsbin.write_chunks env p content mask acc) w = (Ok n, w') ->
  n = acc + byteLength (concat buffers).
Proof.
  intros Hc. revert acc w.
  induction Hc as [| chunk b content buffers Hcb Hc IH]; intros acc w.
  - simpl. intros ?; simplify_eq. unfold byteLength. simpl. lia.
  - cbn [fsbin.write_chunks]. rewrite Hcb.
    destruct (fsbin.masked env b mask) as [b' |] eqn:Hm; [| simpl; intros ?; simplify_eq].
    apply masked_length in Hm.
    assert (Hlen : forall k : Z,
              k + byteLength b' + byteLength (concat buffers)
              = k + byteLength (concat (b :: buffers))).
    { intros k. unfold byteLength. simpl. rewrite length_app. lia. }
    run. answer. destruct x.
    + intros H%IH. by rewrite <- Hlen.
    + run. answer. destruct x as [[] |]; [| simpl; intros ?; simplify_eq].
      intros H%IH. by rewrite <- Hlen.
Qed.

Lemma write_chunks_bytes {W : Type} (h : handler W) p content mask acc w n w' :
  interp h (fsbin.write_chunks env p content mask acc) w = (Ok n, w') -> acc <= n.
Proof.
  revert acc w. induction content as [| chunk rest IH]; intros acc w; simpl.
  - intros ?; simplify_eq. lia.
  - destruct (chunkToBuffer chunk) as [b |]; [| intros ?; simplify_eq].
    destruct (fsbin.masked env b mask) as [b' |]; [| intros ?; simplify_eq].
    run. answer. destruct x.
    + intros H%IH. unfold byteLength in H. lia.
    + run. answer. destruct x as [[] |]; [| simpl; intros ?; simplify_eq].
      intros H%IH. unfold byteLength in H. lia.
Qed.

Lemma settle_Ok_inv {A} tok (r : Result A) a : fsbin.settle tok r = Ok a -> r = Ok a.
Proof.
  destruct tok, r as [| e]; simpl; try done.
  destruct (has_code e "ABORT_ERR"); done.
Qed.

Lemma writeBinaryStream_bytes {W : Type} (h : handler W) p content mask tok w n w' :
  interp h (fsbin.writeBinaryStream env p content mask tok) w = (Ok n, w') -> 0 <= n.
Proof.
  unfold fsbin.writeBinaryStream. run. answer.
  destruct (interp h (fsbin.write_chunks _ _ _ _ _) w0) as [[k |] w1] eqn:E.
  - apply write_chunks_bytes in E. run. answer. answer.
    destruct (cancellation.cancelled tok); [intros ?; simplify_eq |].
    intros H. injection H as H _. apply settle_Ok_inv in H.
    destruct x1; by simplify_eq.
  - run. destruct (cancellation.cancelled tok); [intros ?; simplify_eq |].
    intros H. injection H as H _. by apply settle_Ok_inv in H.
Qed.


Lemma writeBinaryStream_total {W : Type} (h : handler W) p content buffers mask tok w n w' :
  Forall2 (fun chunk b => chunkToBuffer chunk = Ok b) content buffers ->
  interp h (fsbin.writeBinaryStream env p content mask tok) w = (Ok n, w') ->
  n = byteLength (concat buffers).
Proof.
  intros Hc. unfold fsbin.writeBinaryStream. run. answer.
  destruct (interp h (fsbin.write_chunks _ _ _ _ _) w0) as [[k |] w1] eqn:E.
  - apply (write_chunks_total h p content buffers mask 0 w0 k w1 Hc) in E. run. answer. answer.
    destruct (cancellation.cancelled tok); [intros ?; simplify_eq |].
    intros H. injection H as H _. apply settle_Ok_inv in H.
    destruct x1; simplify_eq. lia.
  - run. destruct (cancellation.cancelled tok); [intros ?; simplify_eq |].
    intros H. injection H as H _. by apply settle_Ok_inv in H.
Qed.

(** C2.  [writeBinaryStream] on an instance, when the stream of
    fs/binary.ts has run to its end and resolved with [n] (leaving the world
    [w1]): [n] is the number of bytes of the chunks, and the bound is
    checked on it only then.  If [sizeof + n > maxSize] the instance is left
    unchanged and [rimraf] runs on the file from [w1]; when it removes the
    file the call rejects with BufferOverflow.  Otherwise the call succeeds
    and [sizeof] is [n] more. *)
Theorem streamed_write_admission (this : t) (filename : Path)
    (content : list K) (mask : option K) (token : option CancellationToken)
    (removeOnError : bool) (tok : CancellationToken)
    {W : Type} (h : handler W) (w w1 : W) (n : Z) :
  default_token this token = Ok tok ->
  let filepath := path_join (pathname (state this)) filename in
  interp h (fsbin.writeBinaryStream env filepath content mask (Some tok)) w
    = (Ok n, w1) ->
  let m := writeBinaryStream env this filename content mask token removeOnError in
  (forall buffers,
     Forall2 (fun chunk b => chunkToBuffer chunk = Ok b) content buffers ->
     n = byteLength (concat buffers)) /\
  (sizeof (state this) + n > maxSize (state this) ->
     snd (fst (interp h m w)) = this /\
     forall w2, interp h (core.rimraf filepath None) w1 = (Ok tt, w2) ->
       interp h m w = ((Throw (Exception ERR_BUFFER_OVERFLOW), this), w2)) /\
  (sizeof (state this) + n <= maxSize (state this) ->
     interp h m w = ((Ok tt, set_sizeof (sizeof (state this) + n) this), w1)).
Proof.
  intros Htok filepath Hs m. subst m filepath.
  split; [intros buffers Hc; by eapply writeBinaryStream_total |].
  unfold writeBinaryStream. rewrite Htok. run. rewrite Hs. cbn beta iota.
  split.
  - intros Hover. apply Z.gt_lt, Z.gtb_lt in Hover. rewrite Hover. run.
    destruct (interp h (core.rimraf _ None) w1) as [[[] | e] w2]; simpl.
    + split; [done |]. intros w2' ?; by simplify_eq.
    + split; [| intros ? ?; by simplify_eq].
      destruct (remove_on_error_state h this filename removeOnError e w2) as [e' He'].
      by rewrite He'.
  - intros Hfit.
    assert (Hle : (sizeof (state this) + n >? maxSize (state this)) = false).
    { apply not_true_is_false. intros H%Z.gtb_lt. lia. }
    rewrite Hle. done.
Qed.

(** C10.  [copy], [copySync], [rename] and [renameSync] are the single call
    [copyFile] or [rename] of [fs] on the joined paths: they return what the
    call returns and leave the instance, and with it [sizeof], as it was,
    without reading [sizeof] or [maxSize]. *)
Theorem copy_rename_keep_ledger (this : t) (a b : Path)
    {W : Type} (h : handler W) (w : W) :
  let pa := path_join (pathname (state this)) a in
  let pb := path_join (pathname (state this)) b in
  interp h (copy this a b) w =
    (let '(r, w') := h _ (CopyFile pa pb) w in ((r, this), w')) /\
  interp h (copySync this a b) w =
    (let '(r, w') := h _ (CopyFile pa pb) w in ((r, this), w')) /\
  interp h (rename this a b) w =
    (let '(r, w') := h _ (Rename pa pb) w in ((r, this), w')) /\
  interp h (renameSync this a b) w =
    (let '(r, w') := h _ (Rename pa pb) w in ((r, this), w')).
Proof.
  intros pa pb. unfold copy, copySync, rename, renameSync.
  repeat split; run; fold pa pb; by answer.
Qed.

(** *** The ledger along a run *)

Lemma byteLength_nonneg b : 0 <= byteLength b.
Proof. unfold byteLength. lia. Qed.

Lemma gtb_false a b : (a >? b) = false -> a <= b.
Proof. intros H. destruct (Z.gtb_spec a b); [done | lia]. Qed.

(** How a buffered write settles: it throws and leaves the instance as it
    was, or it returns and has charged its bytes within the quota. *)
Lemma buffered_result (op : BufferedWrite) this filename contents
    {W : Type} (h : handler W) w :
  let '((r, this'), _) := interp h (buffered env op this filename contents) w in
  (exists e, r = Throw e /\ this' = this) \/
  (r = Ok tt /\
   exists n, 0 <= n /\ sizeof (state this) + n <= maxSize (state this) /\
             this' = set_sizeof (sizeof (state this) + n) this).
Proof.
  assert (Hroe : forall roe e w1,
            let '((r, this'), _) := interp h (remove_on_error this filename roe e) w1 in
            (exists e, r = Throw e /\ this' = this) \/
            (r = Ok tt /\
             exists n, 0 <= n /\ sizeof (state this) + n <= maxSize (state this) /\
                       this' = set_sizeof (sizeof (state this) + n) this)).
  { intros roe e w1. destruct (remove_on_error_state h this filename roe e w1) as [e' He'].
    destruct (interp h (remove_on_error this filename roe e) w1) as [[r t'] w2].
    simpl in He'. simplify_eq. left. by eexists. }
  destruct (chunkToBuffer contents) as [buffer | e] eqn:Hc.
  2: { destruct op as [ | | | | mask token removeOnError | mask]; simpl;
         unfold write, writeSync, append, appendSync, writeBinary, writeBinarySync;
         rewrite ?Hc; simpl; try (left; by eexists).
       destruct (default_token this token); simpl; [| left; by eexists].
       run. apply Hroe. }
  destruct (sizeof (state this) + byteLength buffer >? maxSize (state this)) eqn:Hgt.
  - destruct op as [ | | | | mask token removeOnError | mask]; simpl;
      unfold write, writeSync, append, appendSync, writeBinary, writeBinarySync;
      rewrite ?Hc, ?Hgt; simpl; try (left; by eexists).
    destruct (default_token this token); simpl; [| left; by eexists].
    run. simpl. left; by eexists.
  - apply gtb_false in Hgt.
    assert (Hch : exists n, 0 <= n /\ sizeof (state this) + n <= maxSize (state this) /\
              set_sizeof (sizeof (state this) + byteLength buffer) this
              = set_sizeof (sizeof (state this) + n) this).
    { exists (byteLength buffer). split; [apply byteLength_nonneg | done]. }
    assert (Hgt' : (sizeof (state this) + byteLength buffer >? maxSize (state this)) = false).
    { apply not_true_is_false. intros H%Z.gtb_lt. lia. }
    destruct op as [ | | | | mask token removeOnError | mask]; simpl;
      unfold write, writeSync, append, appendSync, writeBinary, writeBinarySync;
      rewrite ?Hc, ?Hgt'.
    1-4: run; answer; destruct x as [[] | e]; simpl; [by right | left; by eexists].
    + destruct (default_token this token); simpl; [| left; by eexists].
      run. destruct (interp h (fsbin.writeBinary _ _ _ _ _) w) as [[[] | e] w1]; simpl.
      * by right.
      * apply Hroe.
    + run. destruct (interp h (fsbin.writeBinarySync _ _ _ _) w) as [[[] | e] w1]; simpl;
        [by right | left; by eexists].
Qed.

Lemma buffered_outcome (op : BufferedWrite) this filename contents
    {W : Type} (h : handler W) w :
  outcome (OpBuffered op filename contents) this
    (snd (fst (interp h (buffered env op this filename contents) w))).
Proof.
  pose proof (buffered_result op this filename contents h w) as H.
  destruct (interp h (buffered env op this filename contents) w) as [[r this'] w'].
  destruct H as [(e & _ & ->) | (_ & n & ? & ? & ->)]; simpl.
  - by apply unchanged.
  - by eapply charged.
Qed.

Lemma invoke_outcome (m : Mutation) this {W : Type} (h : handler W) w :
  outcome m this (snd (fst (interp h (invoke env m this) w))).
Proof.
  destruct m as [op filename contents | filename content mask token roe
                | filename | filename | | | a b | a b | a b | a b | name | name | ];
    simpl invoke.
  - apply buffered_outcome.
  - unfold writeBinaryStream.
    destruct (default_token this token) as [tok |]; [| by apply unchanged].
    run. destruct (interp h (fsbin.writeBinaryStream _ _ _ _ _) w) as [[n | e] w1] eqn:Es.
    + cbn beta iota.
      destruct (sizeof (state this) + n >? maxSize (state this)) eqn:Hgt.
      * run. destruct (interp h (core.rimraf _ None) w1) as [[[] | e] w2]; simpl.
        -- by apply unchanged.
        -- destruct (remove_on_error_state h this filename roe e w2) as [e' He'].
           rewrite He'. by apply unchanged.
      * simpl. eapply charged; [| by apply gtb_false | done].
        by eapply writeBinaryStream_bytes.
    + simpl.
      destruct (remove_on_error_state h this filename roe e w1) as [e' He'].
      rewrite He'. by apply unchanged.
  - unfold remove. run. answer. destruct x as [stat | e]; [| by apply unchanged].
    run. destruct (interp h (core.rimraf _ _) w0) as [[[] | e] w1]; simpl;
      [| by apply unchanged].
    eapply released; [by left | done].
  - unfold removeSync. run. answer. destruct x as [stat | e]; [| by apply unchanged].
    run. destruct (interp h (core.rimrafSync _ _) w0) as [[[] | e] w1]; simpl;
      [| by apply unchanged].
    eapply released; [by right | done].
  - unfold clear. run.
    destruct (interp h (core.rimraf _ _) w) as [[[] | e] w1]; [| by apply unchanged].
    run. destruct (interp h (core.ensureDir _) w1) as [[[] | e] w2]; simpl;
      [by apply cleared | by apply unchanged].
  - unfold clearSync. run.
    destruct (interp h (core.rimrafSync _ _) w) as [[[] | e] w1]; [| by apply unchanged].
    run. destruct (interp h (core.ensureDirSync _) w1) as [[[] | e] w2]; simpl;
      [by apply cleared | by apply unchanged].
  - unfold rename. run. answer. by apply unchanged.
  - unfold renameSync. run. answer. by apply unchanged.
  - unfold copy. run. answer. by apply unchanged.
  - unfold copySync. run. answer. by apply unchanged.
  - unfold createSubdirectory. run.
    destruct (interp h (core.ensureDir _) w) as [r w1]. by apply unchanged.
  - unfold createSubdirectorySync. run.
    destruct (interp h (core.ensureDirSync _) w) as [r w1]. by apply unchanged.
  - unfold dispose. destruct (disposed (state this)) eqn:Hd; [by apply unchanged |].
    destruct (source this) as [s |]; [| by apply unchanged].
    run. destruct (interp h (core.rimrafSync _ _) w) as [[[] | e] w1]; simpl.
    + by apply disposed_of.
    + by apply source_dropped.
Qed.

Lemma outcome_frame m this this' :
  outcome m this this' ->
  maxSize (state this') = maxSize (state this) /\
  pathname (state this') = pathname (state this) /\
  (disposed (state this) = true -> disposed (state this') = true).
Proof. intros [-> | n ? ? -> | f s ? -> | -> | ? ? -> | ? ? ->]; simpl; auto. Qed.

Lemma outcome_upper m this this' :
  outcome m this this' ->
  0 <= maxSize (state this) -> sizeof (state this) <= maxSize (state this) ->
  sizeof (state this') <= maxSize (state this').
Proof. intros [-> | n ? ? -> | f s ? -> | -> | ? ? -> | ? ? ->]; simpl; lia. Qed.

Lemma invoke_lower (m : Mutation) this {W : Type} (h : handler W) w :
  0 <= sizeof (state this) ->
  covered env h [m] this w ->
  0 <= sizeof (state (snd (fst (interp h (invoke env m this) w)))).
Proof.
  intros H0 [Hc _].
  assert (Hgen : (forall f, m <> OpRemove f) -> (forall f, m <> OpRemoveSync f) ->
            0 <= sizeof (state (snd (fst (interp h (invoke env m this) w))))).
  { intros H1 H2.
    destruct (invoke_outcome m this h w) as [E | n ? ? E | f s [? | ?] _ | E | ? ? E | ? ? E];
      try rewrite E; simpl; try lia; exfalso; first [by eapply H1 | by eapply H2]. }
  destruct m; try (by apply Hgen).
  - clear Hgen. simpl invoke. unfold remove. run.
    destruct (h _ (Stat (path_join (pathname (state this)) filename)) w) as [[stat | e] w0];
      simpl in Hc; run; [| done].
    destruct (interp h (core.rimraf _ _) w0) as [[[] | e] w1]; simpl; [lia | done].
  - clear Hgen. simpl invoke. unfold removeSync. run.
    destruct (h _ (Stat (path_join (pathname (state this)) filename)) w) as [[stat | e] w0];
      simpl in Hc; run; [| done].
    destruct (interp h (core.rimrafSync _ _) w0) as [[[] | e] w1]; simpl; [lia | done].
Qed.

(** C3 (as amended).  In any environment: a buffered write that succeeds
    leaves [sizeof <= maxSize], whatever the ledger was before.  From an
    instance whose ledger starts within [0 <= sizeof <= maxSize], after any
    sequence of settled operations (buffered or streamed writes, removes,
    and the others): [sizeof <= maxSize], with [maxSize] unchanged; and
    [0 <= sizeof] when every remove of the sequence found an entry no larger
    than the ledger at that time. *)
Theorem ledger_bounds (ms : list Mutation) (this : t)
    {W : Type} (h : handler W) (w : W) :
  (forall op filename contents this' w',
     interp h (buffered env op this filename contents) w = ((Ok tt, this'), w') ->
     sizeof (state this') <= maxSize (state this')) /\
  (0 <= sizeof (state this) <= maxSize (state this) ->
   let this' := fst (settle_all env h ms this w) in
   sizeof (state this') <= maxSize (state this') /\
   maxSize (state this') = maxSize (state this) /\
   (covered env h ms this w -> 0 <= sizeof (state this'))).
Proof.
  split.
  { intros op filename contents this' w' H.
    pose proof (buffered_result op this filename contents h w) as Hr.
    rewrite H in Hr. destruct Hr as [(e & ? & _) | (_ & n & ? & ? & ->)]; [done |].
    simpl. lia. }
  revert this w. induction ms as [| m rest IH]; intros this w Hb; [simpl; tauto |].
  pose proof (invoke_outcome m this h w) as Ho.
  pose proof (invoke_lower m this h w) as Hl.
  simpl settle_all. simpl covered in *.
  destruct (interp h (invoke env m this) w) as [[r this1] w1]. simpl in Ho, Hl.
  destruct (outcome_frame _ _ _ Ho) as (Hm & _ & _).
  pose proof (outcome_upper _ _ _ Ho ltac:(lia) ltac:(lia)) as Hu.
  destruct (decide (0 <= sizeof (state this1))) as [Hpos | Hneg].
  - specialize (IH this1 w1 ltac:(lia)). simpl in IH. rewrite Hm in IH.
    destruct IH as (? & ? & ?). repeat split; [done | done |]. tauto.
  - (* the ledger went below zero: the upper bound still propagates *)
    assert (Hup : forall ms' (a : t) (w' : W),
              0 <= maxSize (state a) -> sizeof (state a) <= maxSize (state a) ->
              sizeof (state (fst (settle_all env h ms' a w'))) <=
                maxSize (state (fst (settle_all env h ms' a w'))) /\
              maxSize (state (fst (settle_all env h ms' a w'))) = maxSize (state a)).
    { clear. induction ms' as [| m' rest' IH']; intros a w' Hm Hs; [done |].
      pose proof (invoke_outcome m' a h w') as Ho. simpl settle_all.
      destruct (interp h (invoke env m' a) w') as [[r a1] w1]. simpl in Ho.
      destruct (outcome_frame _ _ _ Ho) as (Hm' & _ & _).
      pose proof (outcome_upper _ _ _ Ho Hm Hs) as Hu.
      destruct (IH' a1 w1 ltac:(lia) Hu) as [? ?]. split; [done | congruence]. }
    destruct (Hup rest this1 w1 ltac:(lia) Hu) as [? ?].
    repeat split; [done | congruence |].
    intros [Hc _]. exfalso. apply Hneg, Hl; [lia | done].
Qed.


End TemporaryDirectoryClaims.

Section StreamClaims.
Import Codec CodecFacts.
Variable env : Codec.Env.

(** The masking of one chunk, key index counted from the start of the
    chunk. *)
Lemma _mask_fresh_imap (b key : Buffer) :
  is_buffer b -> is_buffer key ->
  _mask b key (alloc (length b)) 0 (byteLength b) true =
  imap (fun j x => Z.lxor x (byte_at key (Z.of_nat j mod Z.of_nat (length key)))) b.
Proof.
  intros Hb Hk. apply list_eq. intros p.
  rewrite _mask_lookup, list_lookup_imap. unfold byteLength.
  replace (Z.of_nat p - 0) with (Z.of_nat p) by lia.
  destruct (b !! p) as [x |] eqn:E; simpl.
  - pose proof (lookup_lt_Some _ _ _ E) as Hlt.
    rewrite decide_True by lia.
    unfold alloc. rewrite lookup_replicate_2 by done. simpl.
    rewrite (byte_at_lookup _ _ _ E). f_equal. unfold key_index.
    apply ToUint8_byte, lxor_byte; [exact (Forall_lookup_1 _ _ _ _ Hb E) | by apply byte_at_byte].
  - pose proof (proj1 (lookup_ge_None _ _) E) as Hge.
    rewrite decide_False by lia.
    unfold alloc. apply lookup_ge_None. by rewrite length_replicate.
Qed.

Lemma masked_imap (b key : Buffer) (m : K) :
  is_buffer b -> is_buffer key -> K_truthy m = true -> chunkToBuffer m = Ok key ->
  fsbin.masked env b (Some m) =
  Ok (imap (fun j x => Z.lxor x (byte_at key (Z.of_nat j mod Z.of_nat (length key)))) b).
Proof.
  intros Hb Hk Ht Hm. unfold fsbin.masked. rewrite Ht, Hm. f_equal.
  unfold mask. simpl. rewrite orb_true_r. by apply _mask_fresh_imap.
Qed.

Lemma write_chunks_log {W : Type} (h : handler W) filepath content buffers m key
    acc w log0 n w' log :
  Forall2 (fun chunk b => chunkToBuffer chunk = Ok b) content buffers ->
  Forall is_buffer buffers -> is_buffer key ->
  K_truthy m = true -> chunkToBuffer m = Ok key ->
  interp (logging h) (fsbin.write_chunks env filepath content (Some m) acc) (w, log0)
    = (Ok n, (w', log)) ->
  log = log0 ++
        ((fun b => imap (fun j x => Z.lxor x (byte_at key (Z.of_nat j mod Z.of_nat (length key)))) b)
           <$> buffers) /\
  n = acc + byteLength (concat buffers).
Proof.
  intros Hc Hb Hk Ht Hm. revert acc w log0.
  induction Hc as [| chunk b content buffers Hcb Hc IH]; intros acc w log0.
  - simpl. intros ?; simplify_eq. rewrite app_nil_r. unfold byteLength. simpl. split; [done | lia].
  - apply Forall_cons in Hb as [Hb1 Hb]. specialize (IH Hb).
    cbn [fsbin.write_chunks]. rewrite Hcb, (masked_imap b key m Hb1 Hk Ht Hm).
    run. unfold logging at 1. destruct (h _ _ w) as [ok w1]. cbn beta iota.
    assert (Hlen : forall k : Z,
              k + byteLength (imap (fun (j : nat) (x : Z) =>
                   Z.lxor x (byte_at key (Z.of_nat j mod Z.of_nat (length key)))) b)
                + byteLength (concat buffers)
              = k + byteLength (concat (b :: buffers))).
    { intros k. unfold byteLength. simpl. rewrite length_imap, length_app. lia. }
    destruct ok.
    + intros H. apply IH in H as [-> ->]. rewrite <- app_assoc. simpl. by rewrite Hlen.
    + run. unfold logging at 1. destruct (h _ _ w1) as [[[] | e] w2]; cbn beta iota.
      * intros H. apply IH in H as [-> ->]. rewrite <- app_assoc. simpl. by rewrite Hlen.
      * simpl. intros ?; simplify_eq.
Qed.

(** C7.  [writeBinaryStream] of fs/binary.ts with a mask, on chunks that
    coerce to byte buffers: when the call resolves with [n], the buffers
    handed to [stream.write] were, in order, the chunks each masked on its
    own, byte [j] of a chunk with key byte [j mod key.length] ([j] counted
    from the start of that chunk), so the bytes written are the
    concatenation of the per-chunk maskings, and [n] is their number. *)
Theorem stream_masks_each_chunk (filepath : Path) (content : list K)
    (buffers : list Buffer) (m : K) (key : Buffer)
    (token : option CancellationToken)
    {W : Type} (h : handler W) (w w' : W) (log : list Buffer) (n : Z) :
  Forall2 (fun chunk b => chunkToBuffer chunk = Ok b) content buffers ->
  Forall is_buffer buffers ->
  K_truthy m = true -> chunkToBuffer m = Ok key -> is_buffer key ->
  interp (logging h)
    (fsbin.writeBinaryStream env filepath content (Some m) token) (w, [])
    = (Ok n, (w', log)) ->
  log = (fun b => imap (fun j x =>
                   Z.lxor x (byte_at key (Z.of_nat j mod Z.of_nat (length key)))) b)
        <$> buffers /\
  n = byteLength (concat log).
Proof.
  intros Hc Hb Ht Hm Hk. unfold fsbin.writeBinaryStream. run.
  unfold logging at 1. destruct (h _ _ w) as [[] w0]. cbn beta iota. run.
  destruct (interp (logging h) (fsbin.write_chunks _ _ _ _ _) (w0, []))
    as [[k | e] [w1 log1]] eqn:E.
  - apply (write_chunks_log h filepath content buffers m key 0 w0 [] k w1 log1 Hc Hb Hk Ht Hm)
      in E as [-> ->].
    run. unfold logging at 1. destruct (h _ _ w1) as [[] w2]. cbn beta iota. run.
    unfold logging at 1. destruct (h _ _ w2) as [f w3]. cbn beta iota.
    intros H. injection H as H <- <-.
    destruct (cancellation.cancelled token); [done |].
    apply settle_Ok_inv in H. destruct f; simplify_eq. split; [done |].
    unfold byteLength. rewrite !length_concat, <- list_fmap_compose, Z.add_0_l.
    do 2 f_equal. apply list_fmap_ext. intros i b _. simpl.
    by rewrite length_imap.
  - run. intros H. injection H as H _ _.
    destruct (cancellation.cancelled token); [done |].
    by apply settle_Ok_inv in H.
Qed.

End StreamClaims.

Section DownloadClaims.
Import DownloadService.

(** C9 (as amended).  A token that is already cancelled makes the operation
    fail with TokenCanceled before any call into the file system or the
    network: construction with the destination as second argument, when
    that destination is not empty (an empty one is refused first, as
    InvalidArgument); and [download()] with the token in its overrides,
    which on a [file:] locator makes no call at all and on a network
    locator only the [console.log] of the metadata.  The instance is left
    as it was. *)
Theorem cancelled_token_fails_before_transfer :
  (forall (resource d : string) (o : DownloadOptions) (tok : CancellationToken),
     d <> EmptyString ->
     token o = Some tok ->
     cancellation.isCancellationRequested tok = true ->
     new resource (AString d) (Some o) = Throw (Exception ERR_TOKEN_CANCELED) /\
     new resource (AURI d) (Some o) = Throw (Exception ERR_TOKEN_CANCELED)) /\
  (forall (this : t) (overrides : DownloadOptions) (tok : CancellationToken),
     token overrides = Some tok ->
     cancellation.isCancellationRequested tok = true ->
     download this (Some overrides) =
       if startsWith "file:" (source (metadata this))
       then Ret (Throw (Exception ERR_TOKEN_CANCELED), this)
       else Call ConsoleLog
              (fun _ => Ret (Throw (Exception ERR_TOKEN_CANCELED), this))).
Proof.
  split.
  - intros resource d o tok Hd Ht Hc. unfold new. simpl.
    destruct d as [| c d]; [done |]. simpl. rewrite Ht. simpl. by rewrite Hc.
  - intros this overrides tok Ht Hc. unfold download, downloadFromFile.
    destruct (startsWith "file:" (source (metadata this))) eqn:Hf; simpl.
    + unfold install_token. simpl. by rewrite Ht, Hc.
    + unfold install_token. simpl. by rewrite Ht, Hc.
Qed.

Lemma cancelled_token_fails_witness :
  let o := {| destination := None; token := Some example.cancelled_token;
              timeout := None |} in
  new "file:///data/in.bin" (AString "/tmp/out.bin") (Some o)
    = Throw (Exception ERR_TOKEN_CANCELED) /\
  forall this, source (metadata this) = "file:///data/in.bin"%string ->
    download this (Some o) = Ret (Throw (Exception ERR_TOKEN_CANCELED), this).
Proof.
  intros o. split.
  - refine (proj1 (proj1 cancelled_token_fails_before_transfer
                     "file:///data/in.bin" "/tmp/out.bin" o
                     example.cancelled_token _ _ _)).
    + discriminate.
    + reflexivity.
    + reflexivity.
  - intros this Hs.
    rewrite (proj2 cancelled_token_fails_before_transfer this o
               example.cancelled_token eq_refl eq_refl).
    by rewrite Hs.
Defined.

(** An empty destination is refused before the token is looked at. *)
Lemma cancelled_token_empty_destination :
  new "file:///data/in.bin" (AString "")
    (Some {| destination := None; token := Some example.cancelled_token; timeout := None |})
  = Throw (Exception ERR_INVALID_ARGUMENT)
  /\ new "file:///data/in.bin" (AString "")
       (Some {| destination := None; token := Some example.cancelled_token; timeout := None |})
     <> Throw (Exception ERR_TOKEN_CANCELED).
Proof. split; [reflexivity | discriminate]. Qed.

(** The two-argument form reads the destination from the third argument,
    which it does not have. *)
Lemma options_form_never_constructs (resource : string) (o : DownloadOptions) :
  new resource (AOptions o) None = Throw (Exception ERR_INVALID_ARGUMENT).
Proof. reflexivity. Qed.

End DownloadClaims.

Section Runs.
Import TemporaryDirectory ops.

(** The scenario of the specification: [maxSize = 10]; with a ledger of 5,
    six more bytes overflow and nothing is called; with a ledger of 0, five
    bytes are admitted and charged. *)
Lemma buffered_write_admission_witness :
  buffered example.env Write (example.instance 5 10) ["b"%string] (KString "123456")
    = Ret (Throw (Exception ERR_BUFFER_OVERFLOW), example.instance 5 10) /\
  fst (interp memfs.run
         (buffered example.env Write (example.instance 0 10) ["a"%string] (KString "12345"))
         (example.disk 0))
    = (Ok tt, example.instance 5 10).
Proof.
  split.
  - refine (proj1 (buffered_write_admission example.env Write (example.instance 5 10)
                     ["b"%string] (KString "123456") (string_bytes "123456")
                     memfs.run (example.disk 0) eq_refl I) _).
    reflexivity.
  - pose proof (proj1 (proj2 (buffered_write_admission example.env Write
                     (example.instance 0 10) ["a"%string] (KString "12345")
                     (string_bytes "12345") memfs.run (example.disk 0) eq_refl I)
                   ltac:(vm_compute; discriminate))
                  (string_bytes "12345") eq_refl I ltac:(vm_compute; reflexivity)) as H.
    rewrite H. reflexivity.
Defined.

(** Eleven streamed bytes into a store with [maxSize = 10]: the file is
    written, found to overflow, removed, and the ledger stays at 0. *)
Lemma streamed_write_admission_witness :
  let m := writeBinaryStream example.env (example.instance 0 10) ["big"%string]
             [KString "123456"; KString "78901"] None None false in
  let stream := fsbin.writeBinaryStream example.env (example.store ++ ["big"%string])
                  [KString "123456"; KString "78901"] None
                  (Some (cancellation.token cancellation.new_source)) in
  memfs.file_data (memfs.nodes (snd (interp memfs.run stream (example.disk 0))))
    (example.store ++ ["big"%string]) = string_bytes "12345678901" /\
  fst (interp memfs.run m (example.disk 0))
    = (Throw (Exception ERR_BUFFER_OVERFLOW), example.instance 0 10) /\
  memfs.nodes (snd (interp memfs.run m (example.disk 0))) !! (example.store ++ ["big"%string])
    = None.
Proof.
  intros m stream.
  pose proof (proj2 (proj1 (proj2 (streamed_write_admission example.env (example.instance 0 10)
                ["big"%string] [KString "123456"; KString "78901"] None None false
                (cancellation.token cancellation.new_source)
                memfs.run (example.disk 0)
                (snd (interp memfs.run
                        (fsbin.writeBinaryStream example.env (example.store ++ ["big"%string])
                           [KString "123456"; KString "78901"] None
                           (Some (cancellation.token cancellation.new_source)))
                        (example.disk 0)))
                11 eq_refl ltac:(vm_compute; reflexivity)))
              ltac:(vm_compute; reflexivity))
            (example.disk 0) ltac:(vm_compute; reflexivity)) as H.
  fold m in H. rewrite H.
  split; [vm_compute; reflexivity | split; [reflexivity | vm_compute; reflexivity]].
Defined.

(** C3, the claim as stated, fails.  A fresh instance starts its ledger at
    the size [stat] reports for the directory: on a disk whose directories
    report 4096 bytes, the instance created with [maxSize = 10] has
    [sizeof = 4096] before and after a (refused) write.  And [remove] takes
    the size of the entry on disk off the ledger: on a directory that already
    held a file of seven bytes, removing it leaves [sizeof = -7]. *)
Lemma ledger_leaves_bounds :
  (exists this w,
     example.created (example.disk 4096) 10 = (Ok this, w) /\
     let ms := [OpBuffered Write ["a"%string] (KString "12345")] in
     let this' := fst (settle_all example.env memfs.run ms this w) in
     forallb ledger_op ms = true /\
     sizeof (state this') = 4096 /\ maxSize (state this') = 10 /\
     ~ (0 <= sizeof (state this') <= maxSize (state this'))) /\
  (exists this w,
     example.created (example.used_disk 0) 10 = (Ok this, w) /\
     let ms := [OpRemove ["old"%string]] in
     let this' := fst (settle_all example.env memfs.run ms this w) in
     forallb ledger_op ms = true /\
     sizeof (state this') = -7 /\
     ~ (0 <= sizeof (state this') <= maxSize (state this'))).
Proof.
  split.
  - eexists _, _. split; [vm_compute; reflexivity |].
    vm_compute. repeat split; try reflexivity. intros [_ H]. by apply H.
  - eexists _, _. split; [vm_compute; reflexivity |].
    vm_compute. repeat split; try reflexivity. intros [H _]. by apply H.
Qed.

Lemma ledger_bounds_witness :
  let ms := [OpBuffered Write ["a"%string] (KString "12345");
             OpBuffered Append ["a"%string] (KString "678");
             OpBuffered Write ["b"%string] (KString "123456");
             OpRemove ["a"%string]] in
  let this' := fst (settle_all example.env memfs.run ms (example.instance 0 10)
                      (example.disk 4096)) in
  sizeof (state this') <= maxSize (state this') /\
  maxSize (state this') = maxSize (state (example.instance 0 10)) /\
  0 <= sizeof (state this').
Proof.
  intros ms this'.
  pose proof (proj2 (ledger_bounds example.env ms (example.instance 0 10) memfs.run
                (example.disk 4096)) ltac:(vm_compute; split; discriminate)) as (H1 & H2 & H3).
  split; [exact H1 | split; [exact H2 |]].
  apply H3. vm_compute. repeat split; discriminate.
Defined.



(** [copy] at a full quota: the bytes are on disk twice, the ledger has
    not moved. *)
Lemma copy_at_full_quota :
  let this := example.instance 0 5 in
  let '((r1, this1), w1) :=
    interp memfs.run (write this ["a"%string] (KString "12345")) (example.disk 0) in
  let '((r2, this2), w2) :=
    interp memfs.run (copy this1 ["a"%string] ["b"%string]) w1 in
  r1 = Ok tt /\ sizeof (state this1) = maxSize (state this1) /\
  r2 = Ok tt /\ sizeof (state this2) = 5 /\
  memfs.file_data (memfs.nodes w2) (example.store ++ ["a"%string]) = [49; 50; 51; 52; 53] /\
  memfs.file_data (memfs.nodes w2) (example.store ++ ["b"%string]) = [49; 50; 51; 52; 53].
Proof. vm_compute. repeat split; reflexivity. Qed.

End Runs.

Section StreamRuns.

(** Two chunks, "hello" and "world!", under the three-byte key "key": the
    second chunk starts again at key byte 0. *)
Lemma stream_masks_each_chunk_witness :
  let run := interp (logging memfs.run)
               (fsbin.writeBinaryStream example.env (example.store ++ ["out"%string])
                  [KString "hello"; KString "world!"] (Some (KString "key")) None)
               (example.disk 0, []) in
  fst run = Ok 11 /\
  snd (snd run) = [[3; 0; 21; 7; 10]; [28; 10; 11; 7; 1; 88]] /\
  memfs.file_data (memfs.nodes (fst (snd run))) (example.store ++ ["out"%string])
    = [3; 0; 21; 7; 10; 28; 10; 11; 7; 1; 88].
Proof.
  intros run.
  destruct (stream_masks_each_chunk example.env (example.store ++ ["out"%string])
              [KString "hello"; KString "world!"]
              [string_bytes "hello"; string_bytes "world!"]
              (KString "key") (string_bytes "key") None
              memfs.run (example.disk 0) (fst (snd run)) (snd (snd run)) 11)
    as [Hlog Hn].
  - repeat constructor.
  - constructor; [apply is_bufferb_spec; reflexivity |].
    constructor; [apply is_bufferb_spec; reflexivity |]. constructor.
  - reflexivity.
  - reflexivity.
  - apply is_bufferb_spec. reflexivity.
  - vm_compute. reflexivity.
  - split; [vm_compute; reflexivity |]. split; [| vm_compute; reflexivity].
    rewrite Hlog. vm_compute. reflexivity.
Defined.

End StreamRuns.

(* ===================================================================== *)
(** * Further properties of the code *)
(* ===================================================================== *)

Section CodecMore.
Import Codec CodecFacts.

Lemma byte_at_default (b : Buffer) (i : Z) :
  byte_at b i = match (if i <? 0 then None else b !! Z.to_nat i) with
                | Some x => x
                | None => 0
                end.
Proof. unfold byte_at. by destruct (i <? 0). Qed.

(** Two loops over keys that give the same key byte at every index used
    write the same bytes. *)
Lemma _mask_key_ext source key1 key2 output offset length pad1 pad2 :
  (forall i, 0 <= i < length ->
     byte_at key1 (key_index key1 pad1 i) = byte_at key2 (key_index key2 pad2 i)) ->
  _mask source key1 output offset length pad1 = _mask source key2 output offset length pad2.
Proof.
  intros H. apply list_eq. intros p. rewrite !_mask_lookup.
  case_decide as Hp; [| done].
  rewrite (H (Z.of_nat p - offset)) by lia. done.
Qed.

Lemma _unmask_key_ext buffer key1 key2 pad1 pad2 :
  (forall i, 0 <= i < Z.of_nat (length buffer) ->
     byte_at key1 (key_index key1 pad1 i) = byte_at key2 (key_index key2 pad2 i)) ->
  _unmask buffer key1 pad1 = _unmask buffer key2 pad2.
Proof.
  intros H. apply list_eq. intros p. rewrite !_unmask_lookup.
  destruct (buffer !! p) as [x |] eqn:E; [| done]. simpl.
  apply lookup_lt_Some in E. rewrite (H (Z.of_nat p)) by lia. done.
Qed.

Lemma land_3_mod_4 i : 0 <= i -> Z.land i 3 = i mod 4.
Proof. intros _. change 3 with (Z.ones 2). rewrite Z.land_ones by lia. done. Qed.

Lemma land_3_range i : 0 <= i -> 0 <= Z.land i 3 < 4.
Proof. intros H. rewrite land_3_mod_4 by done. apply Z.mod_pos_bound. lia. Qed.

(** X1.  [unmask] undoes itself in either pad mode: applied twice with the
    same key to a byte buffer it gives the buffer back. *)
Theorem unmask_twice env (b k : Buffer) (pd : option bool) :
  is_buffer b -> is_buffer k ->
  let opts := {| avoidBufferUtils := None; pad := pd |} in
  unmask env (unmask env b k opts) k opts = b.
Proof.
  intros Hb Hk opts. subst opts. rewrite !unmask_default_is_reference.
  apply list_eq. intros p. rewrite !_unmask_lookup.
  destruct (b !! p) as [x |] eqn:E; [| done]. simpl. f_equal.
  apply lxor_cancel_byte; [exact (Forall_lookup_1 _ _ _ _ Hb E) | by apply byte_at_byte].
Qed.

Lemma unmask_twice_witness :
  let env := {| NO_BUFFER_UTILS := false; bufferutil := None |} in
  let opts := {| avoidBufferUtils := None; pad := Some false |} in
  unmask env (unmask env [10; 20; 30; 40; 50; 60] [7; 8] opts) [7; 8] opts
  = [10; 20; 30; 40; 50; 60].
Proof.
  apply (unmask_twice _ [10; 20; 30; 40; 50; 60] [7; 8] (Some false));
    apply is_bufferb_spec; reflexivity.
Defined.

(** X2.  For a key of exactly four bytes the two pad modes are the same
    transformation, in [mask] and in [unmask]. *)
Theorem four_byte_key_modes_agree env (source key output : Buffer)
    (offset length : Z) :
  List.length key = 4%nat ->
  mask env source key output offset length
    {| avoidBufferUtils := None; pad := Some true |} =
  mask env source key output offset length
    {| avoidBufferUtils := None; pad := Some false |} /\
  unmask env source key {| avoidBufferUtils := None; pad := Some true |} =
  unmask env source key {| avoidBufferUtils := None; pad := Some false |}.
Proof.
  intros Hk. rewrite !mask_default_is_reference, !unmask_default_is_reference.
  simpl truthy. split.
  - apply _mask_key_ext. intros i Hi. unfold key_index. rewrite Hk.
    by rewrite land_3_mod_4 by lia.
  - apply _unmask_key_ext. intros i Hi. unfold key_index. rewrite Hk.
    by rewrite land_3_mod_4 by lia.
Qed.

Lemma four_byte_key_modes_agree_witness :
  let env := {| NO_BUFFER_UTILS := false; bufferutil := None |} in
  mask env [1; 2; 3; 4; 5; 6] [9; 8; 7; 6] (alloc 6) 0 6
    {| avoidBufferUtils := None; pad := Some true |} =
  mask env [1; 2; 3; 4; 5; 6] [9; 8; 7; 6] (alloc 6) 0 6
    {| avoidBufferUtils := None; pad := Some false |}.
Proof.
  exact (proj1 (four_byte_key_modes_agree _ [1; 2; 3; 4; 5; 6] [9; 8; 7; 6]
                  (alloc 6) 0 6 eq_refl)).
Defined.

(** The key the unpadded mode really uses: the first four bytes, a missing
    byte counting as zero. *)
Lemma byte_at_frame_key key i :
  0 <= i < 4 ->
  byte_at (take 4 (key ++ [0; 0; 0; 0])) i = byte_at key i.
Proof.
  intros Hi. unfold byte_at. destruct (i <? 0) eqn:E; [done |].
  rewrite lookup_take_lt by lia.
  destruct (decide (Z.to_nat i < List.length key)%nat) as [Hlt | Hge].
  - by rewrite lookup_app_l.
  - rewrite lookup_app_r by lia.
    rewrite (proj2 (lookup_ge_None key (Z.to_nat i))) by lia.
    assert (Hn : (Z.to_nat i - List.length key < 4)%nat) by lia.
    destruct (Z.to_nat i - List.length key)%nat as [| [| [| [| n]]]]; simpl; first [done | lia].
Qed.

(** X3.  The unpadded mode reads the key as a four-byte frame: bytes of the
    key beyond the fourth are never used, and a byte the key does not have
    counts as zero, so that the positions it would mask are copied as they
    are. *)
Theorem unpadded_mode_uses_four_key_bytes env (source key output : Buffer)
    (offset length : Z) :
  let opts := {| avoidBufferUtils := None; pad := Some false |} in
  mask env source key output offset length opts =
  mask env source (take 4 (key ++ [0; 0; 0; 0])) output offset length opts /\
  unmask env source key opts =
  unmask env source (take 4 (key ++ [0; 0; 0; 0])) opts.
Proof.
  intros opts. subst opts.
  rewrite !mask_default_is_reference, !unmask_default_is_reference. simpl truthy.
  split.
  - apply _mask_key_ext. intros i Hi. unfold key_index.
    symmetry. apply byte_at_frame_key, land_3_range. lia.
  - apply _unmask_key_ext. intros i Hi. unfold key_index.
    symmetry. apply byte_at_frame_key, land_3_range. lia.
Qed.

(** X4.  [mask] and [unmask] return the bytes of the reference loop in every
    case but one: the caller passed [avoidBufferUtils: false], the
    environment flag is not set, the size reaches the threshold (48 bytes
    for [mask], 32 for [unmask]), and the backend loaded and returned; then
    they return what the backend returned. *)
Theorem accelerated_path_conditions env (source key output : Buffer)
    (offset length : Z) (options : MaskOptions) :
  (mask env source key output offset length options
     = _mask source key output offset length (truthy (pad options)) \/
   (avoidBufferUtils options = Some false /\ NO_BUFFER_UTILS env = false /\
    48 <= length /\
    exists bu, bufferutil env = Some bu /\
      bu_mask bu source key output offset length
        = Some (mask env source key output offset length options))) /\
  (unmask env source key options = _unmask source key (truthy (pad options)) \/
   (avoidBufferUtils options = Some false /\ NO_BUFFER_UTILS env = false /\
    32 <= Z.of_nat (List.length source) /\
    exists bu, bufferutil env = Some bu /\
      bu_unmask bu source key = Some (unmask env source key options))).
Proof.
  unfold mask, unmask. split.
  - destruct (NO_BUFFER_UTILS env); [by left |].
    destruct (avoidBufferUtils options) as [[] |]; simpl; [by left | | by left].
    destruct (Z.ltb_spec length 48); [by left |].
    destruct (bufferutil env) as [bu |]; [| by left].
    destruct (bu_mask bu source key output offset length) as [out |] eqn:E; [| by left].
    right. repeat split; try done. by exists bu.
  - destruct (NO_BUFFER_UTILS env); [by left |].
    destruct (avoidBufferUtils options) as [[] |]; simpl; [by left | | by left].
    destruct (Z.ltb_spec (Z.of_nat (List.length source)) 32); [by left |].
    destruct (bufferutil env) as [bu |]; [| by left].
    destruct (bu_unmask bu source key) as [out |] eqn:E; [| by left].
    right. repeat split; try done. by exists bu.
Qed.

End CodecMore.

Section BinaryMore.
Import Codec CodecFacts.
Variable env : Codec.Env.

Lemma mask_avoided source key output offset length pd :
  mask env source key output offset length
    {| avoidBufferUtils := Some true; pad := pd |} =
  _mask source key output offset length (truthy pd).
Proof. unfold mask. simpl. by rewrite orb_true_r. Qed.

Lemma unmask_avoided buffer key pd :
  unmask env buffer key {| avoidBufferUtils := Some true; pad := pd |} =
  _unmask buffer key (truthy pd).
Proof. unfold unmask. simpl. by rewrite orb_true_r. Qed.

Lemma _unmask_of_fresh_mask (b k : Buffer) :
  is_buffer b -> is_buffer k ->
  _unmask (_mask b k (alloc (length b)) 0 (byteLength b) true) k true = b.
Proof.
  intros Hb Hk. apply list_eq. intros p.
  rewrite _unmask_lookup, _mask_lookup. unfold byteLength.
  replace (Z.of_nat p - 0) with (Z.of_nat p) by lia.
  destruct (b !! p) as [x |] eqn:E.
  - pose proof (lookup_lt_Some _ _ _ E) as Hlt.
    rewrite decide_True by lia.
    unfold alloc. rewrite lookup_replicate_2 by done. simpl.
    rewrite (byte_at_lookup _ _ _ E). f_equal.
    apply lxor_cancel_byte; [exact (Forall_lookup_1 _ _ _ _ Hb E) | by apply byte_at_byte].
  - pose proof (proj1 (lookup_ge_None _ _) E) as Hge.
    rewrite decide_False by lia.
    unfold alloc. rewrite (proj2 (lookup_ge_None _ _)); [done |].
    by rewrite length_replicate.
Qed.

Lemma unmasked_masked (buffer data : Buffer) (mask : option K) :
  is_buffer buffer ->
  (forall m key, mask = Some m -> chunkToBuffer m = Ok key -> is_buffer key) ->
  fsbin.masked env buffer mask = Ok data ->
  fsread.unmasked env data mask = Ok buffer.
Proof.
  intros Hb Hk. unfold fsbin.masked, fsread.unmasked.
  destruct mask as [m |]; [| intros ?; by simplify_eq].
  destruct (K_truthy m); [| intros ?; by simplify_eq].
  destruct (chunkToBuffer m) as [key |] eqn:Hm; [| done].
  intros ?; simplify_eq. f_equal.
  rewrite mask_avoided, unmask_avoided. simpl truthy.
  apply _unmask_of_fresh_mask; [done | by eapply Hk].
Qed.

(** X5.  What [writeBinarySync] or [writeBinary] hands to [writeFile], read
    back by [readBinarySync] or [readBinary] with the same mask, is the
    content: the file holds the masked bytes and the reader returns the
    original ones. *)
Theorem write_then_read_binary (filepath : Path) (contents : K)
    (buffer data : Buffer) (mask : option K) (token : option CancellationToken) :
  chunkToBuffer contents = Ok buffer ->
  is_buffer buffer ->
  (forall m key, mask = Some m -> chunkToBuffer m = Ok key -> is_buffer key) ->
  fsbin.masked env buffer mask = Ok data ->
  cancellation.cancelled token = false ->
  let disk := fun p : Path => if decide (p = filepath) then Ok data
                               else Throw (SystemError "ENOENT") in
  fsbin.writeBinarySync env filepath contents mask = call (WriteFile filepath data) /\
  fsbin.writeBinary env filepath contents mask token
    = (r ← call (WriteFile filepath data); Ret (fsbin.settle token r)) /\
  fsread.readBinarySync env disk filepath mask None None = Ok buffer /\
  fsread.readBinary env disk filepath mask None None token = Ok buffer.
Proof.
  intros Hc Hb Hk Hm Ht disk.
  pose proof (unmasked_masked buffer data mask Hb Hk Hm) as Hu.
  unfold fsbin.writeBinarySync, fsbin.writeBinary, fsread.readBinarySync,
    fsread.readBinary, disk.
  rewrite Hc, Hm, Ht, decide_True by done.
  repeat split; try done.
  - by rewrite Hu.
  - assert (Hs : fsbin.settle token (Ok data) = Ok data) by by destruct token.
    by rewrite Hs, Hu.
Qed.

End BinaryMore.

Lemma write_then_read_binary_witness :
  let disk := fun p : Path => if decide (p = ["f"%string])
                               then Ok [3; 0; 21; 7; 10]
                               else Throw (SystemError "ENOENT") in
  fsread.readBinarySync example.env disk ["f"%string] (Some (KString "key")) None None
  = Ok (string_bytes "hello").
Proof.
  refine (proj1 (proj2 (proj2 (write_then_read_binary example.env ["f"%string] (KString "hello")
            (string_bytes "hello") [3; 0; 21; 7; 10] (Some (KString "key")) None
            eq_refl _ _ _ eq_refl)))).
  - apply is_bufferb_spec. reflexivity.
  - intros m key [= <-] [= <-]. apply is_bufferb_spec. reflexivity.
  - vm_compute. reflexivity.
Defined.

Section ReadMore.
Variable env : Codec.Env.

Lemma subarray_window (b : Buffer) (o l : Z) :
  0 <= o -> 0 <= l ->
  fsread.subarray b o (Some (o + l)) = take (Z.to_nat l) (drop (Z.to_nat o) b).
Proof.
  intros Ho Hl. unfold fsread.subarray, fsread.clamp_index, byteLength.
  destruct (o <? 0) eqn:E1; [apply Z.ltb_lt in E1; lia |].
  destruct (o + l <? 0) eqn:E2; [apply Z.ltb_lt in E2; lia |].
  destruct (decide (o <= Z.of_nat (length b))) as [Hin | Hout].
  - rewrite (Z.min_l o) by lia.
    destruct (decide (o + l <= Z.of_nat (length b))) as [Hl' | Hl'].
    + rewrite Z.min_l by lia. f_equal. lia.
    + rewrite Z.min_r by lia.
      rewrite !take_ge; [done | |]; rewrite length_drop; lia.
  - rewrite (Z.min_r o) by lia. rewrite Nat2Z.id.
    rewrite !drop_ge by lia. by rewrite !take_nil.
Qed.

Lemma subarray_from (b : Buffer) (o : Z) :
  fsread.subarray b o None =
  drop (Z.to_nat (if o <? 0 then Z.of_nat (length b) + o else o)) b.
Proof.
  unfold fsread.subarray, fsread.clamp_index, byteLength.
  destruct (o <? 0) eqn:E1.
  - apply Z.ltb_lt in E1.
    replace (Z.to_nat (Z.max (Z.of_nat (length b) + o) 0))
      with (Z.to_nat (Z.of_nat (length b) + o)) by lia.
    apply take_ge. rewrite length_drop. lia.
  - apply Z.ltb_ge in E1.
    destruct (decide (o <= Z.of_nat (length b))).
    + rewrite (Z.min_l o) by lia. apply take_ge. rewrite length_drop. lia.
    + rewrite (Z.min_r o) by lia. rewrite Nat2Z.id.
      rewrite !drop_ge by lia. by rewrite take_nil.
Qed.

(** X6.  A partial read is the matching part of the full read: with a
    mask the file is unmasked whole, from key byte 0, and then cut.  For an
    offset and a length that are not negative the result is the bytes
    [[offset, offset + length)] that the file has (fewer, or none, past its
    end, never an error); an offset alone reads to the end, and a negative
    one counts from the end of the file. *)
Theorem read_binary_window (readFileSync : Path -> Result Buffer)
    (filepath : Path) (mask : option K) (whole : Buffer) (o l : Z) :
  fsread.readBinarySync env readFileSync filepath mask None None = Ok whole ->
  (0 <= o -> 0 <= l ->
   fsread.readBinarySync env readFileSync filepath mask (Some o) (Some l)
     = Ok (take (Z.to_nat l) (drop (Z.to_nat o) whole))) /\
  (0 <= l ->
   fsread.readBinarySync env readFileSync filepath mask None (Some l)
     = Ok (take (Z.to_nat l) whole)) /\
  fsread.readBinarySync env readFileSync filepath mask (Some o) None
    = Ok (drop (Z.to_nat (if o <? 0 then byteLength whole + o else o)) whole).
Proof.
  unfold fsread.readBinarySync.
  destruct (readFileSync filepath) as [buffer |]; [| done].
  destruct (fsread.unmasked env buffer mask) as [b |]; [| done].
  intros ?; simplify_eq. unfold fsread.sliceSync. simpl.
  split; [| split].
  - intros Ho Hl. f_equal. by apply subarray_window.
  - intros Hl. f_equal. rewrite (subarray_window whole 0 l) by lia. done.
  - f_equal. apply subarray_from.
Qed.

End ReadMore.

Lemma read_binary_window_witness :
  let disk := fun p : Path => Ok [3; 0; 21; 7; 10] : Result Buffer in
  fsread.readBinarySync example.env disk ["f"%string] (Some (KString "key"))
    (Some 1) (Some 3) = Ok (string_bytes "ell") /\
  fsread.readBinarySync example.env disk ["f"%string] (Some (KString "key"))
    (Some (-2)) None = Ok (string_bytes "lo") /\
  fsread.readBinarySync example.env disk ["f"%string] (Some (KString "key"))
    (Some 9) (Some 3) = Ok [].
Proof.
  intros disk.
  assert (H : fsread.readBinarySync example.env disk ["f"%string]
                (Some (KString "key")) None None = Ok (string_bytes "hello"))
    by (vm_compute; reflexivity).
  split; [| split].
  - exact (proj1 (read_binary_window example.env disk _ _ _ 1 3 H) ltac:(lia) ltac:(lia)).
  - exact (proj2 (proj2 (read_binary_window example.env disk _ _ _ (-2) 0 H))).
  - exact (proj1 (read_binary_window example.env disk _ _ _ 9 3 H) ltac:(lia) ltac:(lia)).
Defined.

Section StreamMore.
Variable env : Codec.Env.

(** A run only adds calls to the ones made before. *)
Lemma traced_extends {W A : Type} (h : handler W) (m : prog A) w calls a w' calls' :
  interp (traced h) m (w, calls) = (a, (w', calls')) ->
  exists more, calls' = calls ++ more.
Proof.
  revert w calls. induction m as [x | X e k IH]; intros w calls; simpl.
  - intros ?; simplify_eq. exists []. by rewrite app_nil_r.
  - destruct (h X e w) as [x w1]. intros H%IH. destruct H as [more ->].
    eexists. by rewrite <- app_assoc.
Qed.

Lemma traced_call {W X : Type} (h : handler W) (e : fsE X) w calls :
  traced h X e (w, calls) =
  (fst (h X e w), (snd (h X e w), calls ++ [existT X e])).
Proof. unfold traced. by destruct (h X e w). Qed.

(** The loop of [writeBinaryStream] never ends the stream, and a chunk that
    cannot be coerced makes it throw. *)
Lemma write_chunks_keeps_stream_open {W : Type} (h : handler W)
    filepath content mask acc w calls r w' calls' :
  interp (traced h) (fsbin.write_chunks env filepath content mask acc) (w, calls)
    = (r, (w', calls')) ->
  existsb ends_stream calls = false ->
  existsb ends_stream calls' = false /\
  (Exists (fun chunk => forall b, chunkToBuffer chunk <> Ok b) content ->
   exists e, r = Throw e).
Proof.
  revert acc w calls. induction content as [| chunk rest IH]; intros acc w calls.
  - simpl. intros ? Hc; simplify_eq. split; [done |]. by intros H%Exists_nil.
  - cbn [fsbin.write_chunks].
    destruct (chunkToBuffer chunk) as [b |] eqn:Hb.
    2: { simpl. intros ? Hc; simplify_eq. split; [done | by eexists]. }
    destruct (fsbin.masked env b mask) as [b' |].
    2: { simpl. intros ? Hc; simplify_eq. split; [done | by eexists]. }
    rewrite interp_mbind, interp_call, traced_call. cbn beta iota.
    assert (Hbad : Exists (fun chunk => forall b, chunkToBuffer chunk <> Ok b) (chunk :: rest) ->
                   Exists (fun chunk => forall b, chunkToBuffer chunk <> Ok b) rest).
    { intros [Hh | Ht]%Exists_cons; [by destruct (Hh b) | done]. }
    destruct (fst (h bool (StreamWrite filepath b') w)).
    + intros H Hc. apply IH in H.
      * destruct H as [H1 H2]. split; [done | auto].
      * rewrite existsb_app. simpl. by rewrite Hc.
    + rewrite interp_mbind, interp_call, traced_call. cbn beta iota.
      destruct (fst (h _ (StreamDrain filepath) _)) as [[] | e].
      * intros H Hc. apply IH in H.
        -- destruct H as [H1 H2]. split; [done | auto].
        -- rewrite !existsb_app. simpl. by rewrite Hc.
      * simpl. intros ? Hc; simplify_eq. split; [| by eexists].
        rewrite !existsb_app. simpl. by rewrite Hc.
Qed.

(** X7.  When a chunk of the sequence cannot be coerced to bytes,
    [writeBinaryStream] rejects and never ends the write stream it opened:
    no [stream.end()] is made, in any environment. *)
Theorem stream_left_open_on_bad_chunk (filepath : Path) (content : list K)
    (mask : option K) (token : option CancellationToken)
    {W : Type} (h : handler W) (w : W) :
  Exists (fun chunk => forall b, chunkToBuffer chunk <> Ok b) content ->
  let '(r, (_, calls)) :=
    interp (traced h) (fsbin.writeBinaryStream env filepath content mask token) (w, []) in
  (exists e, r = Throw e) /\
  existsb ends_stream calls = false /\
  exists more, calls = called (CreateWriteStream filepath) :: more.
Proof.
  intros Hbad. unfold fsbin.writeBinaryStream.
  rewrite interp_mbind, interp_call, traced_call. cbn beta iota.
  rewrite interp_mbind.
  destruct (interp (traced h) (fsbin.write_chunks _ _ _ _ _) _) as [r [w1 calls1]] eqn:E.
  destruct (traced_extends _ _ _ _ _ _ _ E) as [more Hmore].
  apply write_chunks_keeps_stream_open in E as [Hopen Hthrow]; [| done].
  destruct (Hthrow Hbad) as [e ->]. run.
  split; [| split; [done | by exists more]].
  destruct (cancellation.cancelled token); [by eexists |].
  destruct token; simpl; [destruct (has_code e "ABORT_ERR") |]; by eexists.
Qed.

(** X8.  [writeBinary] and [readBinary] look at the token before anything
    else: on a token that is already cancelled they make no call and throw
    TokenCanceled, even for content that cannot be coerced.
    [writeBinaryStream] has no such check: its first call creates the write
    stream on the destination, and it rejects with TokenCanceled. *)
Theorem cancelled_before_write (filepath : Path) (contents : K)
    (content : list K) (mask : option K) (tok : CancellationToken)
    {W : Type} (h : handler W) (w : W) :
  cancellation.isCancellationRequested tok = true ->
  fsbin.writeBinary env filepath contents mask (Some tok)
    = Ret (Throw (Exception ERR_TOKEN_CANCELED)) /\
  (forall readFile offset length,
     fsread.readBinary env readFile filepath mask offset length (Some tok)
       = Throw (Exception ERR_TOKEN_CANCELED)) /\
  let '(r, (_, calls)) :=
    interp (traced h) (fsbin.writeBinaryStream env filepath content mask (Some tok))
      (w, []) in
  r = Throw (Exception ERR_TOKEN_CANCELED) /\
  exists more, calls = called (CreateWriteStream filepath) :: more.
Proof.
  intros Hc.
  assert (Hcan : cancellation.cancelled (Some tok) = true) by (simpl; by rewrite Hc).
  split; [| split].
  { unfold fsbin.writeBinary. by rewrite Hcan. }
  { intros. unfold fsread.readBinary. by rewrite Hcan. }
  unfold fsbin.writeBinaryStream.
  rewrite interp_mbind, interp_call, traced_call. cbn beta iota.
  rewrite interp_mbind.
  destruct (interp (traced h) (fsbin.write_chunks _ _ _ _ _) _) as [r [w1 calls1]] eqn:E.
  destruct (traced_extends _ _ _ _ _ _ _ E) as [more ->].
  rewrite interp_mbind.
  destruct (interp (traced h) _ (w1, _)) as [r2 [w2 calls2]] eqn:E2.
  destruct (traced_extends _ _ _ _ _ _ _ E2) as [more2 ->].
  cbn [interp]. rewrite Hcan. split; [done |].
  rewrite <- !app_assoc. by eexists.
Qed.

End StreamMore.

Lemma stream_left_open_witness :
  let '(r, (w, calls)) :=
    interp (traced memfs.run)
      (fsbin.writeBinaryStream example.env (example.store ++ ["out"%string])
         [KString "abc"; KOther; KString "def"] None None)
      (example.disk 0, []) in
  r = Throw (Exception ERR_INVALID_TYPE) /\
  existsb ends_stream calls = false /\
  memfs.file_data (memfs.nodes w) (example.store ++ ["out"%string]) = string_bytes "abc".
Proof.
  pose proof (stream_left_open_on_bad_chunk example.env (example.store ++ ["out"%string])
                [KString "abc"; KOther; KString "def"] None None memfs.run
                (example.disk 0)
                ltac:(apply Exists_cons_tl, Exists_cons_hd; discriminate)) as H.
  destruct (interp (traced memfs.run) _ _) as [r [w calls]] eqn:E.
  destruct H as (_ & Hopen & _).
  split; [| split; [exact Hopen |]].
  - assert (Hr : r = fst (interp (traced memfs.run)
      (fsbin.writeBinaryStream example.env (example.store ++ ["out"%string])
         [KString "abc"; KOther; KString "def"] None None)
      (example.disk 0, []))) by (by rewrite E).
    rewrite Hr. vm_compute. reflexivity.
  - assert (Hw : w = fst (snd (interp (traced memfs.run)
      (fsbin.writeBinaryStream example.env (example.store ++ ["out"%string])
         [KString "abc"; KOther; KString "def"] None None)
      (example.disk 0, [])))) by (by rewrite E).
    rewrite Hw. vm_compute. reflexivity.
Defined.

Lemma cancelled_before_write_witness :
  fsbin.writeBinary example.env ["f"%string] KOther None (Some example.cancelled_token)
  = Ret (Throw (Exception ERR_TOKEN_CANCELED)).
Proof.
  exact (proj1 (cancelled_before_write example.env ["f"%string] KOther [] None
                  example.cancelled_token memfs.run (example.disk 0) eq_refl)).
Defined.

Section CallsOfAProgram.
Context {P : {X : Type & fsE X} -> Prop}.

Lemma all_calls_bind {A B : Type} (m : prog A) (k : A -> prog B) :
  all_calls P m -> (forall x, all_calls P (k x)) -> all_calls P (bind m k).
Proof.
  intros Hm Hk. induction m as [a | X e k' IH]; simpl; [apply Hk |].
  destruct Hm as [He Hm]. split; [done |]. intros x. apply IH, Hm.
Qed.

Lemma all_calls_mbind {A B : Type} (m : prog A) (k : A -> prog B) :
  all_calls P m -> (forall x, all_calls P (k x)) -> all_calls P (m ≫= k).
Proof. apply all_calls_bind. Qed.

Lemma all_calls_call {X : Type} (e : fsE X) : P (called e) -> all_calls P (call e).
Proof. by split. Qed.

(** The calls of a run are among the calls the program can make. *)
Lemma all_calls_trace {W A : Type} (h : handler W) (m : prog A) w calls :
  all_calls P m -> Forall P calls ->
  Forall P (snd (snd (interp (traced h) m (w, calls)))).
Proof.
  revert w calls. induction m as [a | X e k IH]; intros w calls Hm Hc; [done |].
  destruct Hm as [He Hm]. cbn [interp]. rewrite traced_call. cbn beta iota.
  apply IH; [apply Hm |]. apply Forall_app. split; [done |]. by constructor.
Qed.

End CallsOfAProgram.

Section RimrafMore.

Lemma promise_all_calls P (f : string -> prog (Result unit)) contents :
  (forall item, all_calls P (f item)) -> all_calls P (core.promise_all f contents).
Proof.
  intros Hf. induction contents as [| item rest IH]; [done |].
  cbn [core.promise_all]. apply all_calls_mbind; [apply Hf |]. intros r.
  apply all_calls_mbind; [apply IH | done].
Qed.

Lemma for_each_calls P (f : string -> prog (Result unit)) contents :
  (forall item, all_calls P (f item)) -> all_calls P (core.for_each f contents).
Proof.
  intros Hf. induction contents as [| item rest IH]; [done |].
  cbn [core.for_each]. apply all_calls_mbind; [apply Hf |]. by intros [].
Qed.

Lemma rimraf_body_below children root depth pathname recursive :
  (forall f contents, (forall item, all_calls (below root) (f item)) ->
                      all_calls (below root) (children f contents)) ->
  root `prefix_of` pathname ->
  all_calls (below root) (core.rimraf_body children depth pathname recursive).
Proof.
  intros Hchildren. revert pathname.
  induction depth as [| depth IH]; intros pathname Hp; [done |].
  cbn [core.rimraf_body].
  apply all_calls_mbind; [| done].
  apply all_calls_mbind; [by apply all_calls_call |]. intros [stat | err]; [| done].
  destruct (isSymbolicLink stat); [by apply all_calls_call |].
  destruct (isDirectory stat); [| by apply all_calls_call].
  cbn zeta. apply all_calls_mbind; [by apply all_calls_call |].
  intros [contents | err]; [| done].
  destruct (negb _ && _); [done |].
  apply all_calls_mbind.
  - apply Hchildren. intros item. apply IH.
    unfold path_join. by apply prefix_app_r.
  - intros [|]; [by apply all_calls_call | done].
Qed.

(** X9.  Whatever the file system answers, every call [rimraf] and
    [rimrafSync] make is an [lstat], [readdir], [unlink] or [rmdir] on the
    path they were given or on that path extended by entry names: nothing
    beside it is read or removed. *)
Theorem rimraf_stays_below_path (pathname : Path) (recursive : option bool)
    {W : Type} (h : handler W) (w : W) :
  Forall (below pathname)
    (snd (snd (interp (traced h) (core.rimraf pathname recursive) (w, [])))) /\
  Forall (below pathname)
    (snd (snd (interp (traced h) (core.rimrafSync pathname recursive) (w, [])))).
Proof.
  split; (apply all_calls_trace; [| done]); apply rimraf_body_below;
    auto using promise_all_calls, for_each_calls.
Qed.

Lemma tolerate_ENOENT_code r :
  match core.tolerate_ENOENT r with
  | Throw e => has_code e "ENOENT" = false
  | Ok _ => True
  end.
Proof.
  destruct r as [| e]; [done |]. simpl.
  by destruct (has_code e "ENOENT") eqn:E.
Qed.

Lemma rimraf_body_step children depth pathname recursive {W : Type} (h : handler W) w :
  exists r w',
    interp h (core.rimraf_body children (S depth) pathname recursive) w
    = (core.tolerate_ENOENT r, w').
Proof.
  cbn [core.rimraf_body]. rewrite interp_mbind.
  destruct (interp h _ w) as [r w']. by exists r, w'.
Qed.

(** X10.  [rimraf] and [rimrafSync] never fail with ENOENT, whatever the
    file system answers; and when [lstat] reports the path missing they
    succeed after that one call. *)
Theorem rimraf_missing_is_success (pathname : Path) (recursive : option bool)
    {W : Type} (h : handler W) (w : W) :
  (forall rm, rm = core.rimraf \/ rm = core.rimrafSync ->
     match fst (interp h (rm pathname recursive) w) with
     | Throw e => has_code e "ENOENT" = false
     | Ok _ => True
     end) /\
  (forall rm err, rm = core.rimraf \/ rm = core.rimrafSync ->
     fst (h _ (Lstat pathname) w) = Throw err ->
     has_code err "ENOENT" = true ->
     interp (traced h) (rm pathname recursive) (w, [])
     = (Ok tt, (snd (h _ (Lstat pathname) w), [called (Lstat pathname)]))).
Proof.
  split.
  - intros rm [-> | ->]; unfold core.rimraf, core.rimrafSync, core.PATH_DEPTH;
      change 2048%nat with (S 2047).
    + destruct (rimraf_body_step core.promise_all 2047 pathname recursive h w)
        as (r & w' & ->). apply tolerate_ENOENT_code.
    + destruct (rimraf_body_step core.for_each 2047 pathname recursive h w)
        as (r & w' & ->). apply tolerate_ENOENT_code.
  - intros rm err Hrm Hl Hcode.
    assert (Hbody : forall children d,
      interp (traced h) (core.rimraf_body children (S d) pathname recursive) (w, [])
      = (Ok tt, (snd (h _ (Lstat pathname) w), [called (Lstat pathname)]))).
    { intros children d. cbn [core.rimraf_body].
      rewrite !interp_mbind, interp_call, traced_call, Hl. cbn [interp].
      unfold core.tolerate_ENOENT. by rewrite Hcode. }
    destruct Hrm as [-> | ->]; unfold core.rimraf, core.rimrafSync, core.PATH_DEPTH;
      change 2048%nat with (S 2047); apply Hbody.
Qed.

(** X11.  With [recursive: false], [rimraf] and [rimrafSync] remove at most
    one entry, the path itself: no [unlink] or [rmdir] is made on anything
    else, whatever the file system answers. *)
Theorem nonrecursive_rimraf_removes_only_path (pathname : Path)
    {W : Type} (h : handler W) (w : W) :
  forall rm, rm = core.rimraf \/ rm = core.rimrafSync ->
    let calls := snd (snd (interp (traced h) (rm pathname (Some false)) (w, []))) in
    filter (fun c => removes_entry c = true) calls = [] \/
    filter (fun c => removes_entry c = true) calls = [called (Unlink pathname)] \/
    filter (fun c => removes_entry c = true) calls = [called (Rmdir pathname)].
Proof.
  assert (Hbody : forall children d,
    (forall f, children f [] = Ret (Ok tt)) ->
    let calls := snd (snd (interp (traced h)
                   (core.rimraf_body children (S d) pathname (Some false)) (w, []))) in
    filter (fun c => removes_entry c = true) calls = [] \/
    filter (fun c => removes_entry c = true) calls = [called (Unlink pathname)] \/
    filter (fun c => removes_entry c = true) calls = [called (Rmdir pathname)]).
  { intros children d Hnil. cbn [core.rimraf_body].
    rewrite !interp_mbind, interp_call, traced_call. cbn beta iota.
    destruct (fst (h _ (Lstat pathname) w)) as [stat | err]; [| by left].
    destruct (isSymbolicLink stat).
    { rewrite interp_call, traced_call. right. by left. }
    destruct (isDirectory stat).
    2: { rewrite interp_call, traced_call. right. by left. }
    cbn zeta. rewrite interp_mbind, interp_call, traced_call. cbn beta iota.
    destruct (fst (h _ (Readdir pathname) _)) as [contents | err]; [| by left].
    destruct contents as [| item rest]; [| by left].
    cbn [negb andb default length Nat.ltb Nat.leb from_option option_rect].
    simpl (negb _ && _). rewrite Hnil. cbn [mbind]. 
    rewrite interp_mbind. cbn [interp]. rewrite interp_call, traced_call.
    right. by right. }
  intros rm [-> | ->]; unfold core.rimraf, core.rimrafSync, core.PATH_DEPTH;
    change 2048%nat with (S 2047); by apply Hbody.
Qed.

End RimrafMore.

Lemma rimraf_missing_witness :
  interp (traced memfs.run) (core.rimraf (example.store ++ ["gone"%string]) None)
    (example.disk 0, [])
  = (Ok tt, (example.disk 0, [called (Lstat (example.store ++ ["gone"%string]))])).
Proof.
  exact (proj2 (rimraf_missing_is_success (example.store ++ ["gone"%string]) None
                  memfs.run (example.disk 0))
           core.rimraf (SystemError "ENOENT") (or_introl eq_refl) eq_refl eq_refl).
Defined.

Lemma nonrecursive_rimraf_witness :
  let calls := snd (snd (interp (traced memfs.run)
                 (core.rimrafSync example.store (Some false)) (example.used_disk 0, []))) in
  filter (fun c => removes_entry c = true) calls = [] \/
  filter (fun c => removes_entry c = true) calls = [called (Unlink example.store)] \/
  filter (fun c => removes_entry c = true) calls = [called (Rmdir example.store)].
Proof.
  exact (nonrecursive_rimraf_removes_only_path example.store memfs.run
           (example.used_disk 0) core.rimrafSync (or_intror eq_refl)).
Defined.

Section FoldersMore.
Context {W : Type} (h : handler W).

(** The disk does not change under [lstat]. *)
Hypothesis lstat_reads : forall p w, snd (h _ (Lstat p) w) = w.

Lemma scan_all_present pathname w dc :
  Forall (fun entry => exists st, fst (h _ (Lstat (path_join pathname [entry])) w) = Ok st) dc ->
  interp h (folders.scan pathname dc) w = (Ok (existsb (folders.is_folder h pathname w) dc), w).
Proof.
  induction 1 as [| entry rest [st Hst] _ IH]; [done |].
  cbn [folders.scan existsb]. unfold folders.is_folder at 1. rewrite Hst.
  rewrite interp_mbind, interp_call.
  pose proof (lstat_reads (path_join pathname [entry]) w) as Hw.
  destruct (h _ (Lstat (path_join pathname [entry])) w) as [x w']. simpl in *. subst.
  by destruct (isDirectory st).
Qed.

Lemma scan_vanished pathname w pre entry post err :
  Forall (fun e => exists st, fst (h _ (Lstat (path_join pathname [e])) w) = Ok st /\
                              isDirectory st = false) pre ->
  fst (h _ (Lstat (path_join pathname [entry])) w) = Throw err ->
  interp h (folders.scan pathname (pre ++ entry :: post)) w = (Throw err, w).
Proof.
  intros Hpre Herr. induction Hpre as [| e rest (st & Hst & Hd) _ IH].
  - cbn [app folders.scan]. rewrite interp_mbind, interp_call.
    pose proof (lstat_reads (path_join pathname [entry]) w) as Hw.
    destruct (h _ (Lstat (path_join pathname [entry])) w) as [x w']. simpl in *.
    by subst.
  - cbn [app folders.scan]. rewrite interp_mbind, interp_call.
    pose proof (lstat_reads (path_join pathname [e]) w) as Hw.
    destruct (h _ (Lstat (path_join pathname [e])) w) as [x w']. simpl in *.
    subst. by rewrite Hd.
Qed.

(** X12.  On a disk that holds still, [hasFolders] and [hasFoldersSync]
    answer whether some listed entry is a directory when every entry can be
    inspected; but an entry that is listed and then found missing ends the
    scan with [false], whatever the entries after it are. *)
Theorem hasFolders_scan (pathname : Path) (w : W) (dc : list string) :
  h _ (Readdir pathname) w = (Ok dc, w) ->
  (Forall (fun entry => exists st,
             fst (h _ (Lstat (path_join pathname [entry])) w) = Ok st) dc ->
   interp h (folders.hasFolders pathname) w
     = (Ok (existsb (folders.is_folder h pathname w) dc), w) /\
   interp h (folders.hasFoldersSync pathname) w
     = (Ok (existsb (folders.is_folder h pathname w) dc), w)) /\
  (forall pre entry post err,
     dc = pre ++ entry :: post ->
     Forall (fun e => folders.is_folder h pathname w e = false /\
                      exists st, fst (h _ (Lstat (path_join pathname [e])) w) = Ok st) pre ->
     fst (h _ (Lstat (path_join pathname [entry])) w) = Throw err ->
     has_code err "ENOENT" = true ->
     interp h (folders.hasFolders pathname) w = (Ok false, w) /\
     interp h (folders.hasFoldersSync pathname) w = (Ok false, w)).
Proof.
  intros Hdir. split.
  - intros Hall. unfold folders.hasFolders, folders.hasFoldersSync.
    rewrite !interp_mbind, interp_call, Hdir, (scan_all_present _ _ _ Hall). done.
  - intros pre entry post err -> Hpre Herr Hcode.
    unfold folders.hasFolders, folders.hasFoldersSync.
    rewrite !interp_mbind, interp_call, Hdir.
    rewrite (scan_vanished pathname w pre entry post err); [| | done].
    + cbn [interp folders.missing_is_false]. by rewrite Hcode.
    + eapply Forall_impl; [exact Hpre |]. intros e [Hf [st Hst]].
      exists st. split; [done |]. unfold folders.is_folder in Hf. by rewrite Hst in Hf.
Qed.

End FoldersMore.

(** X13.  [hasFolders] and [hasFoldersSync] only read: every call they can
    make is a [readdir] or an [lstat]. *)
Theorem hasFolders_reads_only (pathname : Path) {W : Type} (h : handler W) (w : W) :
  Forall (fun c => reads_only c = true)
    (snd (snd (interp (traced h) (folders.hasFolders pathname) (w, [])))) /\
  Forall (fun c => reads_only c = true)
    (snd (snd (interp (traced h) (folders.hasFoldersSync pathname) (w, [])))).
Proof.
  assert (Hscan : forall dc, all_calls (fun c => reads_only c = true)
                               (folders.scan pathname dc)).
  { induction dc as [| entry rest IH]; [done |]. cbn [folders.scan].
    apply all_calls_mbind; [by apply all_calls_call |].
    intros [st |]; [| done]. by destruct (isDirectory st). }
  split; (apply all_calls_trace; [| done]);
    (apply all_calls_mbind; [| done]);
    (apply all_calls_mbind; [by apply all_calls_call |]);
    by intros [dc |].
Qed.

Lemma hasFolders_scan_witness :
  interp (folders.listing ["a"; "b"]%string folders.a_is_gone)
    (folders.hasFolders ["d"%string]) tt
  = (Ok false, tt).
Proof.
  exact (proj1 (proj2 (hasFolders_scan (folders.listing ["a"; "b"]%string folders.a_is_gone)
                         (fun _ _ => eq_refl) ["d"%string] tt ["a"; "b"]%string eq_refl)
                 [] "a"%string ["b"%string] (SystemError "ENOENT")
                 eq_refl (Forall_nil_2 _) eq_refl eq_refl)).
Defined.

Section TemporaryDirectoryMore.
Import TemporaryDirectory admission ops.

Lemma subarray_prefix (b : Buffer) (e : Z) :
  fsread.subarray b 0 (Some e)
  = take (Z.to_nat (if e <? 0 then byteLength b + e else e)) b.
Proof.
  unfold fsread.subarray, fsread.clamp_index, byteLength.
  replace (0 <? 0) with false by done.
  rewrite (Z.min_l 0) by lia. simpl (Z.to_nat 0). rewrite drop_0.
  destruct (e <? 0) eqn:He.
  - apply Z.ltb_lt in He. f_equal. lia.
  - apply Z.ltb_ge in He.
    destruct (decide (e <= Z.of_nat (length b))) as [Hle | Hgt].
    + f_equal. lia.
    + rewrite Z.min_r by lia. rewrite !take_ge; [done | lia | lia].
Qed.

(** X14.  [truncateWithMaxSize(content)] keeps a prefix of the content.
    When the ledger is within the quota the kept bytes are exactly what
    still fits, and [canWriteBuffer] accepts them.  When the ledger is
    already over the quota the end index is negative and counts from the end
    of the content: the kept bytes are the content without its last
    [sizeof - maxSize] bytes, and [canWriteBuffer] refuses them. *)
Theorem truncateWithMaxSize_keeps (this : t) (content : K) (buffer : Buffer) :
  chunkToBuffer content = Ok buffer ->
  exists kept,
    truncateWithMaxSize this content false = Ok kept /\
    kept `prefix_of` buffer /\
    canWriteBuffer this (KBuffer kept)
      = Ok (sizeof (state this) <=? maxSize (state this)) /\
    (canWriteBuffer this content = Ok true -> kept = buffer) /\
    (canWriteBuffer this content = Ok false ->
     byteLength kept =
       if sizeof (state this) <=? maxSize (state this)
       then maxSize (state this) - sizeof (state this)
       else Z.max 0 (byteLength buffer - (sizeof (state this) - maxSize (state this)))).
Proof.
  intros Hc. unfold truncateWithMaxSize, canWriteBuffer. rewrite Hc.
  cbn [chunkToBuffer]. unfold byteLength.
  destruct (sizeof (state this) + Z.of_nat (length buffer) <=? maxSize (state this)) eqn:Hfit.
  - exists buffer. apply Z.leb_le in Hfit.
    split; [done |]. split; [done |]. split; [| split; [done | done]].
    f_equal. transitivity true; [apply Z.leb_le; lia | symmetry; apply Z.leb_le; lia].
  - apply Z.leb_gt in Hfit. eexists. split; [reflexivity |].
    rewrite subarray_prefix. split; [apply prefix_take |].
    rewrite length_take. unfold byteLength.
    destruct (sizeof (state this) <=? maxSize (state this)) eqn:Hq.
    + apply Z.leb_le in Hq.
      replace (maxSize (state this) - sizeof (state this) <? 0) with false
        by (symmetry; apply Z.ltb_ge; lia).
      split; [f_equal; apply Z.leb_le; lia |]. split; [done |]. intros _. lia.
    + apply Z.leb_gt in Hq.
      replace (maxSize (state this) - sizeof (state this) <? 0) with true
        by (symmetry; apply Z.ltb_lt; lia).
      split; [f_equal; apply Z.leb_gt; lia |]. split; [done |]. intros _. lia.
Qed.

Lemma chunkToBuffer_throws chunk e :
  chunkToBuffer chunk = Throw e -> e = Exception ERR_INVALID_TYPE.
Proof. destruct chunk; simpl; intros ?; by simplify_eq. Qed.

Lemma masked_throws env buffer mask e :
  fsbin.masked env buffer mask = Throw e -> e = Exception ERR_INVALID_TYPE.
Proof.
  unfold fsbin.masked. destruct mask as [m |]; [| done].
  destruct (K_truthy m); [| done].
  destruct (chunkToBuffer m) eqn:Hm; [done |].
  intros ?; simplify_eq. by apply chunkToBuffer_throws in Hm.
Qed.

(** X15.  [canWriteBuffer(content)] answers [false] exactly when a buffered
    write of that content is refused with ERR_BUFFER_OVERFLOW before any
    call, for each of the six buffered writes. *)
Theorem canWriteBuffer_predicts_refusal (env : Codec.Env) (op : BufferedWrite)
    (this : t) (filename : Path) (contents : K) :
  token_available this op ->
  canWriteBuffer this contents = Ok false <->
  buffered env op this filename contents
    = Ret (Throw (Exception ERR_BUFFER_OVERFLOW), this).
Proof.
  intros Hav. unfold canWriteBuffer.
  assert (Hneg : forall n, (sizeof (state this) + n >? maxSize (state this))
                           = negb (sizeof (state this) + n <=? maxSize (state this))).
  { intros n. rewrite Z.gtb_ltb, Z.ltb_antisym. done. }
  destruct op as [ | | | | mask token removeOnError | mask]; cbn [buffered];
    unfold write, writeSync, append, appendSync, writeBinary, writeBinarySync.
  1-4: destruct (chunkToBuffer contents) as [buffer | e] eqn:Hc;
       [| apply chunkToBuffer_throws in Hc as ->; split; intros ?; simplify_eq];
       rewrite Hneg;
       destruct (sizeof (state this) + byteLength buffer <=? maxSize (state this));
       simpl; split; intros ?; by simplify_eq.
  - simpl in Hav. unfold default_token.
    assert (Htok : exists tok,
              match token with
              | Some tok => Ok tok
              | None => match source this with
                        | Some s => Ok (cancellation.token s)
                        | None => Throw TypeError
                        end
              end = Ok tok).
    { destruct token; [by eexists |]. destruct (source this); [by eexists | done]. }
    destruct Htok as [tok ->].
    destruct (chunkToBuffer contents) as [buffer | e] eqn:Hc.
    2: { apply chunkToBuffer_throws in Hc as ->. simpl. split; intros ?; simplify_eq. }
    rewrite Hneg.
    destruct (sizeof (state this) + byteLength buffer <=? maxSize (state this)).
    2: { simpl. split; intros ?; by simplify_eq. }
    simpl. split; [intros ?; simplify_eq |].
    unfold fsbin.writeBinary. rewrite Hc.
    destruct (cancellation.cancelled (Some tok)).
    { simpl. destruct removeOnError; simpl; intros ?; simplify_eq. }
    destruct (fsbin.masked env buffer mask) as [data | e] eqn:Hm.
    + simpl. intros ?; simplify_eq.
    + apply masked_throws in Hm as ->. simpl. intros ?; simplify_eq.
  - destruct (chunkToBuffer contents) as [buffer | e] eqn:Hc.
    2: { apply chunkToBuffer_throws in Hc as ->. split; intros ?; simplify_eq. }
    rewrite Hneg.
    destruct (sizeof (state this) + byteLength buffer <=? maxSize (state this)).
    2: { simpl. split; intros ?; by simplify_eq. }
    simpl. split; [intros ?; simplify_eq |].
    unfold fsbin.writeBinarySync. rewrite Hc.
    destruct (fsbin.masked env buffer mask) as [data | e] eqn:Hm.
    + simpl. intros ?; simplify_eq.
    + apply masked_throws in Hm as ->. simpl. intros ?; simplify_eq.
Qed.



(** X18.  A [dispose()] that fails (the directory could not be removed)
    has already dropped the token source and has not set the mark: the
    instance is left not disposed, with its ledger as it was, and without a
    source.  A second [dispose()] then throws a TypeError before any call,
    so the directory is never removed through this instance, and every
    operation that would read the default token throws as well. *)
Theorem failed_dispose_is_final (this : t) {W : Type} (h : handler W) (w : W)
    (e : Error) (this1 : t) (w1 : W) :
  source this <> None ->
  interp h (dispose this) w = ((Throw e, this1), w1) ->
  this1 = set_source None this /\
  disposed (state this1) = false /\
  dispose this1 = Ret (Throw TypeError, this1) /\
  default_token this1 None = Throw TypeError.
Proof.
  intros Hsrc. unfold dispose at 1.
  destruct (disposed (state this)) eqn:Hd; [by intros ?; simplify_eq |].
  destruct (source this) as [s |]; [clear Hsrc | done].
  cbn zeta. rewrite interp_mbind.
  destruct (interp h _ w) as [[[] | e'] w2]; simpl; intros ?; simplify_eq.
  split; [done |]. split; [done |]. unfold dispose, default_token. simpl.
  by rewrite Hd.
Qed.

(** X19.  [writeBinary] called with [removeOnError] and a token that is
    already cancelled: no byte is written, yet the entry of that name is
    unlinked, whatever it held before, and the ledger is not touched.
    Without [removeOnError] no call is made at all. *)
Theorem cancelled_writeBinary_unlinks (env : Codec.Env) (this : t)
    (filename : Path) (contents : K) (buffer : Buffer) (mask : option K)
    (tok : CancellationToken) {W : Type} (h : handler W) (w : W) :
  chunkToBuffer contents = Ok buffer ->
  sizeof (state this) + byteLength buffer <= maxSize (state this) ->
  cancellation.isCancellationRequested tok = true ->
  let filepath := path_join (pathname (state this)) filename in
  writeBinary env this filename contents mask (Some tok) false
    = Ret (Throw (Exception ERR_TOKEN_CANCELED), this) /\
  interp (traced h) (writeBinary env this filename contents mask (Some tok) true) (w, [])
    = ((match fst (h _ (Unlink filepath) w) with
        | Throw fsErr =>
            if has_code fsErr "ENOENT" then Throw (Exception ERR_TOKEN_CANCELED)
            else Throw fsErr
        | Ok _ => Throw (Exception ERR_TOKEN_CANCELED)
        end, this),
       (snd (h _ (Unlink filepath) w), [called (Unlink filepath)])).
Proof.
  intros Hc Hfit Hcan filepath. subst filepath.
  assert (Hle : (sizeof (state this) + byteLength buffer >? maxSize (state this)) = false).
  { apply not_true_is_false. intros H%Z.gtb_lt. lia. }
  unfold writeBinary. cbn [default_token]. rewrite Hc, Hle.
  unfold fsbin.writeBinary. cbn [cancellation.cancelled]. rewrite Hcan.
  split; [done |].
  rewrite !interp_mbind. cbn [interp]. unfold remove_on_error.
  change (isKnownError (Exception ERR_TOKEN_CANCELED) ERR_TOKEN_CANCELED && true)
    with true. cbn iota.
  rewrite interp_mbind, interp_call, traced_call. cbn beta iota.
  destruct (fst (h _ (Unlink _) w)) as [[] | fsErr]; [done |].
  by destruct (has_code fsErr "ENOENT").
Qed.

End TemporaryDirectoryMore.

Lemma truncateWithMaxSize_keeps_witness :
  exists kept,
    admission.truncateWithMaxSize (example.instance 10 8) (KString "12345") false = Ok kept /\
    byteLength kept = 3 /\
    admission.canWriteBuffer (example.instance 10 8) (KBuffer kept) = Ok false.
Proof.
  destruct (truncateWithMaxSize_keeps (example.instance 10 8) (KString "12345") _ eq_refl)
    as (kept & H1 & _ & H3 & _ & H5).
  exists kept. split; [exact H1 |]. split; [exact (H5 eq_refl) | exact H3].
Defined.

Lemma canWriteBuffer_predicts_refusal_witness :
  ops.buffered example.env ops.Append (example.instance 8 10) ["f"%string] (KString "12345")
  = Ret (Throw (Exception ERR_BUFFER_OVERFLOW), example.instance 8 10).
Proof.
  exact (proj1 (canWriteBuffer_predicts_refusal example.env ops.Append
                  (example.instance 8 10) ["f"%string] (KString "12345") I) eq_refl).
Defined.



Lemma failed_dispose_is_final_witness :
  let this1 := TemporaryDirectory.set_source None (example.instance 5 10) in
  TemporaryDirectory.disposed (TemporaryDirectory.state this1) = false /\
  TemporaryDirectory.dispose this1 = Ret (Throw TypeError, this1).
Proof.
  intros this1.
  destruct (failed_dispose_is_final (example.instance 5 10) locked (example.disk 0)
              (SystemError "EACCES") this1 (example.disk 0)
              ltac:(discriminate) ltac:(vm_compute; reflexivity))
    as (_ & Hd & Hr & _).
  exact (conj Hd Hr).
Defined.

Lemma cancelled_writeBinary_unlinks_witness :
  let '((r, this), (w, calls)) :=
    interp (traced memfs.run)
      (TemporaryDirectory.writeBinary example.env (example.instance 7 10)
         ["old"%string] (KString "abc") None (Some example.cancelled_token) true)
      (example.used_disk 0, []) in
  r = Throw (Exception ERR_TOKEN_CANCELED) /\
  TemporaryDirectory.sizeof (TemporaryDirectory.state this) = 7 /\
  memfs.nodes w !! (example.store ++ ["old"%string]) = None.
Proof.
  rewrite (proj2 (cancelled_writeBinary_unlinks example.env (example.instance 7 10)
                    ["old"%string] (KString "abc") _ None example.cancelled_token
                    memfs.run (example.used_disk 0) eq_refl
                    ltac:(vm_compute; discriminate) eq_refl)).
  vm_compute. repeat split; reflexivity.
Defined.

Section DownloadMore.
Import DownloadService.

Lemma all_calls_impl {A : Type} (P Q : {X : Type & fsE X} -> Prop) (m : prog A) :
  (forall c, P c -> Q c) -> all_calls P m -> all_calls Q m.
Proof.
  intros HPQ. induction m as [a | X e k IH]; [done |].
  intros [He Hk]. split; [by apply HPQ |]. intros x. apply IH, Hk.
Qed.

Lemma cancel_listener_calls destPath :
  all_calls (fun c => file_transfer_call c = true /\ network_transfer_call c = true)
    (cancel_listener destPath).
Proof.
  unfold cancel_listener. apply all_calls_mbind; [by apply all_calls_call |].
  intros []; [| done]. apply all_calls_mbind; [by apply all_calls_call | done].
Qed.

Lemma pump_calls destPath guarded chunks total readed last :
  all_calls (fun c => file_transfer_call c = true /\ network_transfer_call c = true)
    (pump destPath guarded chunks total readed last).
Proof.
  revert readed last. induction chunks as [| buffer rest IH]; intros readed last; [done |].
  cbn [pump]. apply all_calls_mbind; [by apply all_calls_call |]. intros ok.
  apply all_calls_mbind.
  { destruct ok; [done | by apply all_calls_call]. }
  intros [[] | e].
  - apply all_calls_mbind; [by apply all_calls_call |]. intros _. apply IH.
  - destruct guarded; [done | apply IH].
Qed.

Lemma exec_file_calls this destPath :
  all_calls (fun c => file_transfer_call c = true) (exec_file this destPath).
Proof.
  unfold exec_file. cbn zeta. apply all_calls_mbind.
  { destruct (cancellation.isCancellationRequested _); [| done].
    eapply all_calls_impl; [| apply cancel_listener_calls]. by intros c [? _]. }
  intros [[] | e]; [| done].
  apply all_calls_mbind; [by apply all_calls_call |]. intros ts.
  apply all_calls_mbind; [by apply all_calls_call |]. intros [stat | e]; [| done].
  apply all_calls_mbind; [by apply all_calls_call |]. intros d.
  apply all_calls_mbind; [by apply all_calls_call |]. intros _.
  apply all_calls_mbind; [by apply all_calls_call |]. intros _.
  apply all_calls_mbind.
  { eapply all_calls_impl; [| apply pump_calls]. by intros c [? _]. }
  intros [[readed last] | e]; [| done].
  destruct (failure d); [done |].
  apply all_calls_mbind; [by apply all_calls_call |]. intros _.
  apply all_calls_mbind; [by apply all_calls_call | done].
Qed.

Lemma exec_network_calls this destPath :
  all_calls (fun c => network_transfer_call c = true) (exec_network this destPath).
Proof.
  unfold exec_network. cbn zeta. apply all_calls_mbind.
  { destruct (cancellation.isCancellationRequested _); [| done].
    eapply all_calls_impl; [| apply cancel_listener_calls]. by intros c [_ ?]. }
  intros [[] | e]; [| done].
  apply all_calls_mbind; [by apply all_calls_call |]. intros ts.
  apply all_calls_mbind; [by apply all_calls_call |]. intros [response | e]; [| done].
  destruct (negb _); [done |].
  apply all_calls_mbind; [by apply all_calls_call |]. intros _.
  apply all_calls_mbind.
  { eapply all_calls_impl; [| apply pump_calls]. by intros c [_ ?]. }
  intros [[readed last] | e]; [| done].
  destruct (failure (body response)); [done |].
  apply all_calls_mbind; [by apply all_calls_call | done].
Qed.

Lemma with_timeout_calls P this overrides exec :
  all_calls P exec ->
  (forall ms, P (called (Deadline ms))) ->
  all_calls P (with_timeout this overrides exec).
Proof.
  intros Hexec Hd. unfold with_timeout.
  destruct (hasTimeout this overrides); [| done].
  destruct (time_of this overrides) as [time |]; [| done].
  destruct (time <? 0); [done |].
  apply all_calls_mbind; [done |]. intros [r this'].
  apply all_calls_mbind; [by apply all_calls_call | done].
Qed.

(** X20.  [download()] on a locator that starts with [file:] never makes a
    request over the network, and on any other locator never reads a local
    file ([stat], [createReadStream]): whatever the environment answers and
    whatever the overrides are. *)
Theorem locator_selects_transport (this : t) (overrides : option DownloadOptions)
    {W : Type} (h : handler W) (w : W) :
  let calls := snd (snd (interp (traced h) (download this overrides) (w, []))) in
  if startsWith "file:" (source (metadata this))
  then Forall (fun c => is_network c = false) calls
  else Forall (fun c => is_local_read c = false) calls.
Proof.
  cbn zeta. unfold download, downloadFromFile.
  destruct (startsWith "file:" (source (metadata this))) eqn:Hf; cbn [negb].
  - apply all_calls_trace; [| done].
    destruct (install_token this overrides) as [this' | e]; [| done].
    destruct (destPath_of this' overrides) as [destPath |]; [| done].
    apply with_timeout_calls; [| done].
    eapply all_calls_impl; [| apply exec_file_calls].
    intros [X e]. by destruct e.
  - apply all_calls_trace; [| done].
    apply all_calls_mbind; [by apply all_calls_call |]. intros _.
    destruct (install_token this overrides) as [this' | e]; [| done].
    destruct (destPath_of this' overrides) as [destPath |]; [| done].
    apply with_timeout_calls; [| done].
    eapply all_calls_impl; [| apply exec_network_calls].
    intros [X e]. by destruct e.
Qed.

Lemma omap_deadline_none calls :
  Forall (fun c => deadline_of c = None) calls -> omap deadline_of calls = [].
Proof.
  induction 1 as [| c rest Hc _ IH]; [done |]. simpl. by rewrite Hc.
Qed.

Lemma with_timeout_deadlines this overrides exec {W : Type} (h : handler W) w :
  all_calls (fun c => deadline_of c = None) exec ->
  forall calls0, Forall (fun c => deadline_of c = None) calls0 ->
  omap deadline_of
    (snd (snd (interp (traced h) (with_timeout this overrides exec) (w, calls0))))
  = if hasTimeout this overrides then
      match time_of this overrides with
      | Some time => if time <? 0 then [] else [time]
      | None => []
      end
    else [].
Proof.
  intros Hexec calls0 H0. unfold with_timeout.
  destruct (hasTimeout this overrides).
  2: { apply omap_deadline_none. by apply all_calls_trace. }
  destruct (time_of this overrides) as [time |]; [| by apply omap_deadline_none].
  destruct (time <? 0); [by apply omap_deadline_none |].
  rewrite interp_mbind.
  pose proof (all_calls_trace (P := fun c => deadline_of c = None) h exec w calls0 Hexec H0)
    as Ht.
  destruct (interp (traced h) exec (w, calls0)) as [[r this'] [w1 calls1]].
  simpl in Ht. rewrite interp_mbind, interp_call, traced_call. cbn [interp snd].
  rewrite omap_app, (omap_deadline_none _ Ht). done.
Qed.

(** X21.  The deadline of [download()], for timeouts that are integers.  In
    any environment at most one
    timer is started, and only when the timeout of the instance or of the
    overrides is above 2; its delay is then the timeout of the overrides
    when that is not zero, whatever its size, and the timeout of the
    instance otherwise.  So a timeout of 1 or 2 alone starts no timer, an
    override of 1 shortens a longer timeout of the instance to 1, and a
    negative override beside a timeout of the instance above 2 is refused
    with an AssertionError before the transfer. *)
Theorem deadline_selection (this : t) (overrides : option DownloadOptions)
    {W : Type} (h : handler W) (w : W) :
  let over : option Z := overrides ≫= timeout in
  let inst : option Z := timeout (options (metadata this)) in
  let armed : bool := match inst with Some i => 2 <? i | None => false end ||
                      match over with Some o => 2 <? o | None => false end in
  let time : Z := match truthy_number over with
                  | Some o => o
                  | None => default 0 inst
                  end in
  let calls : list {X : Type & fsE X} :=
    snd (snd (interp (traced h) (download this overrides) (w, []))) in
  (omap deadline_of calls = [] \/
   omap deadline_of calls = [time] /\ armed = true /\ 0 <= time) /\
  (forall this' destPath,
     install_token this overrides = Ok this' ->
     destPath_of this' overrides = Some destPath ->
     armed = true ->
     (0 <= time -> omap deadline_of calls = [time]) /\
     (time < 0 ->
      download this overrides =
        if startsWith "file:" (source (metadata this))
        then Ret (Throw AssertionError, this')
        else Call ConsoleLog (fun _ => Ret (Throw AssertionError, this')))).
Proof.
  cbn zeta.
  assert (Hmeta : forall this', install_token this overrides = Ok this' ->
                                metadata this' = metadata this).
  { unfold install_token. intros this'. destruct (overrides ≫= token) as [tok |].
    - destruct (cancellation.isCancellationRequested tok); intros ?; by simplify_eq.
    - intros ?; by simplify_eq. }
  assert (Harm : forall this', metadata this' = metadata this ->
            hasTimeout this' overrides =
              (match timeout (options (metadata this)) with
               | Some i => 2 <? i | None => false end ||
               match overrides ≫= timeout with Some o => 2 <? o | None => false end)).
  { intros this' Hm. unfold hasTimeout. by rewrite Hm. }
  assert (Htime : forall this', metadata this' = metadata this ->
            hasTimeout this' overrides = true ->
            time_of this' overrides =
              Some (match truthy_number (overrides ≫= timeout) with
                    | Some o => o
                    | None => default 0 (timeout (options (metadata this)))
                    end)).
  { intros this' Hm. unfold hasTimeout, time_of. rewrite Hm.
    destruct (overrides ≫= timeout) as [o |]; simpl.
    - destruct (decide (o = 0)) as [-> | Ho].
      + simpl. destruct (timeout (options (metadata this))) as [i |]; [| done].
        simpl. rewrite orb_false_r. intros Hi%Z.ltb_lt.
        destruct i; try lia; done.
      + intros _. by destruct o.
    - rewrite orb_false_r.
      destruct (timeout (options (metadata this))) as [i |]; [| done].
      simpl. intros Hi%Z.ltb_lt. destruct i; try lia; done. }
  assert (Hcalls : forall (exec : t -> Path -> prog (Result Buffer * t)) calls0,
    (forall a b, all_calls (fun c => deadline_of c = None) (exec a b)) ->
    Forall (fun c => deadline_of c = None) calls0 ->
    forall w0,
    let calls := snd (snd (interp (traced h)
      match install_token this overrides with
      | Throw e => Ret (Throw e, this)
      | Ok this =>
          match destPath_of this overrides with
          | None => Ret (Throw (Exception ERR_INVALID_ARGUMENT), this)
          | Some destPath =>
              with_timeout this overrides (exec this (split_path destPath))
          end
      end (w0, calls0))) in
    (omap deadline_of calls = [] \/
     omap deadline_of calls =
       [match truthy_number (overrides ≫= timeout) with
        | Some o => o
        | None => default 0 (timeout (options (metadata this)))
        end] /\
     (match timeout (options (metadata this)) with
      | Some i => 2 <? i | None => false end ||
      match overrides ≫= timeout with Some o => 2 <? o | None => false end) = true /\
     0 <= match truthy_number (overrides ≫= timeout) with
          | Some o => o
          | None => default 0 (timeout (options (metadata this)))
          end) /\
    (forall this' destPath,
       install_token this overrides = Ok this' ->
       destPath_of this' overrides = Some destPath ->
       (match timeout (options (metadata this)) with
        | Some i => 2 <? i | None => false end ||
        match overrides ≫= timeout with Some o => 2 <? o | None => false end) = true ->
       0 <= match truthy_number (overrides ≫= timeout) with
            | Some o => o
            | None => default 0 (timeout (options (metadata this)))
            end ->
       omap deadline_of calls =
         [match truthy_number (overrides ≫= timeout) with
          | Some o => o
          | None => default 0 (timeout (options (metadata this)))
          end])).
  { intros exec calls0 Hexec H0 w0. cbn zeta.
    destruct (install_token this overrides) as [this1 | e] eqn:Hi.
    2: { split; [left; by apply omap_deadline_none | by intros]. }
    pose proof (Hmeta this1 eq_refl) as Hm.
    destruct (destPath_of this1 overrides) as [destPath |] eqn:Hd.
    2: { split; [left; by apply omap_deadline_none | intros; simplify_eq]. }
    rewrite (with_timeout_deadlines this1 overrides _ h w0 (Hexec _ _) calls0 H0).
    rewrite (Harm this1 Hm).
    destruct (_ || _) eqn:Ha.
    2: { split; [by left | by intros]. }
    rewrite (Htime this1 Hm) by (by rewrite (Harm this1 Hm)).
    destruct (_ <? 0) eqn:Hneg.
    - apply Z.ltb_lt in Hneg. split; [by left |]. intros; lia.
    - apply Z.ltb_ge in Hneg. split; [by right | by intros]. }
  assert (Hfile : forall a b, all_calls (fun c => deadline_of c = None) (exec_file a b)).
  { intros a b. eapply all_calls_impl; [| apply exec_file_calls].
    intros [X e]. by destruct e. }
  assert (Hnet : forall a b, all_calls (fun c => deadline_of c = None) (exec_network a b)).
  { intros a b. eapply all_calls_impl; [| apply exec_network_calls].
    intros [X e]. by destruct e. }
  assert (Hrefused : forall (exec : t -> Path -> prog (Result Buffer * t)) this' destPath,
    install_token this overrides = Ok this' ->
    destPath_of this' overrides = Some destPath ->
    (match timeout (options (metadata this)) with
     | Some i => 2 <? i | None => false end ||
     match overrides ≫= timeout with Some o => 2 <? o | None => false end) = true ->
    match truthy_number (overrides ≫= timeout) with
    | Some o => o
    | None => default 0 (timeout (options (metadata this)))
    end < 0 ->
    match install_token this overrides with
    | Throw e => Ret (Throw e, this)
    | Ok this =>
        match destPath_of this overrides with
        | None => Ret (Throw (Exception ERR_INVALID_ARGUMENT), this)
        | Some destPath =>
            with_timeout this overrides (exec this (split_path destPath))
        end
    end = Ret (Throw AssertionError, this')).
  { intros exec this' destPath Hi Hd Ha Hneg. rewrite Hi, Hd. unfold with_timeout.
    pose proof (Hmeta this' Hi) as Hm.
    rewrite (Harm this' Hm), Ha, (Htime this' Hm) by (by rewrite (Harm this' Hm)).
    by rewrite (proj2 (Z.ltb_lt _ _) Hneg). }
  unfold download, downloadFromFile.
  destruct (startsWith "file:" (source (metadata this))) eqn:Hf; cbn [negb].
  - destruct (Hcalls exec_file [] Hfile ltac:(done) w) as [H1 H2]. split; [exact H1 |].
    intros this' destPath Hi Hd Ha. split; [by apply (H2 this' destPath) |].
    intros Hneg. by apply (Hrefused exec_file this' destPath).
  - rewrite interp_mbind, interp_call, traced_call. cbn beta iota.
    destruct (Hcalls exec_network ([] ++ [called ConsoleLog]) Hnet
                ltac:(by repeat constructor) (snd (h _ ConsoleLog w))) as [H1 H2].
    split; [exact H1 |].
    intros this' destPath Hi Hd Ha. split; [by apply (H2 this' destPath) |].
    intros Hneg. by rewrite (Hrefused exec_network this' destPath).
Qed.

End DownloadMore.

Lemma deadline_selection_witness :
  let overrides := Some {| DownloadService.destination := None;
                           DownloadService.token := None;
                           DownloadService.timeout := Some 1 |} in
  omap deadline_of
    (snd (snd (interp (traced memfs.run)
                 (DownloadService.download (downloader (Some 5000)) overrides)
                 (example.used_disk 0, []))))
  = [1].
Proof.
  intros overrides.
  exact (proj1 (proj2 (deadline_selection (downloader (Some 5000)) overrides memfs.run
                         (example.used_disk 0))
                  (downloader (Some 5000)) "/tmp/store/copy"%string
                  eq_refl eq_refl eq_refl)
           ltac:(vm_compute; discriminate)).
Defined.

Section ErrorCodes.
Import errors.
Variable normalize : string -> string.

Lemma maximum_ge l m : m <= maximum l m /\ Forall (fun x => x <= maximum l m) l.
Proof.
  revert m. induction l as [| x rest IH]; intros m; [split; [simpl; lia | done] |].
  cbn [maximum]. destruct (IH (Z.max m x)) as [H1 H2]. split; [lia |].
  constructor; [lia | done].
Qed.

Lemma maxValue_bounds (t : gmap string Z) :
  let maxValue := maximum (enum_numbers ++ (snd <$> map_to_list t)) 2 in
  8 <= maxValue /\ forall k n, t !! k = Some n -> n <= maxValue.
Proof.
  cbn zeta. destruct (maximum_ge (enum_numbers ++ (snd <$> map_to_list t)) 2) as [_ H].
  apply Forall_app in H as [He Ht]. split.
  - unfold enum_numbers in He. rewrite !Forall_cons in He. tauto.
  - intros k n Hk. rewrite Forall_forall in Ht. apply Ht.
    apply list_elem_of_fmap. exists (k, n). split; [done |].
    by apply elem_of_map_to_list.
Qed.

(** The loop keeps the entries it finds, gives every new name a code of
    its own above [maxValue], and registers every name that is not
    built in. *)
Lemma extend_loop_spec codes maxValue validCount (t : gmap string Z) :
  8 <= maxValue -> 0 <= validCount ->
  (forall k n, t !! k = Some n -> 8 < n <= maxValue + validCount) ->
  (forall k1 k2 n, t !! k1 = Some n -> t !! k2 = Some n -> k1 = k2) ->
  let t' := extend_loop normalize codes maxValue validCount t in
  well_formed t' /\
  t ⊆ t' /\
  (forall code, code ∈ codes -> ERROR_CODE (normalize code) = None ->
                is_Some (t' !! normalize code)) /\
  (forall k, is_Some (t' !! k) ->
             is_Some (t !! k) \/ exists code, code ∈ codes /\ k = normalize code) /\
  (forall k n, t' !! k = Some n -> t !! k = None -> maxValue + validCount < n).
Proof.
  revert validCount t. induction codes as [| code rest IH]; intros c t HM Hc Hrange Hinj.
  - cbn zeta. simpl. split; [split; [intros k n H; by apply Hrange in H as [? _] | done] |].
    split; [done |]. split; [by intros code H%elem_of_nil |].
    split; [by left |]. intros k n H1 H2. by rewrite H1 in H2.
  - cbn zeta. cbn [extend_loop].
    destruct (bool_decide (is_Some (ERROR_CODE (normalize code)))) eqn:Henum.
    + cbn [orb]. destruct (IH c t HM Hc Hrange Hinj) as (Hwf & Hsub & Hreg & Hnew & Habove).
      split; [done |]. split; [done |]. split; [| split; [| done]].
      * intros code' [-> | Hin]%elem_of_cons Hnone; [| by apply Hreg].
        apply bool_decide_eq_true in Henum. rewrite Hnone in Henum. by destruct Henum.
      * intros k Hk. destruct (Hnew k Hk) as [? | (code' & ? & ?)]; [by left |].
        right. exists code'. split; [by apply elem_of_cons; right | done].
    + cbn [orb]. destruct (t !! normalize code) as [n |] eqn:Hlook.
      * pose proof (Hrange _ _ Hlook) as [Hn _].
        replace (negb (n =? 0)) with true by (symmetry; apply negb_true_iff, Z.eqb_neq; lia).
        destruct (IH c t HM Hc Hrange Hinj) as (Hwf & Hsub & Hreg & Hnew & Habove).
        split; [done |]. split; [done |]. split; [| split; [| done]].
        -- intros code' [-> | Hin]%elem_of_cons Hnone; [| by apply Hreg].
           eapply lookup_weaken_is_Some; [| exact Hsub]. by eexists.
        -- intros k Hk. destruct (Hnew k Hk) as [? | (code' & ? & ?)]; [by left |].
           right. exists code'. split; [by apply elem_of_cons; right | done].
      * destruct (IH (c + 1) (<[normalize code := maxValue + c + 1]> t) HM ltac:(lia))
          as (Hwf & Hsub & Hreg & Hnew & Habove).
        { intros k n. rewrite lookup_insert_Some.
          intros [[_ <-] | [_ H]]; [lia |]. apply Hrange in H. lia. }
        { intros k1 k2 n. rewrite !lookup_insert_Some.
          intros [[<- <-] | [? H1]] [[<- ?] | [? H2]]; try done.
          - apply Hrange in H2. lia.
          - apply Hrange in H1. lia.
          - by apply (Hinj k1 k2 n). }
        split; [done |].
        split; [etrans; [| exact Hsub]; by apply insert_subseteq |].
        split; [| split].
        -- intros code' [-> | Hin]%elem_of_cons Hnone; [| by apply Hreg].
           eapply lookup_weaken_is_Some; [| exact Hsub].
           rewrite lookup_insert_eq. by eexists.
        -- intros k Hk. destruct (Hnew k Hk) as [Hold | (code' & ? & ?)].
           ++ apply lookup_insert_is_Some in Hold as [<- | [_ ?]]; [| by left].
              right. exists code. split; [by apply elem_of_cons; left | done].
           ++ right. exists code'. split; [by apply elem_of_cons; right | done].
        -- intros k n Hk Hnone.
           destruct (decide (k = normalize code)) as [-> | Hne].
           ++ assert (<[normalize code := maxValue + c + 1]> t !! normalize code
                      = Some (maxValue + c + 1)) as Hi by apply lookup_insert_eq.
              pose proof (lookup_weaken _ _ _ _ Hi Hsub) as Hi'.
              rewrite Hk in Hi'. injection Hi' as ->. lia.
           ++ assert (maxValue + (c + 1) < n); [| lia].
              apply (Habove k n Hk). by rewrite lookup_insert_ne.
Qed.

(** X22.  [ErrorCode.extend(codes)] on a table whose codes lie above the
    built-in ones and are pairwise distinct: the table stays so, no entry
    that was there is changed, every given name that is not built in is
    registered afterwards, nothing else is added, and each new code is
    above every code that existed before. *)
Theorem extend_assigns_fresh_codes (codes : list string) (t : gmap string Z) :
  well_formed t ->
  let t' := extend normalize codes t in
  well_formed t' /\
  t ⊆ t' /\
  (forall code, code ∈ codes -> ERROR_CODE (normalize code) = None ->
                is_Some (t' !! normalize code)) /\
  (forall k, is_Some (t' !! k) ->
             is_Some (t !! k) \/ exists code, code ∈ codes /\ k = normalize code) /\
  (forall k n k0 n0, t' !! k = Some n -> t !! k = None -> t !! k0 = Some n0 -> n0 < n).
Proof.
  intros [Habove Hinj]. cbn zeta. unfold extend.
  destruct (maxValue_bounds t) as [HM Hle].
  destruct (extend_loop_spec codes _ 0 t HM ltac:(lia)) as (Hwf & Hsub & Hreg & Hnew & Hfresh);
    [| done |].
  { intros k n H. split; [by apply (Habove k) |]. apply Hle in H. lia. }
  split; [done |]. split; [done |]. split; [done |]. split; [done |].
  intros k n k0 n0 Hk Hnone Hk0. apply Hle in Hk0.
  pose proof (Hfresh k n Hk Hnone). lia.
Qed.

End ErrorCodes.

(** X23.  The number of an error, for a table as [ErrorCode.extend] builds
    it: always at most -2; below -8 exactly for a registered name that is
    not built in, and then different for different names; and -2, the number
    of ERR_UNKNOWN_ERROR, for every name that is neither built in nor
    registered. *)
Theorem code_for_range (t : gmap string Z) (code : string) :
  errors.well_formed t ->
  errors.code_for t code <= -2 /\
  (errors.code_for t code < -8 <->
   errors.ERROR_CODE code = None /\ is_Some (t !! code)) /\
  (errors.ERROR_CODE code = None -> t !! code = None -> errors.code_for t code = -2) /\
  (forall other,
     errors.code_for t code < -8 ->
     errors.code_for t other = errors.code_for t code -> other = code).
Proof.
  intros [Habove Hinj].
  assert (Henum : forall c, match errors.ERROR_CODE c with
                            | Some (errors.Number n) => 2 <= n <= 8
                            | _ => True
                            end).
  { intros c. unfold errors.ERROR_CODE.
    repeat (destruct (String.eqb c _); [lia || done |]). done. }
  assert (Hval : forall c,
    errors.code_for t c =
      match errors.ERROR_CODE c with
      | Some (errors.Number n) => - n
      | Some (errors.Name _) => -2
      | None => match t !! c with Some n => - n | None => -2 end
      end).
  { intros c. unfold errors.code_for. pose proof (Henum c) as Hc.
    destruct (errors.ERROR_CODE c) as [[n | s] |]; [lia | done |].
    destruct (t !! c) as [n |] eqn:Hl; [| done].
    apply Habove in Hl. replace (n =? 0) with false by (symmetry; apply Z.eqb_neq; lia).
    lia. }
  assert (Hlow : forall c, errors.code_for t c < -8 ->
                           errors.ERROR_CODE c = None /\ exists n, t !! c = Some n /\
                           errors.code_for t c = - n).
  { intros c. rewrite Hval. pose proof (Henum c) as Hc.
    destruct (errors.ERROR_CODE c) as [[n | s] |]; [lia | lia |].
    destruct (t !! c) as [n |]; [| lia]. intros _. split; [done |]. by exists n. }
  split; [| split; [| split]].
  - rewrite Hval. pose proof (Henum code) as Hc.
    destruct (errors.ERROR_CODE code) as [[n | s] |]; [lia | lia |].
    destruct (t !! code) as [n |] eqn:Hl; [| lia]. apply Habove in Hl. lia.
  - split.
    + intros (Hn & n & Hl & _)%Hlow. split; [done | by exists n].
    + intros [Hn [n Hl]]. rewrite Hval, Hn, Hl. apply Habove in Hl. lia.
  - intros Hn Hl. by rewrite Hval, Hn, Hl.
  - intros other Hc Heq. pose proof Hc as Hc'. rewrite <- Heq in Hc'.
    apply Hlow in Hc as (_ & n & Hl & Hv). apply Hlow in Hc' as (_ & n' & Hl' & Hv').
    apply (Hinj other code n); [| done]. rewrite Hl'. f_equal. lia.
Qed.

Lemma extend_assigns_fresh_codes_witness :
  let t := errors.extend id ["ERR_BUFFER_OVERFLOW"; "ERR_TIMEOUT"; "ERR_HTTP_FAILURE"]%string ∅ in
  errors.well_formed t /\
  t !! "ERR_BUFFER_OVERFLOW"%string = Some 9 /\
  t !! "ERR_TIMEOUT"%string = None /\
  t !! "ERR_HTTP_FAILURE"%string = Some 10.
Proof.
  intros t.
  assert (Hempty : errors.well_formed ∅) by (split; intros *; by rewrite lookup_empty).
  split; [| vm_compute; repeat split; reflexivity].
  exact (proj1 (extend_assigns_fresh_codes id
                  ["ERR_BUFFER_OVERFLOW"; "ERR_TIMEOUT"; "ERR_HTTP_FAILURE"]%string ∅ Hempty)).
Defined.

Lemma code_for_range_witness :
  errors.code_for ∅ "ERR_BUFFER_OVERFLOW" = -2.
Proof.
  assert (Hempty : errors.well_formed ∅) by (split; intros *; by rewrite lookup_empty).
  exact (proj1 (proj2 (proj2 (code_for_range ∅ "ERR_BUFFER_OVERFLOW" Hempty)))
           eq_refl eq_refl).
Defined.

Section StreamReadMore.
Variable env : Codec.Env.


End StreamReadMore.


Section SignalMore.
Import WeakSignal.
Variable behave : Callback -> Behaviour.

Lemma run_ops_counts l this r this' :
  run_ops l this = (r, this') ->
  modifyCount this <= modifyCount this' /\
  (r = Ok tt -> l <> [] -> modifyCount this < modifyCount this') /\
  strict this' = strict this.
Proof.
  revert this. induction l as [| op rest IH]; intros this.
  - simpl. intros ?; simplify_eq. split; [lia | done].
  - destruct op as [c | c |]; cbn [run_ops].
    + intros H. apply IH in H as (H1 & H2 & H3). simpl in *.
      split; [lia |]. split; [| done]. intros Hr _.
      destruct rest; [simpl in *; lia |]. specialize (H2 Hr ltac:(done)). lia.
    + unfold removeListener. destruct (findIndex c (listeners this)) as [i |].
      * intros H. apply IH in H as (H1 & H2 & H3). simpl in *.
        split; [lia |]. split; [| done]. intros Hr _.
        destruct rest; [simpl in *; lia |]. specialize (H2 Hr ltac:(done)). lia.
      * intros ?; simplify_eq. split; [lia | done].
    + intros H. apply IH in H as (H1 & H2 & H3). simpl in *.
      split; [lia |]. split; [| done]. intros Hr _.
      destruct rest; [simpl in *; lia |]. specialize (H2 Hr ltac:(done)). lia.
Qed.

Lemma dispatch_loop_quiet snapshot count0 this called :
  Forall (quiet behave) snapshot -> count0 = modifyCount this ->
  dispatch_loop behave snapshot count0 this called
  = (Ok (if strict this then None else Some CONTINUE), this, called ++ snapshot).
Proof.
  intros Hq Hc. revert called. induction Hq as [| c rest [Hops Hret] _ IH]; intros called.
  - by rewrite app_nil_r.
  - cbn [dispatch_loop]. rewrite Hops. cbn [run_ops].
    rewrite decide_False by done. rewrite decide_True by done.
    rewrite IH. by rewrite <- app_assoc.
Qed.

(** X25.  [dispatch] calls the listeners in the order they were added.  When
    none of them touches the signal or asks to stop, all are called, the
    signal is as before and the result is CONTINUE (null for a strict signal).
    The first listener that asks to stop, or that adds or removes a listener
    or clears the signal, is the last one called, and the result is then
    STOP_PROPAGATION even if that listener returned CONTINUE. *)
Theorem dispatch_order (this : t) :
  (Forall (quiet behave) (listeners this) ->
   dispatch behave this
   = (Ok (if strict this then None else Some CONTINUE), this, listeners this)) /\
  (forall pre callback post this',
     listeners this = pre ++ callback :: post ->
     Forall (quiet behave) pre ->
     ~ quiet behave callback ->
     run_ops (ops (behave callback)) this = (Ok tt, this') ->
     dispatch behave this = (Ok (Some STOP_PROPAGATION), this', pre ++ [callback])).
Proof.
  split.
  - intros Hq. unfold dispatch. by rewrite dispatch_loop_quiet.
  - intros pre callback post this' Hl Hpre Hloud Hrun. unfold dispatch. rewrite Hl.
    assert (Hgo : forall called,
      dispatch_loop behave (pre ++ callback :: post) (modifyCount this) this called
      = (Ok (Some STOP_PROPAGATION), this', called ++ pre ++ [callback])).
    { clear Hl. induction Hpre as [| c rest [Hops Hret] _ IH]; intros called.
      - cbn [app dispatch_loop]. rewrite Hrun.
        destruct (decide (returns (behave callback) = Some STOP_PROPAGATION)); [done |].
        destruct (decide (modifyCount this = modifyCount this')) as [Heq | ?]; [| done].
        exfalso. apply Hloud. split; [| done].
        destruct (ops (behave callback)) as [| op l] eqn:Hops; [done |].
        apply run_ops_counts in Hrun as (_ & H & _).
        specialize (H eq_refl ltac:(done)). lia.
      - cbn [app dispatch_loop]. rewrite Hops. cbn [run_ops].
        rewrite decide_False by done. rewrite decide_True by done.
        rewrite IH. by rewrite <- app_assoc. }
    apply Hgo.
Qed.

End SignalMore.

Section SignalRemoval.
Import WeakSignal.

Lemma findIndex_None listener arr :
  findIndex listener arr = None <-> listener ∉ arr.
Proof.
  induction arr as [| c rest IH]; simpl.
  - split; [intros _; apply not_elem_of_nil | done].
  - rewrite not_elem_of_cons. destruct (decide (c = listener)) as [-> | Hne].
    + split; [done | intros [? _]; done].
    + rewrite fmap_None, IH. split; [intros ?; split; [done | done] | tauto].
Qed.

Lemma findIndex_Some listener arr index :
  findIndex listener arr = Some index ->
  exists pre post, arr = pre ++ listener :: post /\ (listener ∉ pre) /\
                   length pre = index.
Proof.
  revert index. induction arr as [| c rest IH]; intros index; simpl; [done |].
  destruct (decide (c = listener)) as [-> | Hne].
  - intros ?; simplify_eq. exists [], rest. split; [done |].
    split; [apply not_elem_of_nil | done].
  - destruct (findIndex listener rest) as [i |]; [| done]. simpl.
    intros ?; simplify_eq. destruct (IH i eq_refl) as (pre & post & -> & Hpre & <-).
    exists (c :: pre), post. split; [done |]. split; [| done].
    apply not_elem_of_cons. split; [done | done].
Qed.

(** X26.  [removeListener] takes out one registration of the function, the
    oldest, and counts one modification; other registrations of the same
    function stay.  For a function that is not registered it throws
    ERR_RESOURCE_NOT_FOUND and changes nothing, the count included. *)
Theorem removeListener_oldest (listener : Callback) (this : t) :
  ((listener ∉ listeners this) <->
   removeListener listener this = (Throw (Exception ERR_RESOURCE_NOT_FOUND), this)) /\
  (forall pre post,
     listeners this = pre ++ listener :: post -> listener ∉ pre ->
     removeListener listener this
     = (Ok tt, {| listeners := pre ++ post;
                  modifyCount := modifyCount this + 1;
                  strict := strict this |})).
Proof.
  split.
  - unfold removeListener. split.
    + intros H%findIndex_None. by rewrite H.
    + destruct (findIndex listener (listeners this)) eqn:E; [done |].
      intros _. by apply findIndex_None.
  - intros pre post Hl Hpre. unfold removeListener.
    destruct (findIndex listener (listeners this)) as [index |] eqn:E.
    + apply findIndex_Some in E as (pre' & post' & Hl' & Hpre' & <-).
      rewrite Hl in Hl'.
      assert (pre = pre' /\ post = post') as [<- <-].
      { clear -Hl' Hpre Hpre'. revert pre' Hl' Hpre'.
        induction pre as [| a pre IH]; intros [| b pre'] Hl' Hpre'; simpl in *.
        - by simplify_eq.
        - simplify_eq. exfalso. apply Hpre'. by left.
        - simplify_eq. exfalso. apply Hpre. by left.
        - simplify_eq. apply not_elem_of_cons in Hpre as [_ Hpre].
          apply not_elem_of_cons in Hpre' as [_ Hpre'].
          destruct (IH Hpre pre' H0 Hpre') as [-> ->]. done. }
      f_equal. f_equal. rewrite Hl.
      clear. induction pre as [| a pre IH]; [done |]. simpl. by rewrite IH.
    + apply findIndex_None in E. rewrite Hl in E. exfalso. apply E.
      apply elem_of_app. right. by left.
Qed.

End SignalRemoval.

Lemma dispatch_order_witness :
  let this := {| WeakSignal.listeners := [1; 2; 1]%nat; WeakSignal.modifyCount := 3;
                 WeakSignal.strict := true |} in
  WeakSignal.dispatch WeakSignal.chatty this
  = (Ok (Some WeakSignal.STOP_PROPAGATION),
     {| WeakSignal.listeners := [1; 2; 1; 3]%nat; WeakSignal.modifyCount := 4;
        WeakSignal.strict := true |},
     [1; 2]%nat).
Proof.
  intros this.
  refine (proj2 (dispatch_order WeakSignal.chatty this) [1%nat] 2%nat [1%nat] _
            eq_refl _ _ eq_refl).
  - constructor; [| constructor]. split; [reflexivity | discriminate].
  - intros [H _]. discriminate H.
Defined.

Lemma removeListener_oldest_witness :
  let this := {| WeakSignal.listeners := [1; 2; 1]%nat; WeakSignal.modifyCount := 3;
                 WeakSignal.strict := false |} in
  WeakSignal.removeListener 1%nat this
  = (Ok tt, {| WeakSignal.listeners := [2; 1]%nat; WeakSignal.modifyCount := 4;
               WeakSignal.strict := false |}).
Proof.
  intros this.
  exact (proj2 (removeListener_oldest 1%nat this) [] [2; 1]%nat eq_refl
           ltac:(apply not_elem_of_nil)).
Defined.

Section ObjectMore.
Context {V : Type}.



Lemma exclude_step (obj : gmap string V) (key : string) :
  (if decide (is_Some (obj !! key)) then delete key obj else obj) = delete key obj.
Proof.
  destruct (decide (is_Some (obj !! key))) as [| Hn]; [done |].
  symmetry. apply delete_id. by apply eq_None_not_Some.
Qed.

(** X28.  [exclude(obj, ...keys)] holds exactly the keys of [obj] that are
    not among [keys], each with the value it has in [obj]. *)
Theorem exclude_lookup (obj : gmap string V) (keys : list string) (key : string) :
  object.exclude obj keys !! key = if decide (key ∈ keys) then None else obj !! key.
Proof.
  unfold object.exclude. revert obj.
  induction keys as [| k keys IH]; intros obj; [done |].
  cbn [foldl]. rewrite exclude_step, IH.
  destruct (decide (key ∈ keys)) as [Hin | Hout].
  - rewrite decide_True; [done | by right].
  - destruct (decide (key = k)) as [-> | Hne].
    + rewrite decide_True by (by left). apply lookup_delete_eq.
    + rewrite decide_False by (rewrite elem_of_cons; tauto).
      by apply lookup_delete_ne.
Qed.

End ObjectMore.


Section EnsureDirMore.

Lemma mkdirp_spec (done rest : Path) (m m' : gmap Path memfs.Node) :
  memfs.mkdirp done rest m = Ok m' ->
  m ⊆ m' /\ m' !! (done ++ rest) = Some memfs.Dir.
Proof.
  revert done m. induction rest as [| s rest IH]; intros done m; cbn [memfs.mkdirp].
  - destruct (m !! done) as [[data |] |] eqn:E; [done | |]; intros ?; simplify_eq.
    + rewrite insert_id by done. by rewrite app_nil_r.
    + split; [by apply insert_subseteq |]. by rewrite app_nil_r, lookup_insert_eq.
  - assert (Hstep : forall m1, m ⊆ m1 -> memfs.mkdirp (done ++ [s]) rest m1 = Ok m' ->
                               m ⊆ m' /\ m' !! (done ++ s :: rest) = Some memfs.Dir).
    { intros m1 Hsub H. apply IH in H as [H1 H2]. split; [by etrans |].
      by rewrite <- app_assoc in H2. }
    destruct (m !! done) as [[data |] |] eqn:E; [done | |]; apply Hstep.
    + by rewrite insert_id.
    + by apply insert_subseteq.
Qed.

(** X30.  [ensureDir] and [ensureDirSync] on the in-memory file system:
    after a success the path is a directory and every entry that existed is
    still there unchanged; after a failure the disk is as it was. *)
Theorem ensureDir_postcondition (dirname : Path) (w : memfs.World) :
  forall ensure, ensure = core.ensureDir \/ ensure = core.ensureDirSync ->
    match interp memfs.run (ensure dirname) w with
    | (Ok _, w') =>
        memfs.nodes w' !! dirname = Some memfs.Dir /\
        memfs.nodes w ⊆ memfs.nodes w'
    | (Throw _, w') => w' = w
    end.
Proof.
  assert (Hbody :
    match interp memfs.run
            (r ← call (Stat dirname);
             match r with
             | Ok st =>
                 if isDirectory st then Ret (Ok tt)
                 else Ret (Throw (Exception ERR_PATH_IS_A_FILE))
             | Throw err =>
                 if has_code err "ENOENT" then call (Mkdir dirname)
                 else Ret (Throw err)
             end) w with
    | (Ok _, w') =>
        memfs.nodes w' !! dirname = Some memfs.Dir /\
        memfs.nodes w ⊆ memfs.nodes w'
    | (Throw _, w') => w' = w
    end).
  { rewrite interp_mbind, interp_call. cbn [memfs.run]. unfold memfs.stat_of.
    destruct (memfs.nodes w !! dirname) as [[data |] |] eqn:E; cbn [isDirectory interp].
    - done.
    - done.
    - unfold memfs.ENOENT. cbn [has_code]. rewrite bool_decide_eq_true_2 by done.
      rewrite interp_call. cbn [memfs.run].
      destruct (memfs.mkdirp [] dirname (memfs.nodes w)) as [m |] eqn:Hm; [| done].
      apply mkdirp_spec in Hm as [Hsub Hdir]. done. }
  intros ensure [-> | ->]; exact Hbody.
Qed.

End EnsureDirMore.

Lemma ensureDir_postcondition_witness :
  match interp memfs.run (core.ensureDir (example.store ++ ["a"; "b"]%string))
          (example.used_disk 0) with
  | (Ok _, w') =>
      memfs.nodes w' !! (example.store ++ ["a"; "b"]%string) = Some memfs.Dir /\
      memfs.nodes (example.used_disk 0) ⊆ memfs.nodes w'
  | (Throw _, w') => w' = example.used_disk 0
  end.
Proof.
  exact (ensureDir_postcondition (example.store ++ ["a"; "b"]%string)
           (example.used_disk 0) core.ensureDir (or_introl eq_refl)).
Defined.
